(** * intro.js-react: the [Steps] component

    A shallow embedding of [src/components/Steps/index.js], the React
    component that keeps an intro.js tour in step with its props, and the
    properties of its visibility state machine, event relay, configuration
    sync and element re-binder.

    The component owns three fields ([introJs], [isConfigured],
    [isVisible]) and talks to three outside parties: the intro.js engine
    (which calls back into the component while it runs), the consumer's
    callback props, and the browser (document lookup, timers).  The
    embedding threads a [World] through an error monad and records every
    hand-over of control and every write of a flag in a chronological
    [log].

    What lies outside the component is taken as follows.
    - The engine is a parameter: each of its methods is a [Reaction], a
      tree that says which events it fires in which engine state and how
      it goes on from the value a handler returns.  Nothing is assumed
      about it unless a theorem says so.
    - A callback prop is a function of its arguments: it returns a value
      and does not call back into the component while it runs.  What the
      consumer does later is an operation of its own ([Op]).
    - [initialStep] is an integer, so [initialStep + 1] is exact.
    - On a server the constructor installs no engine; every access to
      [this.introJs] then throws, as in the source. *)

From Stdlib Require Import ZArith Bool.
From stdpp Require Import base option list gmap strings.

(** ** JavaScript values that cross the component's boundary *)

Inductive JsVal :=
| JUndefined
| JNull
| JBool (b : bool)
| JNum (n : Z)
| JStr (s : string).

(** [v === false] *)
Definition strict_false (v : JsVal) : bool :=
  match v with JBool false => true | _ => false end.

(** Errors the component can raise: a property access on [null] or
    [undefined], and the DOM exception of an invalid selector. *)
Inductive JsError := TypeError | SyntaxError.

(** An object is compared by identity ([!==]), whatever it holds. *)
Record Obj (A : Type) := mkObj { addr : nat; val : A }.
Arguments mkObj {A} _ _.
Arguments addr {A} _.
Arguments val {A} _.

(** [a !== b] on objects *)
Definition ref_neq {A} (a b : Obj A) : bool := negb (addr a =? addr b).

(** DOM element handles, React elements, and the parts of the engine and
    of its intro items that the component never looks at. *)
Class Carriers := {
  Elem : Type;
  ReactElement : Type;
  Hidden : Type;
  ItemRest : Type }.

Section Steps.

Context {carriers : Carriers}.

(** *** Steps and options *)

(** What a step's [element] may hold: a selector or an element. *)
Inductive Target :=
| Selector (s : string)
| ElementRef (e : Elem).

(** A [PropTypes.node]: text, a number, a React element or an array of
    nodes. *)
#[warnings="-register-all"]
Inductive Intro :=
| IntroText (s : string)
| IntroNumber (n : Z)
| IntroElement (e : ReactElement)
| IntroArray (l : list Intro).

Record Step := mkStep {
  element : option Target;
  intro : Intro;
  position : option string;
  tooltipClass : option string;
  highlightClass : option string }.

(** A value of the options object: a scalar, or the array under
    [steps]. *)
Inductive OptVal :=
| OVal (v : JsVal)
| OSteps (l : list Step).

Abbreviation Options := (gmap string OptVal).

(** *** The engine *)

Record IntroItem := mkItem {
  item_element : option Elem;
  item_position : option string;
  item_rest : ItemRest }.

(** The intro.js instance as the component sees it: [_currentStep],
    [_options], [_introItems], and the rest. *)
Record Engine := mkEngine {
  _currentStep : JsVal;
  _options : Options;
  _introItems : list IntroItem;
  hidden : Hidden }.

(** The six events the component subscribes to in [installIntroJs]. *)
Inductive EngineEvent :=
| EvExit
| EvBeforeExit
| EvBeforeChange (el : Elem)
| EvAfterChange (el : Elem)
| EvChange (el : Elem)
| EvComplete.

(** What the engine does when one of its methods runs: it ends in some
    state, or it fires an event in some state and goes on according to
    the value the handler returned. *)
Inductive Reaction :=
| Done (e : Engine)
| Fire (e : Engine) (ev : EngineEvent) (k : JsVal -> Reaction).

(** The libraries the component imports: [renderToStaticMarkup] of
    react-dom/server, [introJs()] and the four engine methods the
    component calls. *)
Class Collaborators := {
  renderToStaticMarkup : ReactElement -> string;
  new_introJs : Engine;
  eng_setOptions : Options -> Engine -> Reaction;
  eng_start : Engine -> Reaction;
  eng_goToStepNumber : Z -> Engine -> Reaction;
  eng_exit : Engine -> Reaction }.

Context {collaborators : Collaborators}.

(** *** Props *)

Record Props := mkProps {
  enabled : bool;
  initialStep : Z;
  steps : Obj (list Step);
  options : Obj Options;
  onStart : option (JsVal -> JsVal);
  onExit : JsVal -> JsVal;
  onBeforeExit : option (JsVal -> JsVal);
  onBeforeChange : option (JsVal -> Elem -> JsVal);
  onAfterChange : option (JsVal -> Elem -> JsVal);
  onChange : option (JsVal -> Elem -> JsVal);
  onPreventChange : option (JsVal -> JsVal);
  onComplete : option (unit -> JsVal) }.

(** *** The log *)

Inductive EngineOp :=
| OpSetOptions (o : Options)
| OpStart
| OpGoToStepNumber (n : Z)
| OpExit.

Inductive Callback :=
| CbStart (i : JsVal)
| CbExit (i : JsVal)
| CbBeforeExit (i : JsVal)
| CbBeforeChange (i : JsVal) (el : Elem)
| CbAfterChange (i : JsVal) (el : Elem)
| CbChange (i : JsVal) (el : Elem)
| CbPreventChange (i : JsVal)
| CbComplete.

(** One entry per hand-over of control and per write of a flag. *)
Inductive Action :=
| Call (op : EngineOp)            (* the component enters an engine method *)
| Return (op : EngineOp)          (* that method returns *)
| Relay (ev : EngineEvent)        (* the engine enters a handler *)
| Consumer (c : Callback)         (* the component calls a callback prop *)
| SetTimeout                      (* the component sets a zero-delay timer *)
| Write_isVisible (b : bool)
| Write_isConfigured (b : bool).

(** *** The world *)

Inductive QueryResult :=
| QElem (el : Elem)
| QNull
| QInvalid.

(** [document.querySelector] applied to what a step's [element] holds.
    The host is one that has a document; a host without one raises a
    [ReferenceError] at line 213 before the engine is looked at. *)
Definition Document := option Target -> QueryResult.

(** The closure handed to [setTimeout] in [onBeforeChange]: it keeps the
    [onPreventChange] it was created with and reads the engine when it
    runs. *)
Record Task := mkTask { task_onPreventChange : JsVal -> JsVal }.

Record World := mkWorld {
  introJs : option Engine;
  isConfigured : bool;
  isVisible : bool;
  props : Props;
  document : Document;
  timers : list Task;
  log : list Action }.

Definition with_introJs (e : option Engine) (w : World) : World :=
  mkWorld e (isConfigured w) (isVisible w) (props w) (document w) (timers w) (log w).
Definition with_isConfigured (b : bool) (w : World) : World :=
  mkWorld (introJs w) b (isVisible w) (props w) (document w) (timers w) (log w).
Definition with_isVisible (b : bool) (w : World) : World :=
  mkWorld (introJs w) (isConfigured w) b (props w) (document w) (timers w) (log w).
Definition with_props (p : Props) (w : World) : World :=
  mkWorld (introJs w) (isConfigured w) (isVisible w) p (document w) (timers w) (log w).
Definition with_document (d : Document) (w : World) : World :=
  mkWorld (introJs w) (isConfigured w) (isVisible w) (props w) d (timers w) (log w).
Definition with_timers (t : list Task) (w : World) : World :=
  mkWorld (introJs w) (isConfigured w) (isVisible w) (props w) (document w) t (log w).
Definition with_log (l : list Action) (w : World) : World :=
  mkWorld (introJs w) (isConfigured w) (isVisible w) (props w) (document w) (timers w) l.

(** *** The monad: a world in, a value or an exception out *)

Inductive Outcome (A : Type) :=
| Ret (a : A) (w : World)
| Throw (err : JsError) (w : World).
Arguments Ret {A} _ _.
Arguments Throw {A} _ _.

Definition M (A : Type) := World -> Outcome A.

Definition ret {A} (a : A) : M A := fun w => Ret a w.
Definition bind {A B} (m : M A) (f : A -> M B) : M B :=
  fun w => match m w with
           | Ret a w' => f a w'
           | Throw err w' => Throw err w'
           end.

Notation "'let*' x ':=' m 'in' k" := (bind m (fun x => k))
  (at level 10, x name, m at level 100, k at level 200).
Notation "m '>>' k" := (bind m (fun _ => k))
  (at level 90, right associativity).

Definition world_of {A} (o : Outcome A) : World :=
  match o with Ret _ w => w | Throw _ w => w end.

Definition emit (a : Action) : M unit :=
  fun w => Ret tt (with_log (log w ++ [a]) w).

(** [this.isVisible = b], [this.isConfigured = b] *)
Definition write_isVisible (b : bool) : M unit :=
  fun w => Ret tt (with_log (log w ++ [Write_isVisible b]) (with_isVisible b w)).
Definition write_isConfigured (b : bool) : M unit :=
  fun w => Ret tt (with_log (log w ++ [Write_isConfigured b]) (with_isConfigured b w)).

(** [this.introJs._currentStep] *)
Definition currentStep : M JsVal :=
  fun w => match introJs w with
           | Some e => Ret (_currentStep e) w
           | None => Throw TypeError w
           end.

(** [setTimeout(f, 0)] *)
Definition setTimeout (t : Task) : M unit :=
  fun w => Ret tt (with_log (log w ++ [SetTimeout]) (with_timers (timers w ++ [t]) w)).

(** *** The event relay (lines 116-205) *)

Definition handle_onExit : M JsVal :=
  write_isVisible false >>
  let* i := currentStep in
  emit (Consumer (CbExit i)) >>
  ret JUndefined.

Definition handle_onBeforeExit : M JsVal :=
  fun w =>
    match onBeforeExit (props w) with
    | Some f =>
        (let* i := currentStep in
         emit (Consumer (CbBeforeExit i)) >>
         ret (f i)) w
    | None => Ret (JBool true) w
    end.

Definition handle_onBeforeChange (nextElement : Elem) : M JsVal :=
  fun w =>
    if negb (isVisible w) then Ret (JBool true) w
    else
      match onBeforeChange (props w) with
      | Some f =>
          (let* i := currentStep in
           emit (Consumer (CbBeforeChange i nextElement)) >>
           let continueStep := f i nextElement in
           (match strict_false continueStep, onPreventChange (props w) with
            | true, Some g => setTimeout (mkTask g)
            | _, _ => ret tt
            end) >>
           ret continueStep) w
      | None => Ret (JBool true) w
      end.

Definition handle_onAfterChange (el : Elem) : M JsVal :=
  fun w =>
    if negb (isVisible w) then Ret JUndefined w
    else
      match onAfterChange (props w) with
      | Some _ =>
          (let* i := currentStep in
           emit (Consumer (CbAfterChange i el)) >>
           ret JUndefined) w
      | None => Ret JUndefined w
      end.

Definition handle_onChange (el : Elem) : M JsVal :=
  fun w =>
    if negb (isVisible w) then Ret JUndefined w
    else
      match onChange (props w) with
      | Some _ =>
          (let* i := currentStep in
           emit (Consumer (CbChange i el)) >>
           ret JUndefined) w
      | None => Ret JUndefined w
      end.

Definition handle_onComplete : M JsVal :=
  fun w =>
    match onComplete (props w) with
    | Some _ => (emit (Consumer CbComplete) >> ret JUndefined) w
    | None => Ret JUndefined w
    end.

(** The handler registered for each event in [installIntroJs]. *)
Definition handler (ev : EngineEvent) : M JsVal :=
  match ev with
  | EvExit => handle_onExit
  | EvBeforeExit => handle_onBeforeExit
  | EvBeforeChange el => handle_onBeforeChange el
  | EvAfterChange el => handle_onAfterChange el
  | EvChange el => handle_onChange el
  | EvComplete => handle_onComplete
  end.

Definition relay (ev : EngineEvent) : M JsVal :=
  emit (Relay ev) >> handler ev.

(** *** Running the engine *)

(** The engine object stays the same; its state moves. *)
Definition engine_moves (e : Engine) : M unit :=
  fun w => Ret tt (with_introJs (Some e) w).

Fixpoint run (r : Reaction) : M unit :=
  match r with
  | Done e => engine_moves e
  | Fire e ev k =>
      engine_moves e >>
      let* v := relay ev in
      run (k v)
  end.

(** The events fired while [r] runs, each with the value of [isVisible]
    that its handler finds on entry. *)
Fixpoint sightings (r : Reaction) (w : World) : list (EngineEvent * bool) :=
  match r with
  | Done _ => []
  | Fire e ev k =>
      (ev, isVisible w) ::
      match relay ev (with_introJs (Some e) w) with
      | Ret v w' => sightings (k v) w'
      | Throw _ _ => []
      end
  end.

(** [this.introJs.method(...)] *)
Definition call (op : EngineOp) (method : Engine -> Reaction) : M unit :=
  fun w =>
    match introJs w with
    | Some e => (emit (Call op) >> run (method e) >> emit (Return op)) w
    | None => Throw TypeError w
    end.

(** *** Configuration sync (lines 242-259) *)

(** [isValidElement] *)
Definition isValidElement (i : Intro) : bool :=
  match i with IntroElement _ => true | _ => false end.

Definition sanitize (step : Step) : Step :=
  match intro step with
  | IntroElement e =>
      mkStep (element step) (IntroText (renderToStaticMarkup e))
             (position step) (tooltipClass step) (highlightClass step)
  | _ => step
  end.

(** [{ ...options, steps: sanitizedSteps }] *)
Definition merged_options (o : Options) (sanitizedSteps : list Step) : Options :=
  <["steps" := OSteps sanitizedSteps]> o.

Definition configureIntroJs : M unit :=
  fun w =>
    let sanitizedSteps := map sanitize (val (steps (props w))) in
    let o := merged_options (val (options (props w))) sanitizedSteps in
    (call (OpSetOptions o) (eng_setOptions o) >>
     write_isConfigured true) w.

(** *** The visibility state machine (lines 264-282) *)

Definition renderSteps : M unit :=
  fun w =>
    let p := props w in
    if enabled p && (0 <? length (val (steps p))) && negb (isVisible w) then
      (call OpStart eng_start >>
       write_isVisible true >>
       call (OpGoToStepNumber (initialStep p + 1)) (eng_goToStepNumber (initialStep p + 1)) >>
       match onStart p with
       | Some _ => let* i := currentStep in emit (Consumer (CbStart i))
       | None => ret tt
       end) w
    else if negb (enabled p) && isVisible w then
      (write_isVisible false >>
       call OpExit eng_exit) w
    else Ret tt w.

(** *** Lifecycle (lines 66-111) *)

Definition installIntroJs (isServer : bool) : option Engine :=
  if isServer then None else Some new_introJs.

Definition constructor (isServer : bool) (p : Props) (d : Document) : World :=
  mkWorld (installIntroJs isServer) false false p d [] [].

Definition componentDidMount : M unit :=
  fun w =>
    if enabled (props w) then (configureIntroJs >> renderSteps) w
    else Ret tt w.

Definition componentDidUpdate (prevProps : Props) : M unit :=
  fun w =>
    let p := props w in
    ((if negb (isConfigured w) || ref_neq (steps prevProps) (steps p)
         || ref_neq (options prevProps) (options p)
      then configureIntroJs >> renderSteps
      else ret tt) >>
     (if negb (eqb (enabled prevProps) (enabled p))
      then renderSteps
      else ret tt)) w.

Definition componentWillUnmount : M unit :=
  call OpExit eng_exit.

(** *** The element re-binder (lines 212-219) *)

(** [this.introJs._options.steps[stepIndex]]: a step of the array; the
    character of a string (which has neither [element] nor [position]);
    anything else has nothing to read from. *)
Inductive Indexed :=
| AStep (s : Step)
| AChar
| Missing.

Definition options_step (o : Options) (stepIndex : nat) : Indexed :=
  match o !! "steps" with
  | Some (OSteps l) =>
      match l !! stepIndex with Some s => AStep s | None => Missing end
  | Some (OVal (JStr s)) =>
      if stepIndex <? String.length s then AChar else Missing
  | _ => Missing
  end.

(** [x || 'auto'] on an optional string *)
Definition or_auto (x : option string) : string :=
  match x with
  | Some s => if String.eqb s "" then "auto" else s
  | None => "auto"
  end.

Definition updateStepElement (stepIndex : nat) : M unit :=
  fun w =>
    match introJs w with
    | None => Throw TypeError w
    | Some e =>
        match options_step (_options e) stepIndex with
        | Missing => Throw TypeError w
        | ix =>
            let cfg_element := match ix with AStep s => element s | _ => None end in
            let cfg_position := match ix with AStep s => position s | _ => None end in
            match document w cfg_element with
            | QInvalid => Throw SyntaxError w
            | QNull => Ret tt w
            | QElem el =>
                match _introItems e !! stepIndex with
                | None => Throw TypeError w
                | Some old =>
                    let item := mkItem (Some el) (Some (or_auto cfg_position))
                                       (item_rest old) in
                    Ret tt (with_introJs
                              (Some (mkEngine (_currentStep e) (_options e)
                                              (<[stepIndex := item]> (_introItems e))
                                              (hidden e))) w)
                end
            end
        end
    end.

(** *** The host: what can happen to a mounted component *)

(** A zero-delay timer fires: the closure reads the engine's current step
    and calls the [onPreventChange] it holds. *)
Definition fire (t : Task) : M unit :=
  let* i := currentStep in
  emit (Consumer (CbPreventChange i)).

Inductive Op :=
| Update (p : Props)                    (* React re-renders with new props *)
| EngineActs (act : Engine -> Reaction) (* the user drives the tour *)
| Tick                                  (* the oldest pending timer fires *)
| Rebind (stepIndex : nat)              (* the consumer calls updateStepElement *)
| DocumentChanges (d : Document)
| Unmount.

Definition exec (op : Op) : M unit :=
  fun w =>
    match op with
    | Update p => componentDidUpdate (props w) (with_props p w)
    | EngineActs act =>
        match introJs w with
        | Some e => run (act e) w
        | None => Ret tt w
        end
    | Tick =>
        match timers w with
        | t :: ts => fire t (with_timers ts w)
        | [] => Ret tt w
        end
    | Rebind i => updateStepElement i w
    | DocumentChanges d => Ret tt (with_document d w)
    | Unmount => componentWillUnmount w
    end.

(** An exception ends the operation that raised it; the next one finds the
    world as the exception left it. *)
Definition execs (ops : list Op) (w : World) : World :=
  fold_left (fun w op => world_of (exec op w)) ops w.

Definition mount (isServer : bool) (p : Props) (d : Document) : World :=
  world_of (componentDidMount (constructor isServer p d)).

Definition lifetime (isServer : bool) (p : Props) (d : Document) (ops : list Op) : World :=
  execs ops (mount isServer p d).

(** *** Reading the log *)

(** The value of [isVisible] after the writes of a stretch of log. *)
Definition vis_step (v : bool) (a : Action) : bool :=
  match a with Write_isVisible b => b | _ => v end.
Definition vis_of (v : bool) (d : list Action) : bool := fold_left vis_step d v.

(** "The most recent start was issued and no exit has occurred since":
    a call of the engine's start sets it, a call of the engine's exit or
    a relayed exit event clears it. *)
Definition issued_step (s : bool) (a : Action) : bool :=
  match a with
  | Call OpStart => true
  | Call OpExit | Relay EvExit => false
  | _ => s
  end.
Definition issued_of (s : bool) (d : list Action) : bool := fold_left issued_step d s.

(** The same with the start counted from its return. *)
Definition started_step (s : bool) (a : Action) : bool :=
  match a with
  | Return OpStart => true
  | Call OpExit | Relay EvExit => false
  | _ => s
  end.
Definition started_of (s : bool) (d : list Action) : bool := fold_left started_step d s.

(** The points at which the component hands control to the engine or to
    the consumer. *)
Definition hands_over (a : Action) : bool :=
  match a with Call _ | Consumer _ => true | _ => false end.

(** Entries that the event relay writes. *)
Definition relay_made (a : Action) : bool :=
  match a with
  | Relay _ | Consumer _ | SetTimeout | Write_isVisible false => true
  | _ => false
  end.

(** The events relayed in a stretch of log, in order. *)
Definition relays (d : list Action) : list EngineEvent :=
  omap (fun a => match a with Relay ev => Some ev | _ => None end) d.

Definition is_setOptions (a : Action) : bool :=
  match a with Call (OpSetOptions _) => true | _ => false end.

Definition is_start (a : Action) : bool :=
  match a with Call OpStart => true | _ => false end.

(** How often configuration sync ran. *)
Definition configure_runs (d : list Action) : nat :=
  length (filter (fun a => is_setOptions a = true) d).

(** [consistent v s d]: starting with [isVisible = v] and the start
    status [s], at every hand-over in [d] (counted after it) the flag and
    the status agree. *)
Fixpoint consistent (v s : bool) (d : list Action) : Prop :=
  match d with
  | [] => True
  | a :: d' =>
      (hands_over a = true -> vis_step v a = started_step s a) /\
      consistent (vis_step v a) (started_step s a) d'
  end.

(** What a stretch [d] of event relay can have done to a world. *)
Record relayed (w : World) (d : list Action) (w' : World) : Prop := {
  rl_log : log w' = log w ++ d;
  rl_made : Forall (fun a => relay_made a = true) d;
  rl_props : props w' = props w;
  rl_isConfigured : isConfigured w' = isConfigured w;
  rl_document : document w' = document w;
  rl_introJs : is_Some (introJs w');
  rl_isVisible : isVisible w' = vis_of (isVisible w) d;
  rl_consistent : consistent (isVisible w) (isVisible w) d;
  rl_started : started_of (isVisible w) d = vis_of (isVisible w) d }.

(** What an operation of the component can have done to a world, as far
    as the flag and the log go. *)
Record stepped (w : World) (d : list Action) (w' : World) : Prop := {
  sp_log : log w' = log w ++ d;
  sp_introJs : is_Some (introJs w');
  sp_isVisible : isVisible w' = vis_of (isVisible w) d;
  sp_consistent : consistent (isVisible w) (isVisible w) d;
  sp_started : started_of (isVisible w) d = vis_of (isVisible w) d }.

(** [m] keeps [P], whether it returns or throws. *)
Definition preserves {A} (P : World -> Prop) (m : M A) : Prop :=
  forall w, P w -> P (world_of (m w)).

(** [P] does not mind what the relay does, entries in the log other than
    a call of start, or writes to the fields other than [props]. *)
Record stable (P : World -> Prop) : Prop := {
  stable_relayed : forall w d w', relayed w d w' -> P w -> P w';
  stable_log : forall w a, is_start a = false -> P w -> P (with_log (log w ++ [a]) w);
  stable_isVisible : forall w b, P w -> P (with_isVisible b w);
  stable_isConfigured : forall w, P w -> P (with_isConfigured true w);
  stable_introJs : forall w e, P w -> P (with_introJs e w);
  stable_timers : forall w t, P w -> P (with_timers t w);
  stable_document : forall w d, P w -> P (with_document d w) }.

(** How often the engine's start was called. *)
Definition starts (d : list Action) : nat :=
  length (filter (fun a => is_start a = true) d).

Definition is_unmount (op : Op) : bool :=
  match op with Unmount => true | _ => false end.

(** The props a mounted component receives, in order. *)
Definition updates (ops : list Op) : list Props :=
  omap (fun op => match op with Update p => Some p | _ => None end) ops.

(** *** Counting configurations *)

Definition pair_of (p : Props) : nat * nat := (addr (steps p), addr (options p)).

(** The number of distinct (steps, options) pairs among the props. *)
Definition distinct_pairs (ps : list Props) : nat :=
  length (remove_dups (map pair_of ps)).

(** [q] has another [steps] or another [options] object than [p]. *)
Definition pair_changed (p q : Props) : bool :=
  ref_neq (steps p) (steps q) || ref_neq (options p) (options q).

(** The number of props in [ps] whose pair differs from the pair just
    before, [prev] being before the first. *)
Fixpoint pair_changes (prev : Props) (ps : list Props) : nat :=
  match ps with
  | [] => 0
  | p :: ps' => (if pair_changed prev p then 1 else 0) + pair_changes p ps'
  end.

(** The configurations to expect over the props [ps] that follow [prev]:
    one per change of pair once the component is configured, and before
    that one for the first props whatever they are. *)
Definition runs_expected (configured : bool) (prev : Props) (ps : list Props) : nat :=
  if configured then pair_changes prev ps
  else match ps with
       | [] => 0
       | p :: ps' => 1 + pair_changes p ps'
       end.

(** The flag agrees with the log, and the log with itself. *)
Definition in_step (w : World) : Prop :=
  isVisible w = vis_of false (log w) /\
  started_of false (log w) = vis_of false (log w) /\
  consistent false false (log w).

(** "Exactly once per distinct pair", as a count over a whole life. *)
Definition once_per_distinct_pair (p : Props) (doc : Document) (ops : list Op) : Prop :=
  configure_runs (log (lifetime false p doc ops)) = distinct_pairs (p :: updates ops).

(** "The flag is up exactly when a start was issued and no exit occurred
    since", at every point of a log. *)
Definition visible_iff_issued (l : list Action) : Prop :=
  forall pre post, l = pre ++ post ->
    (vis_of false pre = true <-> issued_of false pre = true).

(** *** More readings of the log *)

(** How often [f] holds in a stretch of log. *)
Fixpoint tally (f : Action -> bool) (d : list Action) : nat :=
  match d with
  | [] => 0
  | a :: d' => (if f a then 1 else 0) + tally f d'
  end.

Definition is_exit_call (a : Action) : bool :=
  match a with Call OpExit => true | _ => false end.
Definition is_setTimeout (a : Action) : bool :=
  match a with SetTimeout => true | _ => false end.
Definition is_preventChange (a : Action) : bool :=
  match a with Consumer (CbPreventChange _) => true | _ => false end.

(** Calls of the engine's exit, timers set, prevent-change callbacks
    made. *)
Definition exits (d : list Action) : nat := tally is_exit_call d.
Definition timers_set (d : list Action) : nat := tally is_setTimeout d.
Definition prevents (d : list Action) : nat := tally is_preventChange d.

Definition is_exit_event (ev : EngineEvent) : bool :=
  match ev with EvExit => true | _ => false end.

(** The engine relayed an exit event somewhere in [d]. *)
Definition exit_relayed (d : list Action) : bool :=
  existsb is_exit_event (relays d).

(** The engine relayed an exit event in [d] before the component called
    its exit. *)
Fixpoint unprompted_exit (d : list Action) : bool :=
  match d with
  | [] => false
  | Call OpExit :: _ => false
  | Relay EvExit :: _ => true
  | _ :: d' => unprompted_exit d'
  end.

(** What reaches the consumer of a change: the three change callbacks and
    the timer of a refused change. *)
Definition change_made (a : Action) : bool :=
  match a with
  | Consumer (CbBeforeChange _ _) | Consumer (CbAfterChange _ _)
  | Consumer (CbChange _ _) | SetTimeout => true
  | _ => false
  end.

(** What an operation appended to the log. *)
Definition appended (w w' : World) : list Action :=
  drop (length (log w)) (log w').

(** "Invoked with the pre-transition current step index": the tour is
    visible, an action of the engine is refused by the consumer's
    [onBeforeChange], [onPreventChange] is supplied; when the timer then
    fires, [onPreventChange] gets the step at which the engine was before
    the action. *)
Definition prevented_at_prior_step (w : World) (act : Engine -> Reaction) : Prop :=
  forall e f g el i,
    introJs w = Some e ->
    isVisible w = true ->
    onBeforeChange (props w) = Some f ->
    onPreventChange (props w) = Some g ->
    timers w = [] ->
    let w1 := world_of (run (act e) w) in
    appended w w1 =
      [Relay (EvBeforeChange el); Consumer (CbBeforeChange i el); SetTimeout] ->
    f i el = JBool false ->
    appended w1 (world_of (exec Tick w1)) =
      [Consumer (CbPreventChange (_currentStep e))].

(** [steps.length > 0] *)
Definition has_steps (p : Props) : bool := 0 <? length (val (steps p)).

(** An update runs [renderSteps] at all: the component is unconfigured,
    or [steps], [options] or [enabled] differ from the previous props. *)
Definition reevaluates (w : World) (p : Props) : bool :=
  negb (isConfigured w) || pair_changed (props w) p
  || negb (eqb (enabled (props w)) (enabled p)).

(** Entries the component writes around its engine calls, the call of
    start apart. *)
Definition around_call (a : Action) : bool :=
  match a with
  | Call OpStart => false
  | Call _ | Return _ | Consumer (CbStart _) => true
  | _ => false
  end.

(** [P] survives everything the component does in its lifecycle: what a
    run of the engine does, the entries around engine calls, a call of
    start made configured and with the flag down, a write of [isVisible],
    the write of [isConfigured] after a configuration, new props, a timer
    that fires, a re-binding, a new document. *)
Record respects (P : World -> Prop) : Prop := {
  rp_run : forall r, preserves P (run r);
  rp_entry : forall w a, around_call a = true -> P w -> P (with_log (log w ++ [a]) w);
  rp_start : forall w, isVisible w = false -> isConfigured w = true -> P w ->
                       P (with_log (log w ++ [Call OpStart]) w);
  rp_isVisible : forall w b, P w ->
                   P (with_log (log w ++ [Write_isVisible b]) (with_isVisible b w));
  rp_isConfigured : forall w, 1 <= configure_runs (log w) -> P w ->
                   P (with_log (log w ++ [Write_isConfigured true]) (with_isConfigured true w));
  rp_props : forall w p, P w -> P (with_props p w);
  rp_fire : forall w t ts, timers w = t :: ts -> P w -> P (world_of (fire t (with_timers ts w)));
  rp_rebind : forall i, preserves P (updateStepElement i);
  rp_document : forall w d, P w -> P (with_document d w) }.

(** Every call of start in the log was made with the flag down and after
    a configuration. *)
Definition starts_guarded (l : list Action) : Prop :=
  forall pre post, l = pre ++ Call OpStart :: post ->
    vis_of false pre = false /\ 1 <= configure_runs pre.

Definition is_update (op : Op) : bool :=
  match op with Update _ => true | _ => false end.

(** The flag agrees with the log, a configured component has configured
    its engine, and every call of start was guarded. *)
Definition guarded (w : World) : Prop :=
  isVisible w = vis_of false (log w) /\
  (isConfigured w = true -> 1 <= configure_runs (log w)) /\
  starts_guarded (log w).

(** With the engine installed: every timer set has either fired, with
    one prevent-change callback, or is still pending. *)
Definition timers_accounted (w : World) : Prop :=
  is_Some (introJs w) /\
  timers_set (log w) = prevents (log w) + length (timers w).

(** A step whose [intro] the engine can take as it is. *)
(** A flag that is up has enabled props and an engine behind it. *)
Definition flag_backed (w : World) : Prop :=
  isVisible w = true -> enabled (props w) = true /\ is_Some (introJs w).

(** With the engine installed: the calls of exit are covered by calls of
    start, with one start to spare while the flag is up. *)
Definition exits_covered (w : World) : Prop :=
  is_Some (introJs w) /\
  exits (log w) + (if isVisible w then 1 else 0) <= starts (log w).

Definition plain_intro (s : Step) : Prop := isValidElement (intro s) = false.

(** The object [configureIntroJs] hands to the engine for props [p]. *)
Definition options_for (p : Props) : Options :=
  merged_options (val (options p)) (map sanitize (val (steps p))).

(** The options of the last call of [setOptions] in a stretch of log,
    [acc] if there is none. *)
Definition opt_step (acc : option Options) (a : Action) : option Options :=
  match a with Call (OpSetOptions o) => Some o | _ => acc end.
Definition options_sent (acc : option Options) (l : list Action) : option Options :=
  fold_left opt_step l acc.
Definition last_options (l : list Action) : option Options := options_sent None l.

(** With the engine installed: the engine was last configured for the
    current props if the component is configured, and never otherwise. *)
Definition in_sync (w : World) : Prop :=
  is_Some (introJs w) /\
  last_options (log w) =
  (if isConfigured w then Some (options_for (props w)) else None).

(** [q] was not made by changing the steps or options of [p] in place:
    the same objects hold the same values. *)
Definition same_content (p q : Props) : Prop :=
  pair_changed p q = false ->
  val (steps p) = val (steps q) /\ val (options p) = val (options q).

(** No update of [ops] changes steps or options in place, [p] being the
    props before the first. *)
Fixpoint unmutated (p : Props) (ops : list Op) : Prop :=
  match ops with
  | [] => True
  | Update q :: ops' => same_content p q /\ unmutated q ops'
  | _ :: ops' => unmutated p ops'
  end.

End Steps.

Arguments Ret {_ _} _ _.
Arguments Throw {_ _} _ _.

Notation "'let*' x ':=' m 'in' k" := (bind m (fun x => k))
  (at level 10, x name, m at level 100, k at level 200).
Notation "m '>>' k" := (bind m (fun _ => k))
  (at level 90, right associativity).

(** ** A sample engine

    A small engine in the manner of intro.js, with strings for elements
    and for React elements, to run the component on concrete inputs.  It
    moves [_currentStep] to the target before it fires before-change and
    moves it back on a veto, asks before-exit before it exits, and exits
    after the last step. *)

Module Sample.

Definition carriers : Carriers :=
  {| Elem := string; ReactElement := string; Hidden := unit; ItemRest := unit |}.
#[local] Existing Instance carriers.

Definition set_cur (e : Engine) (i : JsVal) : Engine :=
  mkEngine i (_options e) (_introItems e) (hidden e).

Definition item_of (s : Step) : IntroItem :=
  mkItem (match element s with
          | Some (Selector sel) => Some sel
          | Some (ElementRef el) => Some el
          | None => None
          end)
         (position s) tt.

Definition configured_steps (e : Engine) : list Step :=
  match _options e !! "steps" with
  | Some (OSteps l) => l
  | _ => []
  end.

Definition leave (e : Engine) : Reaction :=
  Fire e EvBeforeExit (fun v =>
    if strict_false v then Done e
    else Fire e EvExit (fun _ => Done (set_cur e JUndefined))).

(** Go to item [i]; [back] is where a veto leaves the engine. *)
Definition show (e : Engine) (i : nat) (back : Engine) : Reaction :=
  let e1 := set_cur e (JNum (Z.of_nat i)) in
  match _introItems e !! i with
  | None => Fire e1 EvComplete (fun _ => leave e1)
  | Some it =>
      let el := default "" (item_element it) in
      Fire e1 (EvBeforeChange el) (fun v =>
        if strict_false v then Done back
        else Fire e1 (EvChange el) (fun _ =>
             Fire e1 (EvAfterChange el) (fun _ => Done e1)))
  end.

Definition start (e : Engine) : Reaction :=
  let e0 := mkEngine JUndefined (_options e) (map item_of (configured_steps e)) (hidden e) in
  show e0 0 (set_cur e0 (JNum (-1))).

Definition goToStepNumber (n : Z) (e : Engine) : Reaction :=
  show e (Z.to_nat (n - 1)) (set_cur e (JNum (n - 2))).

Definition next (e : Engine) : Reaction :=
  match _currentStep e with
  | JNum c => show e (Z.to_nat (c + 1)) e
  | _ => Done e
  end.

Definition setOptions (o : gmap string OptVal) (e : Engine) : Reaction :=
  Done (mkEngine (_currentStep e) (o ∪ _options e) (_introItems e) (hidden e)).

Definition markup (jsx : string) : string := ("<p>" ++ jsx ++ "</p>")%string.

Definition collaborators : Collaborators :=
  {| renderToStaticMarkup := markup;
     new_introJs := mkEngine JUndefined ∅ [] tt;
     eng_setOptions := setOptions;
     eng_start := start;
     eng_goToStepNumber := goToStepNumber;
     eng_exit := leave |}.
#[local] Existing Instance collaborators.

(** A page with a title and a menu. *)
Definition page : Document :=
  fun t =>
    match t with
    | Some (Selector "#title") => QElem "#title"
    | Some (Selector "#menu") => QElem "#menu"
    | Some (Selector _) => QNull
    | Some (ElementRef _) => QInvalid
    | None => QNull
    end.

(** The same page once the late element has appeared. *)
Definition later_page : Document :=
  fun t =>
    match t with
    | Some (Selector "#late") => QElem "#late"
    | _ => page t
    end.

Definition S0 : Step := mkStep (Some (Selector "#title")) (IntroText "Welcome") None None None.
Definition S1 : Step := mkStep (Some (Selector "#menu")) (IntroElement "b") (Some "left") None None.
Definition S2 : Step := mkStep (Some (Selector "#late")) (IntroText "Later") None None None.

Definition silent (_ : JsVal) : JsVal := JUndefined.

(** Props with only the required callback. *)
Definition plain (en : bool) (init : Z) (st : Obj (list Step)) (o : Obj (gmap string OptVal)) : Props :=
  mkProps en init st o None silent None None None None None None.

(** Props whose before-change callback vetoes every change and which
    supply a prevent-change callback. *)
Definition vetoing (en : bool) (init : Z) (st : Obj (list Step)) (o : Obj (gmap string OptVal)) : Props :=
  mkProps en init st o (Some silent) silent None (Some (fun _ _ => JBool false))
          None None (Some silent) None.

Definition two_steps : Obj (list Step) := mkObj 1 [S0; S1].
Definition no_steps : Obj (list Step) := mkObj 2 [].
Definition three_steps : Obj (list Step) := mkObj 3 [S0; S1; S2].
Definition defaults : Obj (gmap string OptVal) := mkObj 10 {[ "showButtons" := OVal (JBool true) ]}.
Definition stale : Obj (gmap string OptVal) :=
  mkObj 11 {[ "steps" := OSteps [S2]; "showButtons" := OVal (JBool false) ]}.


Definition greeting : Props :=
  mkProps true 1 two_steps defaults (Some silent) silent None None None None None None.

(** Mounted and showing step 0 of two, then handed other props. *)
Definition showing (p : Props) : World :=
  with_props p (mount false (plain true 0 two_steps defaults) page).

(** Constructed and configured, not yet started. *)
Definition configured (p : Props) : World :=
  world_of (configureIntroJs (constructor false p page)).

End Sample.

(** ** Properties *)

Section Properties.

Context {carriers : Carriers} {collaborators : Collaborators}.

(** *** Reading the log *)

Lemma vis_of_app v d1 d2 : vis_of v (d1 ++ d2) = vis_of (vis_of v d1) d2.
Proof. apply fold_left_app. Qed.

Lemma started_of_app s d1 d2 :
  started_of s (d1 ++ d2) = started_of (started_of s d1) d2.
Proof. apply fold_left_app. Qed.

Lemma issued_of_app s d1 d2 :
  issued_of s (d1 ++ d2) = issued_of (issued_of s d1) d2.
Proof. apply fold_left_app. Qed.

Lemma consistent_app v s d1 d2 :
  consistent v s (d1 ++ d2) <->
  consistent v s d1 /\ consistent (vis_of v d1) (started_of s d1) d2.
Proof.
  revert v s. induction d1 as [|a d1 IH]; intros v s; simpl.
  - tauto.
  - rewrite IH. tauto.
Qed.

(** The relay never sets the flag. *)
Lemma relay_made_keeps_hidden d :
  Forall (fun a => relay_made a = true) d -> vis_of false d = false.
Proof.
  induction 1 as [|a d Ha _ IH]; [reflexivity|].
  destruct a as [| | | | |[]|]; simpl in *; try discriminate; exact IH.
Qed.

Lemma relay_made_no_setOptions d :
  Forall (fun a => relay_made a = true) d -> configure_runs d = 0.
Proof.
  induction 1 as [|a d Ha _ IH]; [reflexivity|].
  destruct a as [| | | | |[]|]; simpl in *; try discriminate; exact IH.
Qed.

(** *** The event relay *)

Lemma relayed_refl w : is_Some (introJs w) -> relayed w [] w.
Proof.
  intros He. split; simpl; auto.
  by rewrite app_nil_r.
Qed.

Lemma relayed_trans w1 d1 w2 d2 w3 :
  relayed w1 d1 w2 -> relayed w2 d2 w3 -> relayed w1 (d1 ++ d2) w3.
Proof.
  intros [L1 M1 P1 C1 D1 E1 V1 K1 S1] [L2 M2 P2 C2 D2 E2 V2 K2 S2].
  split.
  - by rewrite L2, L1, app_assoc.
  - by apply Forall_app.
  - congruence.
  - congruence.
  - congruence.
  - exact E2.
  - by rewrite V2, V1, vis_of_app.
  - apply consistent_app. split; [exact K1|].
    rewrite S1, <- V1. exact K2.
  - rewrite started_of_app, vis_of_app, S1, <- V1. exact S2.
Qed.

Ltac relayed_here :=
  do 3 eexists; (split; [reflexivity|]);
  split;
    [ simpl; rewrite <- ?app_assoc; simpl;
      first [reflexivity | symmetry; apply app_nil_r]
    | simpl; repeat constructor
    | reflexivity | reflexivity | reflexivity
    | simpl; eauto
    | simpl; try reflexivity
    | simpl; repeat split; intros; first [discriminate | reflexivity]
    | simpl; try reflexivity ].

(** Each handler returns, and what it did is a stretch of relay. *)
Lemma relay_relayed ev w :
  is_Some (introJs w) ->
  exists v w' d, relay ev w = Ret v w' /\ relayed w d w'.
Proof.
  intros [e He].
  destruct ev as [| |el|el|el|]; unfold relay, bind, emit; simpl.
  - unfold handle_onExit, bind, write_isVisible, currentStep, emit, ret; simpl.
    rewrite He. relayed_here.
  - unfold handle_onBeforeExit, bind, currentStep, emit, ret; simpl.
    destruct (onBeforeExit (props w)); simpl; rewrite ?He; relayed_here.
  - unfold handle_onBeforeChange, bind, currentStep, emit, ret, setTimeout; simpl.
    destruct (isVisible w) eqn:Hv; simpl; [|relayed_here; by rewrite Hv].
    destruct (onBeforeChange (props w)) as [f|]; simpl; rewrite ?He;
      [|relayed_here; by rewrite Hv].
    destruct (strict_false (f (_currentStep e) el));
      [destruct (onPreventChange (props w))|]; simpl;
      relayed_here; by rewrite Hv.
  - unfold handle_onAfterChange, bind, currentStep, emit, ret; simpl.
    destruct (isVisible w) eqn:Hv; simpl;
      [destruct (onAfterChange (props w)); simpl; rewrite ?He|];
      relayed_here; by rewrite Hv.
  - unfold handle_onChange, bind, currentStep, emit, ret; simpl.
    destruct (isVisible w) eqn:Hv; simpl;
      [destruct (onChange (props w)); simpl; rewrite ?He|];
      relayed_here; by rewrite Hv.
  - unfold handle_onComplete, bind, emit, ret; simpl.
    destruct (onComplete (props w)); simpl; relayed_here.
Qed.

(** *** Running the engine *)

Lemma engine_moves_relayed e w : relayed w [] (with_introJs (Some e) w).
Proof. split; simpl; eauto. by rewrite app_nil_r. Qed.

(** An engine method always returns, and everything that happened in the
    component meanwhile is a stretch of relay. *)
Lemma run_relayed r w :
  exists w' d, run r w = Ret tt w' /\ relayed w d w'.
Proof.
  revert w. induction r as [e|e ev k IH]; intros w.
  - exists (with_introJs (Some e) w), []. split; [reflexivity|].
    apply engine_moves_relayed.
  - simpl. unfold bind at 1. unfold engine_moves at 1.
    destruct (relay_relayed ev (with_introJs (Some e) w)) as (v & w1 & d1 & Hr & R1);
      [simpl; eauto|].
    unfold bind. rewrite Hr.
    destruct (IH v w1) as (w2 & d2 & Hk & R2).
    exists w2, (d1 ++ d2). split; [exact Hk|].
    apply (relayed_trans _ [] _ (d1 ++ d2) _ (engine_moves_relayed e w)).
    eapply relayed_trans; eassumption.
Qed.

(** While the flag is down, every handler finds it down. *)
Lemma sightings_hidden r w :
  isVisible w = false ->
  Forall (fun s => snd s = false) (sightings r w).
Proof.
  revert w. induction r as [e|e ev k IH]; intros w Hv; simpl.
  - constructor.
  - constructor; [exact Hv|].
    destruct (relay_relayed ev (with_introJs (Some e) w)) as (v & w1 & d1 & Hr & R1);
      [simpl; eauto|].
    rewrite Hr. apply IH.
    rewrite (rl_isVisible _ _ _ R1). simpl. rewrite Hv.
    apply relay_made_keeps_hidden, (rl_made _ _ _ R1).
Qed.

Lemma relays_app d1 d2 : relays (d1 ++ d2) = relays d1 ++ relays d2.
Proof. apply omap_app. Qed.

(** A handler's own entries follow the entry of its event and relay
    nothing themselves. *)
Lemma relay_log ev w :
  is_Some (introJs w) ->
  exists v w' d,
    relay ev w = Ret v w' /\ log w' = log w ++ Relay ev :: d /\ relays d = [].
Proof.
  intros [e He].
  destruct ev as [| |el|el|el|]; unfold relay, bind, emit; simpl.
  - unfold handle_onExit, bind, write_isVisible, currentStep, emit, ret; simpl.
    rewrite He. do 3 eexists. split; [reflexivity|]. simpl.
    rewrite <- !app_assoc. split; reflexivity.
  - unfold handle_onBeforeExit, bind, currentStep, emit, ret; simpl.
    destruct (onBeforeExit (props w)); simpl; rewrite ?He;
      do 3 eexists; (split; [reflexivity|]); simpl;
      rewrite <- ?app_assoc; split; reflexivity.
  - unfold handle_onBeforeChange, bind, currentStep, emit, ret, setTimeout; simpl.
    destruct (isVisible w); simpl;
      [destruct (onBeforeChange (props w)) as [f|]; simpl; rewrite ?He;
       [destruct (strict_false (f (_currentStep e) el));
        [destruct (onPreventChange (props w))|]|]|];
      simpl; do 3 eexists; (split; [reflexivity|]); simpl;
      rewrite <- ?app_assoc; split; reflexivity.
  - unfold handle_onAfterChange, bind, currentStep, emit, ret; simpl.
    destruct (isVisible w); simpl;
      [destruct (onAfterChange (props w)); simpl; rewrite ?He|];
      do 3 eexists; (split; [reflexivity|]); simpl;
      rewrite <- ?app_assoc; split; reflexivity.
  - unfold handle_onChange, bind, currentStep, emit, ret; simpl.
    destruct (isVisible w); simpl;
      [destruct (onChange (props w)); simpl; rewrite ?He|];
      do 3 eexists; (split; [reflexivity|]); simpl;
      rewrite <- ?app_assoc; split; reflexivity.
  - unfold handle_onComplete, bind, emit, ret; simpl.
    destruct (onComplete (props w)); simpl;
      do 3 eexists; (split; [reflexivity|]); simpl;
      rewrite <- ?app_assoc; split; reflexivity.
Qed.

(** The sightings of a run are the events its log relays. *)
Lemma run_sightings r w :
  exists w' d,
    run r w = Ret tt w' /\ log w' = log w ++ d /\
    relays d = map fst (sightings r w).
Proof.
  revert w. induction r as [e|e ev k IH]; intros w.
  - exists (with_introJs (Some e) w), []. simpl. by rewrite app_nil_r.
  - simpl. unfold bind at 1. unfold engine_moves at 1.
    destruct (relay_log ev (with_introJs (Some e) w)) as (v & w1 & d1 & Hr & L1 & N1);
      [simpl; eauto|].
    unfold bind. rewrite Hr.
    destruct (IH v w1) as (w2 & d2 & Hk & L2 & N2).
    exists w2, (Relay ev :: d1 ++ d2). split; [exact Hk|]. split.
    + rewrite L2, L1. simpl. by rewrite <- app_assoc.
    + change (relays (Relay ev :: d1 ++ d2)) with (ev :: relays (d1 ++ d2)).
      by rewrite relays_app, N1, N2.
Qed.

(** [this.introJs.method(...)] with the engine installed: the call is
    logged, the method runs to its end, the return is logged. *)
Lemma call_spec op method w e :
  introJs w = Some e ->
  exists w1 d,
    run (method e) (with_log (log w ++ [Call op]) w) = Ret tt w1 /\
    relayed (with_log (log w ++ [Call op]) w) d w1 /\
    call op method w = Ret tt (with_log (log w1 ++ [Return op]) w1).
Proof.
  intros He.
  destruct (run_relayed (method e) (with_log (log w ++ [Call op]) w)) as (w1 & d & Hr & R).
  exists w1, d. split; [exact Hr|]. split; [exact R|].
  unfold call. rewrite He. unfold bind, emit at 1. rewrite Hr. reflexivity.
Qed.

Lemma call_headless op method w :
  introJs w = None -> call op method w = Throw TypeError w.
Proof. intros He. unfold call. by rewrite He. Qed.

(** *** The visibility state machine *)

Lemma renderSteps_show w e :
  introJs w = Some e ->
  enabled (props w) = true ->
  val (steps (props w)) <> [] ->
  isVisible w = false ->
  let n := (initialStep (props w) + 1)%Z in
  exists w' e' d1 d2,
    renderSteps w = Ret tt w' /\
    introJs w' = Some e' /\
    Forall (fun a => relay_made a = true) d1 /\
    Forall (fun a => relay_made a = true) d2 /\
    isVisible w' = vis_of true d2 /\
    props w' = props w /\ isConfigured w' = isConfigured w /\
    consistent false false d1 /\ started_of false d1 = vis_of false d1 /\
    consistent true true d2 /\ started_of true d2 = vis_of true d2 /\
    log w' =
      log w ++ [Call OpStart] ++ d1 ++
      [Return OpStart; Write_isVisible true; Call (OpGoToStepNumber n)] ++ d2 ++
      [Return (OpGoToStepNumber n)] ++
      match onStart (props w) with
      | Some _ => [Consumer (CbStart (_currentStep e'))]
      | None => []
      end /\
    exists w1 e1 w2,
      run (eng_start e) (with_log (log w ++ [Call OpStart]) w) = Ret tt w1 /\
      introJs w1 = Some e1 /\
      run (eng_goToStepNumber n e1)
          (with_log (log w1 ++ [Return OpStart; Write_isVisible true;
                                Call (OpGoToStepNumber n)])
                    (with_isVisible true w1)) = Ret tt w2 /\
      introJs w2 = Some e'.
Proof.
  intros He Hen Hst Hv n.
  destruct (call_spec OpStart eng_start w e He) as (w1 & d1 & Hrun1 & R1 & C1).
  destruct (rl_introJs _ _ _ R1) as [e1 He1].
  set (wb := with_log ((log w1 ++ [Return OpStart]) ++ [Write_isVisible true])
               (with_isVisible true (with_log (log w1 ++ [Return OpStart]) w1))).
  destruct (call_spec (OpGoToStepNumber n) (eng_goToStepNumber n) wb e1 He1)
    as (w2 & d2 & Hrun2 & R2 & C2).
  assert (Hwb : with_log (log wb ++ [Call (OpGoToStepNumber n)]) wb =
                with_log (log w1 ++ [Return OpStart; Write_isVisible true;
                                     Call (OpGoToStepNumber n)])
                         (with_isVisible true w1)).
  { unfold wb, with_log, with_isVisible. simpl. by rewrite <- !app_assoc. }
  rewrite Hwb in Hrun2.
  destruct (rl_introJs _ _ _ R2) as [e2 He2].
  assert (Hp : props w2 = props w).
  { rewrite (rl_props _ _ _ R2). simpl. by rewrite (rl_props _ _ _ R1). }
  assert (Hc : isConfigured w2 = isConfigured w).
  { rewrite (rl_isConfigured _ _ _ R2). simpl. by rewrite (rl_isConfigured _ _ _ R1). }
  pose proof (rl_consistent _ _ _ R1) as K1. pose proof (rl_started _ _ _ R1) as S1.
  pose proof (rl_consistent _ _ _ R2) as K2. pose proof (rl_started _ _ _ R2) as S2.
  simpl in K1, S1, K2, S2. rewrite Hv in K1, S1.
  assert (Hl : log w2 ++ [Return (OpGoToStepNumber n)] =
               log w ++ [Call OpStart] ++ d1 ++
               [Return OpStart; Write_isVisible true; Call (OpGoToStepNumber n)] ++ d2 ++
               [Return (OpGoToStepNumber n)]).
  { rewrite (rl_log _ _ _ R2). simpl. rewrite (rl_log _ _ _ R1). simpl.
    by rewrite <- !app_assoc. }
  assert (Hcond : enabled (props w) && (0 <? length (val (steps (props w))))
                  && negb (isVisible w) = true).
  { rewrite Hen, Hv. destruct (val (steps (props w))); [done|reflexivity]. }
  unfold renderSteps. rewrite Hcond.
  unfold bind at 1. rewrite C1.
  unfold bind at 1. unfold write_isVisible at 1.
  unfold bind at 1.
  match goal with
  | |- context [call ?o ?m ?x] =>
      change (call o m x) with (call (OpGoToStepNumber n) (eng_goToStepNumber n) wb)
  end.
  rewrite C2.
  exists (match onStart (props w) with
          | Some _ => with_log ((log w2 ++ [Return (OpGoToStepNumber n)]) ++
                                [Consumer (CbStart (_currentStep e2))])
                               (with_log (log w2 ++ [Return (OpGoToStepNumber n)]) w2)
          | None => with_log (log w2 ++ [Return (OpGoToStepNumber n)]) w2
          end), e2, d1, d2.
  destruct (onStart (props w)) as [f|]; simpl.
  - unfold bind, currentStep, emit; simpl. rewrite He2.
    repeat split;
      first [ assumption | exact (rl_made _ _ _ R1) | exact (rl_made _ _ _ R2)
            | exact (rl_isVisible _ _ _ R2) | rewrite Hl; by rewrite <- !app_assoc
            | by exists w1, e1, w2 ].
  - repeat split;
      first [ assumption | exact (rl_made _ _ _ R1) | exact (rl_made _ _ _ R2)
            | exact (rl_isVisible _ _ _ R2) | rewrite Hl; by rewrite <- !app_assoc
            | by exists w1, e1, w2 ].
Qed.

(** C1. With [enabled] true, at least one step and the flag down,
    [renderSteps] calls the engine's start, then sets [isVisible] to
    true, then calls [goToStepNumber] with [initialStep + 1], and then,
    if [onStart] was supplied, calls it with the current step the engine
    is left with; in between, only the event relay writes to the log.
    The engine's start runs on the engine as it was, with the flag still
    down; [goToStepNumber] runs on the engine start left, with the flag
    up; [onStart] gets the current step of the engine [goToStepNumber]
    left. *)
Theorem renderSteps_starts_tour w e :
  introJs w = Some e ->
  enabled (props w) = true ->
  val (steps (props w)) <> [] ->
  isVisible w = false ->
  let n := (initialStep (props w) + 1)%Z in
  exists w' e' d1 d2,
    renderSteps w = Ret tt w' /\
    introJs w' = Some e' /\
    Forall (fun a => relay_made a = true) d1 /\
    Forall (fun a => relay_made a = true) d2 /\
    isVisible w' = vis_of true d2 /\
    log w' =
      log w ++ [Call OpStart] ++ d1 ++
      [Return OpStart; Write_isVisible true; Call (OpGoToStepNumber n)] ++ d2 ++
      [Return (OpGoToStepNumber n)] ++
      match onStart (props w) with
      | Some _ => [Consumer (CbStart (_currentStep e'))]
      | None => []
      end /\
    exists w1 e1 w2,
      run (eng_start e) (with_log (log w ++ [Call OpStart]) w) = Ret tt w1 /\
      introJs w1 = Some e1 /\
      run (eng_goToStepNumber n e1)
          (with_log (log w1 ++ [Return OpStart; Write_isVisible true;
                                Call (OpGoToStepNumber n)])
                    (with_isVisible true w1)) = Ret tt w2 /\
      introJs w2 = Some e'.
Proof.
  intros He Hen Hst Hv n.
  destruct (renderSteps_show w e He Hen Hst Hv)
    as (w' & e' & d1 & d2 & Hr & He' & M1 & M2 & Hv' & _ & _ & _ & _ & _ & _ & Hl & Hruns).
  exists w', e', d1, d2. repeat (split; [assumption|]). exact Hruns.
Qed.

Lemma renderSteps_hide w e :
  introJs w = Some e ->
  enabled (props w) = false ->
  isVisible w = true ->
  let at_exit :=
    with_log (log w ++ [Write_isVisible false; Call OpExit]) (with_isVisible false w) in
  exists w' d,
    renderSteps w = Ret tt w' /\
    run (eng_exit e) at_exit =
      Ret tt (with_log (log w ++ [Write_isVisible false; Call OpExit] ++ d) w') /\
    log w' = log w ++ [Write_isVisible false; Call OpExit] ++ d ++ [Return OpExit] /\
    Forall (fun a => relay_made a = true) d /\
    isVisible w' = false /\
    Forall (fun s => snd s = false) (sightings (eng_exit e) at_exit) /\
    relays d = map fst (sightings (eng_exit e) at_exit) /\
    is_Some (introJs w') /\ props w' = props w /\ isConfigured w' = isConfigured w /\
    consistent false false d /\ started_of false d = vis_of false d.
Proof.
  intros He Hen Hv at_exit.
  set (wa := with_log (log w ++ [Write_isVisible false]) (with_isVisible false w)).
  assert (Hat : with_log (log wa ++ [Call OpExit]) wa = at_exit).
  { unfold at_exit, wa, with_log, with_isVisible. simpl. by rewrite <- app_assoc. }
  destruct (call_spec OpExit eng_exit wa e He) as (w1 & d & Hr & R & C).
  rewrite Hat in Hr, R.
  assert (Hv1 : isVisible w1 = false).
  { rewrite (rl_isVisible _ _ _ R). simpl.
    apply relay_made_keeps_hidden, (rl_made _ _ _ R). }
  exists (with_log (log w1 ++ [Return OpExit]) w1), d.
  repeat apply conj.
  - unfold renderSteps. rewrite Hen, Hv. simpl.
    unfold bind, write_isVisible. fold wa. exact C.
  - rewrite Hr. f_equal. pose proof (rl_log _ _ _ R) as L.
    destruct w1; unfold with_log; simpl in *. by rewrite L, <- app_assoc.
  - simpl. rewrite (rl_log _ _ _ R). simpl. by rewrite <- !app_assoc.
  - exact (rl_made _ _ _ R).
  - exact Hv1.
  - by apply sightings_hidden.
  - destruct (run_sightings (eng_exit e) at_exit) as (w2 & d2 & Hr2 & L2 & N2).
    rewrite Hr in Hr2. injection Hr2 as <-.
    rewrite (rl_log _ _ _ R) in L2. apply app_inv_head in L2. by subst d2.
  - exact (rl_introJs _ _ _ R).
  - exact (rl_props _ _ _ R).
  - exact (rl_isConfigured _ _ _ R).
  - exact (rl_consistent _ _ _ R).
  - exact (rl_started _ _ _ R).
Qed.

(** C4. With [enabled] false and the flag up, [renderSteps] first writes
    [isVisible = false] and only then calls the engine's exit; every
    handler the engine fires during that exit (the events relayed in [d]),
    the exit handler among them, finds the flag already down. *)
Theorem renderSteps_hides_tour w e :
  introJs w = Some e ->
  enabled (props w) = false ->
  isVisible w = true ->
  let at_exit :=
    with_log (log w ++ [Write_isVisible false; Call OpExit]) (with_isVisible false w) in
  exists w' d,
    renderSteps w = Ret tt w' /\
    run (eng_exit e) at_exit =
      Ret tt (with_log (log w ++ [Write_isVisible false; Call OpExit] ++ d) w') /\
    log w' = log w ++ [Write_isVisible false; Call OpExit] ++ d ++ [Return OpExit] /\
    Forall (fun a => relay_made a = true) d /\
    isVisible w' = false /\
    relays d = map fst (sightings (eng_exit e) at_exit) /\
    Forall (fun s => snd s = false) (sightings (eng_exit e) at_exit).
Proof.
  intros He Hen Hv at_exit.
  destruct (renderSteps_hide w e He Hen Hv)
    as (w' & d & Hr & Hrun & Hl & Hm & Hv' & Hs & Hrel & _).
  exists w', d. repeat (split; [assumption|]). exact Hs.
Qed.

(** *** The visibility gate *)

(** C3. While [isVisible] is false the before-change handler returns
    [true] and the after-change and change handlers return, all three
    leaving the world as it was, so without a call of the consumer's
    callback.  The exit handler, whatever the flag was, writes
    [isVisible = false] and then calls the consumer's [onExit] with the
    engine's current step. *)
Theorem hidden_tour_absorbs_changes w e el :
  introJs w = Some e ->
  (isVisible w = false ->
   handler (EvBeforeChange el) w = Ret (JBool true) w /\
   handler (EvAfterChange el) w = Ret JUndefined w /\
   handler (EvChange el) w = Ret JUndefined w) /\
  exists w',
    handler EvExit w = Ret JUndefined w' /\
    isVisible w' = false /\
    log w' = log w ++ [Write_isVisible false; Consumer (CbExit (_currentStep e))] /\
    introJs w' = introJs w /\ isConfigured w' = isConfigured w /\
    props w' = props w /\ timers w' = timers w.
Proof.
  intros He. split.
  - intros Hv. simpl.
    unfold handle_onBeforeChange, handle_onAfterChange, handle_onChange.
    by rewrite Hv.
  - simpl. unfold handle_onExit, bind, write_isVisible, currentStep, emit, ret.
    simpl. rewrite He. eexists. split; [reflexivity|]. simpl.
    by rewrite <- app_assoc.
Qed.

(** *** Deferred prevent-change *)

(** When a timer fires, its closure reads the engine as it is then. *)
Lemma fire_spec t w e :
  introJs w = Some e ->
  fire t w = Ret tt (with_log (log w ++ [Consumer (CbPreventChange (_currentStep e))]) w).
Proof. intros He. unfold fire, bind, currentStep, emit. by rewrite He. Qed.

(** The timers fire in the order in which they were set. *)
Lemma ticks_spec ts1 ts2 w e :
  introJs w = Some e ->
  timers w = ts1 ++ ts2 ->
  execs (replicate (length ts1) Tick) w =
  with_timers ts2
    (with_log (log w ++ map (fun _ => Consumer (CbPreventChange (_currentStep e))) ts1) w).
Proof.
  revert w. induction ts1 as [|t ts1 IH]; intros w He Ht; simpl in *.
  - destruct w; unfold with_timers, with_log; simpl in *. by rewrite Ht, app_nil_r.
  - rewrite Ht, (fire_spec t (with_timers (ts1 ++ ts2) w) e He). simpl.
    rewrite IH by (simpl; done). unfold with_timers, with_log; simpl.
    by rewrite <- app_assoc.
Qed.

(** C5. The tour is visible, the engine attempts a change, the consumer's
    [onBeforeChange] answers exactly [false] and [onPreventChange] is
    supplied.  Then the before-change handler returns that [false] to the
    engine; within the call only [onBeforeChange] is called and a timer
    is set behind those already pending; and when, on a later turn, that
    timer fires, [onPreventChange] is called with the engine's current
    step as it is then (as whenever a timer fires): the step at which
    the refused engine was left.  That is the step from before the
    attempt exactly if the engine, being refused, went back to it. *)
Theorem vetoed_change_defers_onPreventChange w e act e_mid el k e_back f g :
  introJs w = Some e ->
  isVisible w = true ->
  onBeforeChange (props w) = Some f ->
  onPreventChange (props w) = Some g ->
  act e = Fire e_mid (EvBeforeChange el) k ->
  f (_currentStep e_mid) el = JBool false ->
  k (JBool false) = Done e_back ->
  let during := with_introJs (Some e_mid) w in
  let w1 := world_of (exec (EngineActs act) w) in
  let w2 := execs (replicate (length (timers w)) Tick) w1 in
  let w3 := world_of (exec Tick w2) in
  (exists w', handler (EvBeforeChange el) during = Ret (JBool false) w' /\
              log w' = log w ++ [Consumer (CbBeforeChange (_currentStep e_mid) el); SetTimeout] /\
              timers w' = timers w ++ [mkTask g]) /\
  log w1 = log w ++ [Relay (EvBeforeChange el);
                     Consumer (CbBeforeChange (_currentStep e_mid) el); SetTimeout] /\
  timers w1 = timers w ++ [mkTask g] /\
  introJs w1 = Some e_back /\
  timers w2 = [mkTask g] /\
  introJs w2 = Some e_back /\
  log w3 = log w2 ++ [Consumer (CbPreventChange (_currentStep e_back))] /\
  timers w3 = [] /\
  (log w3 = log w2 ++ [Consumer (CbPreventChange (_currentStep e))] <->
   _currentStep e_back = _currentStep e) /\
  (forall w' e' t ts,
     introJs w' = Some e' -> timers w' = t :: ts ->
     log (world_of (exec Tick w')) = log w' ++ [Consumer (CbPreventChange (_currentStep e'))]).
Proof.
  intros He Hv Hf Hg Hact Hveto Hk during w1 w2 w3.
  assert (Hh : handler (EvBeforeChange el) during =
               Ret (JBool false)
                   (with_log ((log w ++ [Consumer (CbBeforeChange (_currentStep e_mid) el)])
                              ++ [SetTimeout])
                      (with_timers (timers w ++ [mkTask g])
                         (with_log (log w ++ [Consumer (CbBeforeChange (_currentStep e_mid) el)])
                            during)))).
  { simpl. unfold handle_onBeforeChange, during. simpl. rewrite Hv, Hf, Hg. simpl.
    unfold bind, currentStep, emit. simpl. rewrite Hveto. reflexivity. }
  split.
  { eexists. split; [exact Hh|]. simpl. by rewrite <- app_assoc. }
  assert (H1 : exec (EngineActs act) w =
               Ret tt (with_introJs (Some e_back)
                 (with_log (((log w ++ [Relay (EvBeforeChange el)])
                             ++ [Consumer (CbBeforeChange (_currentStep e_mid) el)])
                            ++ [SetTimeout])
                    (with_timers (timers w ++ [mkTask g]) during)))).
  { simpl. rewrite He, Hact. simpl.
    unfold bind, engine_moves, relay, emit, bind. simpl.
    unfold handle_onBeforeChange. simpl. rewrite Hv, Hf, Hg. simpl.
    unfold bind, currentStep, emit. simpl. rewrite Hveto. simpl.
    unfold setTimeout, ret. simpl. rewrite Hk. reflexivity. }
  assert (L1 : log w1 = log w ++ [Relay (EvBeforeChange el);
                 Consumer (CbBeforeChange (_currentStep e_mid) el); SetTimeout]).
  { subst w1. rewrite H1. simpl. by rewrite <- !app_assoc. }
  assert (T1 : timers w1 = timers w ++ [mkTask g]) by (subst w1; by rewrite H1).
  assert (E1 : introJs w1 = Some e_back) by (subst w1; by rewrite H1).
  assert (H2 : w2 = with_timers [mkTask g]
                      (with_log (log w1 ++ map (fun _ => Consumer
                                   (CbPreventChange (_currentStep e_back))) (timers w)) w1)).
  { subst w2. by apply ticks_spec. }
  split; [exact L1|]. split; [exact T1|]. split; [exact E1|].
  split; [by rewrite H2|].
  split; [by rewrite H2|].
  assert (L3 : log w3 = log w2 ++ [Consumer (CbPreventChange (_currentStep e_back))]).
  { subst w3. rewrite H2. simpl.
    by rewrite (fire_spec _ _ e_back) by exact E1. }
  assert (T3 : timers w3 = []).
  { subst w3. rewrite H2. simpl.
    by rewrite (fire_spec _ _ e_back) by exact E1. }
  split; [exact L3|]. split; [exact T3|]. split.
  - rewrite L3. split.
    + intros Heq. apply app_inv_head in Heq. by injection Heq.
    + intros Hback. by rewrite Hback.
  - intros w' e' t ts He' Ht'. simpl. rewrite Ht'.
    by rewrite (fire_spec _ _ e') by exact He'.
Qed.

(** *** Configuration sync *)

Lemma sanitize_element r s :
  intro s = IntroElement r ->
  sanitize s = mkStep (element s) (IntroText (renderToStaticMarkup r))
                      (position s) (tooltipClass s) (highlightClass s).
Proof. intros Hi. unfold sanitize. by rewrite Hi. Qed.

Lemma sanitize_other s : isValidElement (intro s) = false -> sanitize s = s.
Proof. unfold sanitize. by destruct (intro s). Qed.

(** C8. [configureIntroJs] hands the engine the options with [steps]
    set to the sanitized steps: a step whose [intro] is a React element
    gets the static markup of that element in its place and keeps its
    other fields, any other step (one with a string among them) is passed
    on as it is; the [steps] key of the merged object is the sanitized
    array whatever [options] held there, every other key is as in
    [options]; the engine's [setOptions] runs on that merged object; and
    [isConfigured] is set to true after it has returned. *)
Theorem configureIntroJs_spec w e :
  introJs w = Some e ->
  let given := val (steps (props w)) in
  let sanitizedSteps := map sanitize given in
  let merged := merged_options (val (options (props w))) sanitizedSteps in
  length sanitizedSteps = length given /\
  (forall i s, given !! i = Some s ->
     exists s', sanitizedSteps !! i = Some s' /\
       element s' = element s /\ position s' = position s /\
       tooltipClass s' = tooltipClass s /\ highlightClass s' = highlightClass s /\
       (forall r, intro s = IntroElement r ->
                  intro s' = IntroText (renderToStaticMarkup r)) /\
       (isValidElement (intro s) = false -> s' = s) /\
       (forall text, intro s = IntroText text -> s' = s)) /\
  merged !! "steps" = Some (OSteps sanitizedSteps) /\
  (forall key, key <> "steps" -> merged !! key = val (options (props w)) !! key) /\
  exists w1 w' d,
    run (eng_setOptions merged e) (with_log (log w ++ [Call (OpSetOptions merged)]) w)
      = Ret tt w1 /\
    configureIntroJs w = Ret tt w' /\
    introJs w' = introJs w1 /\
    Forall (fun a => relay_made a = true) d /\
    log w' = log w ++ [Call (OpSetOptions merged)] ++ d ++
             [Return (OpSetOptions merged); Write_isConfigured true] /\
    isConfigured w' = true.
Proof.
  intros He given sanitizedSteps merged.
  split; [apply length_map|].
  split.
  { intros i s Hi. exists (sanitize s). split.
    - unfold sanitizedSteps. by rewrite list_lookup_fmap, Hi.
    - unfold sanitize. destruct (intro s) eqn:Hin; simpl;
        repeat split; try reflexivity; intros; congruence. }
  split; [apply lookup_insert_eq|].
  split; [intros key Hk; by apply lookup_insert_ne|].
  destruct (call_spec (OpSetOptions merged) (eng_setOptions merged) w e He)
    as (w1 & d & Hrun & R & C).
  exists w1,
    (with_log ((log w1 ++ [Return (OpSetOptions merged)]) ++ [Write_isConfigured true])
       (with_isConfigured true (with_log (log w1 ++ [Return (OpSetOptions merged)]) w1))), d.
  split; [exact Hrun|].
  split.
  { unfold configureIntroJs. fold given. fold sanitizedSteps. fold merged.
    unfold bind. rewrite C. reflexivity. }
  split; [reflexivity|].
  split; [exact (rl_made _ _ _ R)|].
  split; [|reflexivity].
  simpl. rewrite (rl_log _ _ _ R). simpl. by rewrite <- !app_assoc.
Qed.

(** *** The element re-binder *)

(** C9. For an index that has a step in the engine's options:
    [updateStepElement] queries the document with that step's [element];
    when an element is found and the engine has an intro item at the
    index, the item gets the found element and the step's position, or
    ['auto'] when the step has none, and nothing else changes; when none
    is found the operation returns with the world untouched and nothing
    logged. *)
Theorem updateStepElement_spec w e l cfg i :
  introJs w = Some e ->
  _options e !! "steps" = Some (OSteps l) ->
  l !! i = Some cfg ->
  (forall el old,
     document w (element cfg) = QElem el ->
     _introItems e !! i = Some old ->
     exists pos,
       updateStepElement i w =
       Ret tt (with_introJs
                 (Some (mkEngine (_currentStep e) (_options e)
                          (<[i := mkItem (Some el) (Some pos) (item_rest old)]> (_introItems e))
                          (hidden e))) w) /\
       (position cfg = None -> pos = "auto"%string) /\
       (forall p, position cfg = Some p -> p <> ""%string -> pos = p)) /\
  (document w (element cfg) = QNull -> updateStepElement i w = Ret tt w).
Proof.
  intros He Ho Hi.
  assert (Hs : options_step (_options e) i = AStep cfg).
  { unfold options_step. by rewrite Ho, Hi. }
  split.
  - intros el old Hq Hitem. exists (or_auto (position cfg)).
    split; [|split].
    + unfold updateStepElement. by rewrite He, Hs, Hq, Hitem.
    + by intros ->.
    + intros p -> Hp. simpl. destruct (String.eqb_spec p ""); [done|reflexivity].
  - intros Hq. unfold updateStepElement. by rewrite He, Hs, Hq.
Qed.

(** *** Properties kept by every operation *)

Lemma preserves_ret {A} P (a : A) : preserves P (ret a).
Proof. intros w Hw. exact Hw. Qed.

Lemma preserves_bind {A B} P (m : M A) (f : A -> M B) :
  preserves P m -> (forall a, preserves P (f a)) -> preserves P (bind m f).
Proof.
  intros Hm Hf w Hw. unfold bind. specialize (Hm w Hw).
  destruct (m w) as [a w1|err w1]; simpl in *; [by apply Hf|exact Hm].
Qed.

Lemma preserves_emit P a :
  stable P -> is_start a = false -> preserves P (emit a).
Proof. intros St Ha w Hw. by apply (stable_log P St). Qed.

Lemma preserves_write_isVisible P b : stable P -> preserves P (write_isVisible b).
Proof.
  intros St w Hw. unfold write_isVisible. simpl.
  apply (stable_log P St (with_isVisible b w)); [reflexivity|].
  by apply stable_isVisible.
Qed.

Lemma preserves_write_isConfigured P : stable P -> preserves P (write_isConfigured true).
Proof.
  intros St w Hw. unfold write_isConfigured. simpl.
  apply (stable_log P St (with_isConfigured true w)); [reflexivity|].
  by apply stable_isConfigured.
Qed.

Lemma preserves_currentStep P : preserves P currentStep.
Proof. intros w Hw. unfold currentStep. by destruct (introJs w). Qed.

Lemma preserves_run P r : stable P -> preserves P (run r).
Proof.
  intros St w Hw. destruct (run_relayed r w) as (w' & d & Hr & R).
  rewrite Hr. simpl. exact (stable_relayed P St _ _ _ R Hw).
Qed.

Lemma preserves_call P op method :
  stable P -> is_start (Call op) = false -> preserves P (call op method).
Proof.
  intros St Hop w Hw. unfold call. destruct (introJs w) as [e|]; [|exact Hw].
  revert w Hw. change (preserves P (emit (Call op) >> run (method e) >> emit (Return op))).
  apply preserves_bind; [by apply preserves_emit|intros _].
  apply preserves_bind; [by apply preserves_run|intros _].
  by apply preserves_emit.
Qed.

Lemma preserves_configureIntroJs P : stable P -> preserves P configureIntroJs.
Proof.
  intros St w Hw. unfold configureIntroJs. cbv zeta.
  set (o := merged_options _ _). clearbody o. revert w Hw.
  change (preserves P (call (OpSetOptions o) (eng_setOptions o) >> write_isConfigured true)).
  apply preserves_bind; [by apply preserves_call|intros _].
  by apply preserves_write_isConfigured.
Qed.

(** [renderSteps] keeps a stable property that survives the one call of
    start it can make. *)
Lemma preserves_renderSteps P :
  stable P ->
  (forall w, P w -> val (steps (props w)) <> [] ->
             P (with_log (log w ++ [Call OpStart]) w)) ->
  preserves P renderSteps.
Proof.
  intros St Hstart w Hw. unfold renderSteps.
  destruct (enabled (props w) && (0 <? length (val (steps (props w))))
            && negb (isVisible w)) eqn:Hc.
  - assert (Hne : val (steps (props w)) <> []).
    { intros Hnil. rewrite Hnil in Hc. simpl in Hc.
      by rewrite andb_false_r in Hc. }
    unfold call at 1. unfold bind at 1.
    destruct (introJs w) as [e|] eqn:He; [|exact Hw].
    specialize (Hstart w Hw Hne).
    unfold bind at 1. unfold emit at 1.
    revert Hstart. generalize (with_log (log w ++ [Call OpStart]) w) as w0.
    generalize (props w) as p. intros p.
    change (preserves P
      ((run (eng_start e) >> emit (Return OpStart)) >>
       write_isVisible true >>
       call (OpGoToStepNumber (initialStep p + 1)) (eng_goToStepNumber (initialStep p + 1)) >>
       match onStart p with
       | Some _ => let* i := currentStep in emit (Consumer (CbStart i))
       | None => ret tt
       end)).
    apply preserves_bind; [|intros _].
    { apply preserves_bind; [by apply preserves_run|intros _]. by apply preserves_emit. }
    apply preserves_bind; [by apply preserves_write_isVisible|intros _].
    apply preserves_bind; [by apply preserves_call|intros _].
    destruct (onStart p); [|apply preserves_ret].
    apply preserves_bind; [apply preserves_currentStep|intros i].
    by apply preserves_emit.
  - destruct (negb (enabled (props w)) && isVisible w); [|exact Hw].
    revert w Hw Hc. intros w Hw _. revert w Hw.
    change (preserves P (write_isVisible false >> call OpExit eng_exit)).
    apply preserves_bind; [by apply preserves_write_isVisible|intros _].
    by apply preserves_call.
Qed.

Lemma preserves_componentDidMount P :
  stable P ->
  (forall w, P w -> val (steps (props w)) <> [] ->
             P (with_log (log w ++ [Call OpStart]) w)) ->
  preserves P componentDidMount.
Proof.
  intros St Hstart w Hw. unfold componentDidMount.
  destruct (enabled (props w)); [|exact Hw].
  revert w Hw. change (preserves P (configureIntroJs >> renderSteps)).
  apply preserves_bind; [by apply preserves_configureIntroJs|intros _].
  by apply preserves_renderSteps.
Qed.

Lemma preserves_componentDidUpdate P prevProps :
  stable P ->
  (forall w, P w -> val (steps (props w)) <> [] ->
             P (with_log (log w ++ [Call OpStart]) w)) ->
  preserves P (componentDidUpdate prevProps).
Proof.
  intros St Hstart w Hw. unfold componentDidUpdate. cbv zeta.
  set (c1 := negb (isConfigured w) || _ || _).
  set (c2 := negb (eqb _ _)). clearbody c1 c2. revert w Hw.
  change (preserves P
    ((if c1 then configureIntroJs >> renderSteps else ret tt) >>
     (if c2 then renderSteps else ret tt))).
  apply preserves_bind; [|intros _].
  - destruct c1; [|apply preserves_ret].
    apply preserves_bind; [by apply preserves_configureIntroJs|intros _].
    by apply preserves_renderSteps.
  - destruct c2; [|apply preserves_ret]. by apply preserves_renderSteps.
Qed.

Lemma preserves_fire P t : stable P -> preserves P (fire t).
Proof.
  intros St.
  apply preserves_bind; [apply preserves_currentStep|intros i].
  by apply preserves_emit.
Qed.

Lemma preserves_updateStepElement P i : stable P -> preserves P (updateStepElement i).
Proof.
  intros St w Hw. unfold updateStepElement.
  destruct (introJs w) as [e|]; [|exact Hw].
  destruct (options_step (_options e) i);
    try exact Hw;
    (destruct (document w _); try exact Hw;
     destruct (_introItems e !! i); try exact Hw;
     simpl; by apply stable_introJs).
Qed.

(** Every operation on a mounted component keeps a stable property that
    survives a call of start where one can be made and the arrival of
    the new props. *)
Lemma preserves_exec P op :
  stable P ->
  (forall w, P w -> val (steps (props w)) <> [] ->
             P (with_log (log w ++ [Call OpStart]) w)) ->
  (forall w p, op = Update p -> P w -> P (with_props p w)) ->
  preserves P (exec op).
Proof.
  intros St Hstart Hprops w Hw. destruct op as [p|act| |i|d|]; simpl.
  - apply preserves_componentDidUpdate; auto.
  - destruct (introJs w); [|exact Hw]. by apply preserves_run.
  - destruct (timers w) as [|t ts]; [exact Hw|].
    apply preserves_fire; [done|]. by apply stable_timers.
  - by apply preserves_updateStepElement.
  - by apply stable_document.
  - unfold componentWillUnmount. by apply preserves_call.
Qed.

(** *** The configured flag *)

Lemma stable_isConfigured_true : stable (fun w => isConfigured w = true).
Proof.
  split; try (intros; simpl; assumption); try reflexivity.
  intros w d w' R Hw. by rewrite (rl_isConfigured _ _ _ R).
Qed.

Lemma componentDidUpdate_engine_free prevProps w :
  isConfigured w = true ->
  ref_neq (steps prevProps) (steps (props w)) = false ->
  ref_neq (options prevProps) (options (props w)) = false ->
  componentDidUpdate prevProps w =
  (if negb (eqb (enabled prevProps) (enabled (props w))) then renderSteps w else Ret tt w).
Proof.
  intros Hc Hs Ho. unfold componentDidUpdate. rewrite Hc, Hs, Ho. simpl.
  unfold bind, ret. by destruct (negb _).
Qed.

(** *** Operations with the engine installed *)

Lemma stepped_refl w : is_Some (introJs w) -> stepped w [] w.
Proof. intros He. split; simpl; auto. by rewrite app_nil_r. Qed.

Lemma stepped_trans w1 d1 w2 d2 w3 :
  stepped w1 d1 w2 -> stepped w2 d2 w3 -> stepped w1 (d1 ++ d2) w3.
Proof.
  intros [L1 E1 V1 K1 S1] [L2 E2 V2 K2 S2]. split.
  - by rewrite L2, L1, app_assoc.
  - exact E2.
  - by rewrite V2, V1, vis_of_app.
  - apply consistent_app. split; [exact K1|]. rewrite S1, <- V1. exact K2.
  - rewrite started_of_app, vis_of_app, S1, <- V1. exact S2.
Qed.

Lemma relayed_stepped w d w' : relayed w d w' -> stepped w d w'.
Proof. intros [L M P C D E V K S]. by split. Qed.

(** An entry that touches neither the flag nor the start status. *)
Lemma stepped_emit w a :
  is_Some (introJs w) ->
  (forall b, vis_step b a = b /\ started_step b a = b) ->
  stepped w [a] (with_log (log w ++ [a]) w).
Proof.
  intros He Ha. destruct (Ha (isVisible w)) as [Hv Hs].
  split; simpl; auto.
  - by rewrite Hv, Hs.
  - by rewrite Hs, Hv.
Qed.

Lemma configure_runs_app d1 d2 :
  configure_runs (d1 ++ d2) = configure_runs d1 + configure_runs d2.
Proof. unfold configure_runs. by rewrite filter_app, length_app. Qed.

Lemma starts_app d1 d2 : starts (d1 ++ d2) = starts d1 + starts d2.
Proof. unfold starts. by rewrite filter_app, length_app. Qed.

Lemma relay_made_no_start d :
  Forall (fun a => relay_made a = true) d -> starts d = 0.
Proof.
  induction 1 as [|a d Ha _ IH]; [reflexivity|].
  destruct a as [| | | | |[]|]; simpl in *; try discriminate; exact IH.
Qed.

Lemma configureIntroJs_summary w :
  is_Some (introJs w) ->
  exists w' d,
    configureIntroJs w = Ret tt w' /\ stepped w d w' /\
    configure_runs d = 1 /\ props w' = props w /\ isConfigured w' = true.
Proof.
  intros [e He]. unfold configureIntroJs. cbv zeta.
  set (o := merged_options _ _).
  destruct (call_spec (OpSetOptions o) (eng_setOptions o) w e He) as (w1 & d & _ & R & C).
  unfold bind. rewrite C. unfold write_isConfigured.
  eexists _, ([Call (OpSetOptions o)] ++ d ++ [Return (OpSetOptions o); Write_isConfigured true]).
  split; [reflexivity|].
  split; [|split; [|split]].
  - eapply stepped_trans; [apply (stepped_emit w (Call (OpSetOptions o))); eauto|].
    eapply stepped_trans; [apply relayed_stepped, R|].
    pose proof (rl_introJs _ _ _ R) as E1.
    split; simpl; auto. by rewrite <- app_assoc.
  - rewrite !configure_runs_app, (relay_made_no_setOptions d (rl_made _ _ _ R)).
    reflexivity.
  - simpl. exact (rl_props _ _ _ R).
  - reflexivity.
Qed.

Lemma renderSteps_summary w :
  is_Some (introJs w) ->
  exists w' d,
    renderSteps w = Ret tt w' /\ stepped w d w' /\
    configure_runs d = 0 /\ props w' = props w /\ isConfigured w' = isConfigured w.
Proof.
  intros [e He].
  destruct (enabled (props w)) eqn:Hen; destruct (isVisible w) eqn:Hv;
    destruct (val (steps (props w))) as [|s0 ss] eqn:Hst.
  all: try (exists w, []; split;
            [unfold renderSteps; by rewrite Hen, Hv, Hst|];
            split; [apply stepped_refl; eauto|]; by repeat split).
  - (* enabled, hidden, at least one step: the tour starts *)
    destruct (renderSteps_show w e He Hen) as
      (w' & e' & d1 & d2 & Hr & He' & M1 & M2 & Hv' & Hp & Hc & K1 & S1 & K2 & S2 & Hl & _);
      [by rewrite Hst|exact Hv|].
    pose proof (relay_made_keeps_hidden d1 M1) as H1.
    eexists w', _. split; [exact Hr|].
    split; [|split; [|split]]; [|  |exact Hp|exact Hc].
    + split.
      * exact Hl.
      * eauto.
      * rewrite Hv', Hv.
        repeat first [rewrite vis_of_app | rewrite H1 | progress simpl].
        by destruct (onStart (props w)).
      * rewrite Hv. simpl. split; [done|].
        apply consistent_app. split; [exact K1|].
        rewrite S1, H1. simpl.
        split; [done|]. split; [done|]. split; [done|].
        apply consistent_app. split; [exact K2|].
        rewrite S2. simpl. split; [done|].
        destruct (onStart (props w)); simpl; auto.
      * rewrite Hv.
        repeat first [rewrite vis_of_app | rewrite started_of_app | rewrite S1
                     | rewrite S2 | rewrite H1 | progress simpl].
        by destruct (onStart (props w)).
    + repeat first [rewrite configure_runs_app
                   | rewrite (relay_made_no_setOptions d1 M1)
                   | rewrite (relay_made_no_setOptions d2 M2) | progress simpl].
      by destruct (onStart (props w)).
  - (* disabled, visible, no steps: the tour is hidden *)
    destruct (renderSteps_hide w e He Hen Hv) as
      (w' & d & Hr & _ & Hl & Hm & Hv' & _ & _ & He' & Hp & Hc & K & S).
    pose proof (relay_made_keeps_hidden d Hm) as H1.
    eexists w', _. split; [exact Hr|].
    split; [|split; [|split]]; [|  |exact Hp|exact Hc].
    + split; [exact Hl|exact He'| | |].
      * rewrite Hv', Hv.
        repeat first [rewrite vis_of_app | rewrite H1 | progress simpl]. done.
      * rewrite Hv. simpl. split; [done|]. split; [done|].
        apply consistent_app. split; [exact K|]. simpl. done.
      * rewrite Hv.
        repeat first [rewrite vis_of_app | rewrite started_of_app | rewrite S
                     | rewrite H1 | progress simpl]. done.
    + repeat first [rewrite configure_runs_app
                   | rewrite (relay_made_no_setOptions d Hm) | progress simpl]. done.
  - (* disabled, visible, some steps: the tour is hidden *)
    destruct (renderSteps_hide w e He Hen Hv) as
      (w' & d & Hr & _ & Hl & Hm & Hv' & _ & _ & He' & Hp & Hc & K & S).
    pose proof (relay_made_keeps_hidden d Hm) as H1.
    eexists w', _. split; [exact Hr|].
    split; [|split; [|split]]; [|  |exact Hp|exact Hc].
    + split; [exact Hl|exact He'| | |].
      * rewrite Hv', Hv.
        repeat first [rewrite vis_of_app | rewrite H1 | progress simpl]. done.
      * rewrite Hv. simpl. split; [done|]. split; [done|].
        apply consistent_app. split; [exact K|]. simpl. done.
      * rewrite Hv.
        repeat first [rewrite vis_of_app | rewrite started_of_app | rewrite S
                     | rewrite H1 | progress simpl]. done.
    + repeat first [rewrite configure_runs_app
                   | rewrite (relay_made_no_setOptions d Hm) | progress simpl]. done.
Qed.

Lemma componentDidUpdate_summary prevProps w :
  is_Some (introJs w) ->
  exists w' d,
    componentDidUpdate prevProps w = Ret tt w' /\ stepped w d w' /\
    configure_runs d =
      (if negb (isConfigured w) || pair_changed prevProps (props w) then 1 else 0) /\
    props w' = props w /\ isConfigured w' = true.
Proof.
  intros He. unfold componentDidUpdate, pair_changed. cbv zeta.
  rewrite <- orb_assoc.
  set (c1 := negb (isConfigured w) || _).
  set (c2 := negb (eqb _ _)).
  assert (exists w1 d1,
    (if c1 then configureIntroJs >> renderSteps else ret tt) w = Ret tt w1 /\
    stepped w d1 w1 /\ configure_runs d1 = (if c1 then 1 else 0) /\
    props w1 = props w /\ isConfigured w1 = true) as (w1 & d1 & Hr1 & T1 & N1 & P1 & C1).
  { destruct c1 eqn:Hc1.
    - destruct (configureIntroJs_summary w He) as (wa & da & Hra & Ta & Na & Pa & Ca).
      destruct (renderSteps_summary wa (sp_introJs _ _ _ Ta))
        as (wb & db & Hrb & Tb & Nb & Pb & Cb).
      exists wb, (da ++ db). unfold bind. rewrite Hra.
      split; [exact Hrb|]. split; [eapply stepped_trans; eassumption|].
      split; [rewrite configure_runs_app, Na, Nb; reflexivity|].
      split; congruence.
    - exists w, []. split; [reflexivity|]. split; [by apply stepped_refl|].
      split; [reflexivity|]. split; [reflexivity|].
      subst c1. apply orb_false_elim in Hc1 as [Hc1 _].
      by destruct (isConfigured w). }
  assert (exists w2 d2,
    (if c2 then renderSteps else ret tt) w1 = Ret tt w2 /\
    stepped w1 d2 w2 /\ configure_runs d2 = 0 /\
    props w2 = props w1 /\ isConfigured w2 = isConfigured w1)
    as (w2 & d2 & Hr2 & T2 & N2 & P2 & C2).
  { destruct c2.
    - apply renderSteps_summary, (sp_introJs _ _ _ T1).
    - exists w1, []. split; [reflexivity|].
      split; [apply stepped_refl, (sp_introJs _ _ _ T1)|]. by repeat split. }
  exists w2, (d1 ++ d2). unfold bind in Hr1 |- *. rewrite Hr1.
  split; [exact Hr2|]. split; [eapply stepped_trans; eassumption|].
  split; [rewrite configure_runs_app, N1, N2; lia|].
  split; congruence.
Qed.

Lemma componentDidMount_summary w :
  is_Some (introJs w) ->
  exists w' d,
    componentDidMount w = Ret tt w' /\ stepped w d w' /\
    configure_runs d = (if enabled (props w) then 1 else 0) /\
    props w' = props w /\
    isConfigured w' = (enabled (props w) || isConfigured w).
Proof.
  intros He. unfold componentDidMount. destruct (enabled (props w)).
  - destruct (configureIntroJs_summary w He) as (wa & da & Hra & Ta & Na & Pa & Ca).
    destruct (renderSteps_summary wa (sp_introJs _ _ _ Ta))
      as (wb & db & Hrb & Tb & Nb & Pb & Cb).
    exists wb, (da ++ db). unfold bind. rewrite Hra.
    split; [exact Hrb|]. split; [eapply stepped_trans; eassumption|].
    split; [rewrite configure_runs_app, Na, Nb; reflexivity|].
    split; simpl; congruence.
  - exists w, []. split; [reflexivity|]. split; [by apply stepped_refl|].
    by repeat split.
Qed.

(** What an operation other than the teardown does to a mounted
    component whose engine is installed. *)
Lemma exec_summary op w :
  is_unmount op = false ->
  is_Some (introJs w) ->
  exists d,
    stepped w d (world_of (exec op w)) /\
    configure_runs d =
      match op with
      | Update p => if negb (isConfigured w) || pair_changed (props w) p then 1 else 0
      | _ => 0
      end /\
    props (world_of (exec op w)) =
      match op with Update p => p | _ => props w end /\
    isConfigured (world_of (exec op w)) =
      match op with Update _ => true | _ => isConfigured w end.
Proof.
  intros Hop He. destruct op as [p|act| |i|doc|]; simpl in *; try discriminate.
  - destruct (componentDidUpdate_summary (props w) (with_props p w) He)
      as (w' & d & Hr & T & N & P & C).
    exists d. rewrite Hr. simpl. split; [|by repeat split].
    destruct T as [L E V K S]. by split.
  - destruct He as [e He]. rewrite He.
    destruct (run_relayed (act e) w) as (w' & d & Hr & R).
    exists d. rewrite Hr. simpl. split; [by apply relayed_stepped|].
    split; [apply relay_made_no_setOptions, (rl_made _ _ _ R)|].
    split; [exact (rl_props _ _ _ R)|exact (rl_isConfigured _ _ _ R)].
  - destruct He as [e He]. destruct (timers w) as [|t ts].
    + exists []. split; [apply stepped_refl; eauto|by repeat split].
    + rewrite (fire_spec t (with_timers ts w) e He). simpl.
      exists [Consumer (CbPreventChange (_currentStep e))].
      split; [|by repeat split].
      split; simpl; eauto.
  - exists []. split; [|split; [reflexivity|]].
    + unfold updateStepElement. destruct He as [e He]. rewrite He.
      destruct (options_step (_options e) i);
        try (simpl; apply stepped_refl; eauto; fail);
        (destruct (document w _); try (simpl; apply stepped_refl; eauto; fail);
         destruct (_introItems e !! i); try (simpl; apply stepped_refl; eauto; fail);
         simpl; split; simpl; eauto; by rewrite app_nil_r).
    + unfold updateStepElement. destruct He as [e He]. rewrite He.
      destruct (options_step (_options e) i); try (by split);
        (destruct (document w _); try (by split);
         destruct (_introItems e !! i); by split).
  - exists []. split; [|by repeat split].
    split; simpl; eauto. by rewrite app_nil_r.
Qed.

(** *** Lifetimes *)

Lemma execs_app ops1 ops2 w : execs (ops1 ++ ops2) w = execs ops2 (execs ops1 w).
Proof. apply fold_left_app. Qed.

Lemma unmount_summary w :
  is_Some (introJs w) ->
  exists d,
    log (world_of (componentWillUnmount w)) = log w ++ d /\
    configure_runs d = 0 /\
    is_Some (introJs (world_of (componentWillUnmount w))) /\
    props (world_of (componentWillUnmount w)) = props w /\
    isConfigured (world_of (componentWillUnmount w)) = isConfigured w.
Proof.
  intros [e He]. unfold componentWillUnmount.
  destruct (call_spec OpExit eng_exit w e He) as (w1 & d & _ & R & C).
  rewrite C. simpl. exists ([Call OpExit] ++ d ++ [Return OpExit]).
  split; [rewrite (rl_log _ _ _ R); simpl; by rewrite <- !app_assoc|].
  split; [rewrite !configure_runs_app, (relay_made_no_setOptions d (rl_made _ _ _ R));
          reflexivity|].
  split; [exact (rl_introJs _ _ _ R)|].
  split; [exact (rl_props _ _ _ R)|exact (rl_isConfigured _ _ _ R)].
Qed.

Lemma exec_runs op w :
  is_Some (introJs w) ->
  let w' := world_of (exec op w) in
  is_Some (introJs w') /\
  configure_runs (log w') =
    configure_runs (log w) +
    match op with
    | Update p => if negb (isConfigured w) || pair_changed (props w) p then 1 else 0
    | _ => 0
    end /\
  props w' = match op with Update p => p | _ => props w end /\
  isConfigured w' = match op with Update _ => true | _ => isConfigured w end.
Proof.
  intros He w'. destruct (is_unmount op) eqn:Hop.
  - destruct op; try discriminate. subst w'. simpl.
    destruct (unmount_summary w He) as (d & L & N & E & P & C).
    rewrite L, configure_runs_app, N. auto.
  - destruct (exec_summary op w Hop He) as (d & T & N & P & C).
    subst w'. rewrite (sp_log _ _ _ T), configure_runs_app, N.
    split; [exact (sp_introJs _ _ _ T)|]. auto.
Qed.

Lemma execs_runs ops w :
  is_Some (introJs w) ->
  configure_runs (log (execs ops w)) =
  configure_runs (log w) + runs_expected (isConfigured w) (props w) (updates ops).
Proof.
  revert w. induction ops as [|op ops IH]; intros w He.
  - simpl. unfold runs_expected. destruct (isConfigured w); simpl; lia.
  - destruct (exec_runs op w He) as (E & N & P & C).
    change (execs (op :: ops) w) with (execs ops (world_of (exec op w))).
    rewrite (IH _ E), N, P, C.
    destruct op as [p|act| |i|doc|]; try (simpl; lia).
    change (updates (Update p :: ops)) with (p :: updates ops).
    unfold runs_expected. destruct (isConfigured w); simpl; lia.
Qed.

Lemma in_step_stepped w d w' : in_step w -> stepped w d w' -> in_step w'.
Proof.
  intros (V & S & K) [L E V' K' S']. unfold in_step. rewrite L.
  rewrite vis_of_app, started_of_app, S, <- V.
  split; [exact V'|]. split; [exact S'|].
  apply consistent_app. split; [exact K|]. by rewrite S, <- V.
Qed.

Lemma execs_in_step ops w :
  forallb (fun op => negb (is_unmount op)) ops = true ->
  is_Some (introJs w) -> in_step w ->
  in_step (execs ops w) /\ is_Some (introJs (execs ops w)).
Proof.
  revert w. induction ops as [|op ops IH]; intros w Hops He Hw; [by split|].
  simpl in Hops. apply andb_prop in Hops as [Hop Hops].
  apply negb_true_iff in Hop.
  destruct (exec_summary op w Hop He) as (d & T & _).
  change (execs (op :: ops) w) with (execs ops (world_of (exec op w))).
  apply IH; [exact Hops|exact (sp_introJs _ _ _ T)|].
  exact (in_step_stepped _ _ _ Hw T).
Qed.

Lemma mount_in_step p doc :
  in_step (mount false p doc) /\ is_Some (introJs (mount false p doc)).
Proof.
  unfold mount.
  destruct (componentDidMount_summary (constructor false p doc))
    as (w' & d & Hr & T & _); [simpl; eauto|].
  rewrite Hr. simpl. split; [|exact (sp_introJs _ _ _ T)].
  apply (in_step_stepped (constructor false p doc) d); [|exact T].
  by repeat split.
Qed.

(** At a hand-over inside a consistent log the flag and the start status
    agree. *)
Lemma consistent_at v s l pre a post :
  consistent v s l -> l = pre ++ a :: post -> hands_over a = true ->
  vis_of v (pre ++ [a]) = started_of s (pre ++ [a]).
Proof.
  intros K -> Ha. apply consistent_app in K as [_ [K _]].
  rewrite vis_of_app, started_of_app. simpl. by apply K.
Qed.

(** *** The visibility invariant *)

(** C2, amended. Over a mounted component's life before teardown: after
    every operation [isVisible] is true exactly when the latest call of
    the engine's start has returned and since then the component has not
    called the engine's exit and the engine has not fired exit; the same
    holds at every hand-over inside an operation, that is at every call
    of an engine method and at every call of a consumer callback (while
    the engine's start runs, the flag is still false). *)
Theorem isVisible_tracks_returned_start p doc ops n :
  forallb (fun op => negb (is_unmount op)) ops = true ->
  let w := lifetime false p doc (take n ops) in
  isVisible w = vis_of false (log w) /\
  (isVisible w = true <-> started_of false (log w) = true) /\
  (forall pre a post,
     log w = pre ++ a :: post -> hands_over a = true ->
     vis_of false (pre ++ [a]) = started_of false (pre ++ [a])).
Proof.
  intros Hops w.
  assert (Htake : forallb (fun op => negb (is_unmount op)) (take n ops) = true).
  { apply forallb_forall. intros op Hin.
    apply (proj1 (forallb_forall _ ops) Hops).
    apply list_elem_of_In. apply list_elem_of_In in Hin.
    by apply (subseteq_take n ops). }
  destruct (mount_in_step p doc) as [Hm He].
  destruct (execs_in_step (take n ops) (mount false p doc) Htake He Hm) as [(V & S & K) _].
  fold (lifetime false p doc (take n ops)) in V, S, K. fold w in V, S, K.
  split; [exact V|]. split; [by rewrite S, V|].
  intros pre a post Hl Ha. exact (consistent_at _ _ _ _ _ _ K Hl Ha).
Qed.

(** *** Counting configurations *)

(** C6, amended. With the engine installed, configuration sync runs once
    at mount when the component is mounted enabled, once at the first
    update otherwise, and after that once for every update whose [steps]
    or [options] object differs from the one just before, and at no other
    time: not on updates that change other props, not when the engine or
    the timers act. *)
Theorem configure_runs_per_change p doc ops :
  configure_runs (log (lifetime false p doc ops)) =
  if enabled p then 1 + pair_changes p (updates ops)
  else match updates ops with
       | [] => 0
       | p1 :: ps => 1 + pair_changes p1 ps
       end.
Proof.
  unfold lifetime.
  destruct (mount_in_step p doc) as [_ He].
  rewrite (execs_runs ops _ He).
  unfold mount.
  destruct (componentDidMount_summary (constructor false p doc))
    as (w' & d & Hr & T & N & P & C); [simpl; eauto|].
  rewrite Hr. simpl. rewrite (sp_log _ _ _ T), P, C. simpl. rewrite N.
  unfold runs_expected. simpl. destruct (enabled p); simpl; [lia|].
  by destruct (updates ops).
Qed.

(** *** Empty tours *)

Lemma stable_no_start n :
  stable (fun w => starts (log w) = n /\ val (steps (props w)) = []).
Proof.
  split; try (intros; simpl; assumption).
  - intros w d w' R [Hn Hs]. rewrite (rl_log _ _ _ R), (rl_props _ _ _ R), starts_app.
    rewrite (relay_made_no_start d (rl_made _ _ _ R)). split; [lia|exact Hs].
  - intros w a Ha [Hn Hs]. simpl. split; [|exact Hs].
    rewrite starts_app. unfold starts at 2.
    rewrite filter_cons_False by (rewrite Ha; discriminate). simpl. lia.
Qed.

(** C7. With an empty [steps] array in the props, [renderSteps] never
    calls the engine's start, whatever [enabled] is and however often it
    runs; and over a whole life in which every props has an empty
    [steps], mount and updates included, start is never called. *)
Theorem empty_tour_never_starts :
  (forall w n,
     val (steps (props w)) = [] ->
     starts (log (Nat.iter n (fun w => world_of (renderSteps w)) w)) = starts (log w)) /\
  (forall isServer p doc ops,
     val (steps p) = [] ->
     Forall (fun q => val (steps q) = []) (updates ops) ->
     starts (log (lifetime isServer p doc ops)) = 0).
Proof.
  split.
  - intros w n Hs.
    assert (starts (log (Nat.iter n (fun w => world_of (renderSteps w)) w)) = starts (log w)
            /\ val (steps (props (Nat.iter n (fun w => world_of (renderSteps w)) w))) = [])
      as [Hn _]; [|exact Hn].
    induction n as [|n IH]; [by split|]. simpl.
    apply (preserves_renderSteps _ (stable_no_start (starts (log w)))); [|exact IH].
    intros w0 [_ Hnil] Hne. by destruct Hne.
  - intros isServer p doc ops Hp Hops. unfold lifetime.
    assert (Hm : starts (log (mount isServer p doc)) = 0
                 /\ val (steps (props (mount isServer p doc))) = []).
    { unfold mount.
      apply (preserves_componentDidMount _ (stable_no_start 0)); [|by split].
      intros w0 [_ Hnil] Hne. by destruct Hne. }
    revert Hm. generalize (mount isServer p doc) as w.
    induction ops as [|op ops IH]; intros w Hw; [exact (proj1 Hw)|].
    change (execs (op :: ops) w) with (execs ops (world_of (exec op w))).
    assert (Hops' : Forall (fun q => val (steps q) = []) (updates ops)).
    { destruct op; try exact Hops. by inversion Hops. }
    apply (IH Hops').
    apply (preserves_exec _ op (stable_no_start 0)); [| |exact Hw].
    + intros w0 [_ Hnil] Hne. by destruct Hne.
    + intros w0 q -> [Hn _]. split; [exact Hn|]. simpl. by inversion Hops.
Qed.

(** *** The configured flag *)

(** C10. [isConfigured] is false at construction; once it is true no
    operation, whether it returns or throws, leaves it false, an update
    with other [steps] or [options] included; and from then on an update
    runs configuration sync exactly when the [steps] or the [options]
    object differs from the one of the previous props. *)
Theorem isConfigured_monotone :
  (forall isServer p doc, isConfigured (constructor isServer p doc) = false) /\
  (forall w e, introJs w = Some e -> isConfigured (world_of (configureIntroJs w)) = true) /\
  (forall op w, isConfigured w = true -> isConfigured (world_of (exec op w)) = true) /\
  (forall ops w, isConfigured w = true -> isConfigured (execs ops w) = true) /\
  (forall w p,
     is_Some (introJs w) -> isConfigured w = true ->
     configure_runs (log (world_of (exec (Update p) w))) =
     configure_runs (log w) + (if pair_changed (props w) p then 1 else 0)).
Proof.
  assert (Hop : forall op w, isConfigured w = true ->
                             isConfigured (world_of (exec op w)) = true).
  { intros op. apply (preserves_exec _ op stable_isConfigured_true); auto. }
  split; [reflexivity|]. split; [|split; [exact Hop|split]].
  - intros w e He.
    destruct (configureIntroJs_summary w) as (w' & d & Hr & _ & _ & _ & C); [eauto|].
    by rewrite Hr.
  - intros ops. induction ops as [|op ops IH]; intros w Hw; [exact Hw|].
    apply IH, Hop, Hw.
  - intros w p He Hc.
    destruct (exec_runs (Update p) w He) as (_ & N & _).
    rewrite N, Hc. reflexivity.
Qed.

(** ** Further properties *)

(** *** More readings of the log *)

Lemma tally_app f d1 d2 : tally f (d1 ++ d2) = tally f d1 + tally f d2.
Proof. induction d1 as [|a d1 IH]; simpl; [reflexivity|]. rewrite IH. lia. Qed.

Lemma relay_made_no_exit_call d :
  Forall (fun a => relay_made a = true) d -> exits d = 0.
Proof.
  induction 1 as [|a d Ha _ IH]; [reflexivity|].
  destruct a as [[]| | | | |[]|]; simpl in *; try discriminate; exact IH.
Qed.

Lemma exit_relayed_app d1 d2 :
  exit_relayed (d1 ++ d2) = exit_relayed d1 || exit_relayed d2.
Proof. unfold exit_relayed. by rewrite relays_app, existsb_app. Qed.

(** In a stretch of relay the start status falls with an exit event and
    with nothing else. *)
Lemma started_of_relay_made v d :
  Forall (fun a => relay_made a = true) d ->
  started_of v d = v && negb (exit_relayed d).
Proof.
  intros Hd. revert v. induction Hd as [|a d Ha _ IH]; intros v.
  - simpl. by rewrite andb_true_r.
  - change (started_of v (a :: d)) with (started_of (started_step v a) d).
    rewrite IH.
    destruct a as [| |[]| | |[]|]; simpl in *; try discriminate; try reflexivity.
    by rewrite andb_false_r.
Qed.

Lemma unprompted_exit_app_l d1 d2 :
  unprompted_exit (d1 ++ d2) = false -> unprompted_exit d1 = false.
Proof.
  induction d1 as [|a d1 IH]; [reflexivity|].
  destruct a as [[]| |[]| | | |]; simpl; auto.
Qed.

Lemma unprompted_exit_app_r d1 d2 :
  exits d1 = 0 ->
  unprompted_exit (d1 ++ d2) = false ->
  exit_relayed d1 = false /\ unprompted_exit d2 = false.
Proof.
  induction d1 as [|a d1 IH]; [by split|].
  destruct a as [[]| |[]| | | |]; simpl; try discriminate; auto.
Qed.

Lemma appended_app w w' d : log w' = log w ++ d -> appended w w' = d.
Proof. intros L. unfold appended. by rewrite L, drop_app_length. Qed.

(** *** What the relay does to the timers and to the consumer of changes *)

Lemma relay_facts ev w :
  is_Some (introJs w) ->
  exists v w' d,
    relay ev w = Ret v w' /\ log w' = log w ++ d /\
    (exists ts, timers w' = timers w ++ ts /\ length ts = timers_set d) /\
    prevents d = 0 /\
    (isVisible w = false ->
     Forall (fun a => change_made a = false) d /\ timers w' = timers w /\
     isVisible w' = false).
Proof.
  intros [e He].
  assert (Hnil : forall A (l : list A), l = l ++ []) by (intros; by rewrite app_nil_r).
  destruct ev as [| |el|el|el|]; unfold relay, bind, emit; simpl.
  - unfold handle_onExit, bind, write_isVisible, currentStep, emit, ret; simpl.
    rewrite He. do 3 eexists. split; [reflexivity|]. simpl.
    rewrite <- !app_assoc. split; [reflexivity|].
    split; [exists []; split; [apply Hnil|reflexivity]|].
    split; [reflexivity|]. intros _. split; [repeat constructor|by split].
  - unfold handle_onBeforeExit, bind, currentStep, emit, ret; simpl.
    destruct (onBeforeExit (props w)); simpl; rewrite ?He;
      do 3 eexists; (split; [reflexivity|]); simpl;
      rewrite <- ?app_assoc; (split; [reflexivity|]);
      (split; [exists []; split; [apply Hnil|reflexivity]|]);
      (split; [reflexivity|]); intros Hv; (split; [repeat constructor|by split]).
  - unfold handle_onBeforeChange, bind, currentStep, emit, ret, setTimeout; simpl.
    destruct (isVisible w) eqn:Hv; simpl.
    + destruct (onBeforeChange (props w)) as [f|]; simpl; rewrite ?He;
        [destruct (strict_false (f (_currentStep e) el));
         [destruct (onPreventChange (props w)) as [g|]|]|];
        simpl; do 3 eexists; (split; [reflexivity|]); simpl;
        rewrite <- ?app_assoc; (split; [reflexivity|]);
        (split; [first [ exists []; split; [apply Hnil|reflexivity]
                       | eexists [_]; split; reflexivity ]|]);
        (split; [reflexivity|]); intros Hv'; discriminate.
    + do 3 eexists. split; [reflexivity|]. simpl. split; [reflexivity|].
      split; [exists []; split; [apply Hnil|reflexivity]|].
      split; [reflexivity|]. intros _. split; [repeat constructor|by split].
  - unfold handle_onAfterChange, bind, currentStep, emit, ret; simpl.
    destruct (isVisible w) eqn:Hv; simpl;
      [destruct (onAfterChange (props w)); simpl; rewrite ?He|];
      do 3 eexists; (split; [reflexivity|]); simpl;
      rewrite <- ?app_assoc; (split; [reflexivity|]);
      (split; [exists []; split; [apply Hnil|reflexivity]|]);
      (split; [reflexivity|]); intros Hv'; first [discriminate|idtac];
      (split; [repeat constructor|by split]).
  - unfold handle_onChange, bind, currentStep, emit, ret; simpl.
    destruct (isVisible w) eqn:Hv; simpl;
      [destruct (onChange (props w)); simpl; rewrite ?He|];
      do 3 eexists; (split; [reflexivity|]); simpl;
      rewrite <- ?app_assoc; (split; [reflexivity|]);
      (split; [exists []; split; [apply Hnil|reflexivity]|]);
      (split; [reflexivity|]); intros Hv'; first [discriminate|idtac];
      (split; [repeat constructor|by split]).
  - unfold handle_onComplete, bind, emit, ret; simpl.
    destruct (onComplete (props w)); simpl;
      do 3 eexists; (split; [reflexivity|]); simpl;
      rewrite <- ?app_assoc; (split; [reflexivity|]);
      (split; [exists []; split; [apply Hnil|reflexivity]|]);
      (split; [reflexivity|]); intros Hv; (split; [repeat constructor|by split]).
Qed.

Lemma run_facts r w :
  exists w' d,
    run r w = Ret tt w' /\ log w' = log w ++ d /\
    (exists ts, timers w' = timers w ++ ts /\ length ts = timers_set d) /\
    prevents d = 0 /\
    (isVisible w = false ->
     Forall (fun a => change_made a = false) d /\ timers w' = timers w /\
     isVisible w' = false).
Proof.
  revert w. induction r as [e|e ev k IH]; intros w.
  - exists (with_introJs (Some e) w), []. simpl. rewrite app_nil_r.
    split; [reflexivity|]. split; [reflexivity|].
    split; [exists []; by rewrite app_nil_r|]. split; [reflexivity|].
    intros Hv. by repeat split.
  - simpl. unfold bind at 1. unfold engine_moves at 1.
    destruct (relay_facts ev (with_introJs (Some e) w))
      as (v & w1 & d1 & Hr & L1 & (ts1 & T1 & N1) & P1 & H1); [simpl; eauto|].
    unfold bind. rewrite Hr.
    destruct (IH v w1) as (w2 & d2 & Hk & L2 & (ts2 & T2 & N2) & P2 & H2).
    exists w2, (d1 ++ d2). split; [exact Hk|].
    split; [rewrite L2, L1; simpl; by rewrite <- app_assoc|].
    split; [exists (ts1 ++ ts2); split;
            [rewrite T2, T1; simpl; by rewrite <- app_assoc
            |unfold timers_set in *; rewrite length_app, tally_app; lia]|].
    split; [unfold prevents in *; rewrite tally_app; lia|].
    intros Hv. destruct (H1 Hv) as (F1 & T1' & V1).
    destruct (H2 V1) as (F2 & T2' & V2).
    split; [by apply Forall_app|]. split; [by rewrite T2', T1'|exact V2].
Qed.

(** X1. However the engine runs, the component's handlers let it run to
    its end, and meanwhile call no engine method, write nothing but
    [isVisible = false], and leave props, [isConfigured] and the document
    alone; the flag is down afterwards exactly if it was down before or
    the engine fired an exit event. *)
Theorem reaction_is_passive r w :
  exists w' d,
    run r w = Ret tt w' /\ log w' = log w ++ d /\
    Forall (fun a => relay_made a = true) d /\
    starts d = 0 /\ exits d = 0 /\ configure_runs d = 0 /\
    props w' = props w /\ isConfigured w' = isConfigured w /\
    document w' = document w /\
    isVisible w' = isVisible w && negb (exit_relayed d).
Proof.
  destruct (run_relayed r w) as (w' & d & Hr & R).
  exists w', d. split; [exact Hr|]. split; [exact (rl_log _ _ _ R)|].
  pose proof (rl_made _ _ _ R) as Hm. split; [exact Hm|].
  split; [by apply relay_made_no_start|].
  split; [by apply relay_made_no_exit_call|].
  split; [by apply relay_made_no_setOptions|].
  split; [exact (rl_props _ _ _ R)|]. split; [exact (rl_isConfigured _ _ _ R)|].
  split; [exact (rl_document _ _ _ R)|].
  rewrite (rl_isVisible _ _ _ R), <- (rl_started _ _ _ R).
  by apply started_of_relay_made.
Qed.

(** X2. While the flag is down, whatever the engine does reaches the
    consumer of changes not at all: over a whole run of the engine, the
    engine's start among them, no change callback is called, no timer is
    set, the pending timers are as they were, and the flag stays down. *)
Theorem hidden_reaction_reaches_no_change_callback r w :
  isVisible w = false ->
  exists w' d,
    run r w = Ret tt w' /\ log w' = log w ++ d /\
    Forall (fun a => change_made a = false) d /\
    timers w' = timers w /\ isVisible w' = false.
Proof.
  intros Hv. destruct (run_facts r w) as (w' & d & Hr & L & _ & _ & H).
  destruct (H Hv) as (F & T & V). by exists w', d.
Qed.

(** *** What one evaluation of the visibility does *)

Lemma has_steps_cons w s ss :
  val (steps (props w)) = s :: ss -> has_steps (props w) = true.
Proof. intros Hs. unfold has_steps. by rewrite Hs. Qed.

Lemma has_steps_nil w : val (steps (props w)) = [] -> has_steps (props w) = false.
Proof. intros Hs. unfold has_steps. by rewrite Hs. Qed.

Lemma renderSteps_effect w :
  is_Some (introJs w) ->
  exists w' d,
    renderSteps w = Ret tt w' /\ log w' = log w ++ d /\
    props w' = props w /\ isConfigured w' = isConfigured w /\
    is_Some (introJs w') /\
    starts d =
      (if enabled (props w) && has_steps (props w) && negb (isVisible w) then 1 else 0) /\
    exits d = (if negb (enabled (props w)) && isVisible w then 1 else 0) /\
    configure_runs d = 0 /\
    (unprompted_exit d = false ->
     isVisible w' = enabled (props w) && (has_steps (props w) || isVisible w)).
Proof.
  intros [e He].
  destruct (enabled (props w)) eqn:Hen; destruct (isVisible w) eqn:Hv;
    destruct (val (steps (props w))) as [|s0 ss] eqn:Hst;
    rewrite ?(has_steps_cons w s0 ss Hst), ?(has_steps_nil w Hst).
  all: try (exists w, []; split;
            [unfold renderSteps; by rewrite Hen, Hv, Hst|];
            rewrite app_nil_r; repeat split; eauto; fail).
  - destruct (renderSteps_show w e He Hen) as
      (w' & e' & d1 & d2 & Hr & He' & M1 & M2 & Hv' & Hp & Hc & K1 & S1 & K2 & S2 & Hl & _);
      [by rewrite Hst|exact Hv|].
    eexists w', _. split; [exact Hr|]. split; [exact Hl|].
    split; [exact Hp|]. split; [exact Hc|]. split; [eauto|].
    split; [|split; [|split]].
    + repeat first [rewrite starts_app | rewrite (relay_made_no_start d1 M1)
                   | rewrite (relay_made_no_start d2 M2)].
      by destruct (onStart (props w)).
    + unfold exits. rewrite !tally_app.
      fold (exits d1). fold (exits d2).
      rewrite (relay_made_no_exit_call d1 M1), (relay_made_no_exit_call d2 M2).
      by destruct (onStart (props w)).
    + repeat first [rewrite configure_runs_app
                   | rewrite (relay_made_no_setOptions d1 M1)
                   | rewrite (relay_made_no_setOptions d2 M2)].
      by destruct (onStart (props w)).
    + intros Hu. simpl in Hu.
      apply unprompted_exit_app_r in Hu as [_ Hu];
        [|by apply relay_made_no_exit_call].
      simpl in Hu.
      apply unprompted_exit_app_r in Hu as [Hx _];
        [|by apply relay_made_no_exit_call].
      rewrite Hv', <- S2, (started_of_relay_made true d2 M2), Hx. reflexivity.
  - destruct (renderSteps_hide w e He Hen Hv) as
      (w' & d & Hr & _ & Hl & Hm & Hv' & _ & _ & He' & Hp & Hc & _).
    eexists w', _. split; [exact Hr|]. split; [exact Hl|].
    split; [exact Hp|]. split; [exact Hc|]. split; [exact He'|].
    split; [|split; [|split]].
    + rewrite !starts_app, (relay_made_no_start d Hm). reflexivity.
    + unfold exits. rewrite !tally_app. fold (exits d).
      rewrite (relay_made_no_exit_call d Hm). reflexivity.
    + rewrite !configure_runs_app, (relay_made_no_setOptions d Hm). reflexivity.
    + intros _. exact Hv'.
  - destruct (renderSteps_hide w e He Hen Hv) as
      (w' & d & Hr & _ & Hl & Hm & Hv' & _ & _ & He' & Hp & Hc & _).
    eexists w', _. split; [exact Hr|]. split; [exact Hl|].
    split; [exact Hp|]. split; [exact Hc|]. split; [exact He'|].
    split; [|split; [|split]].
    + rewrite !starts_app, (relay_made_no_start d Hm). reflexivity.
    + unfold exits. rewrite !tally_app. fold (exits d).
      rewrite (relay_made_no_exit_call d Hm). reflexivity.
    + rewrite !configure_runs_app, (relay_made_no_setOptions d Hm). reflexivity.
    + intros _. exact Hv'.
Qed.

(** Evaluating the visibility again right away changes nothing, unless
    the flag fell while the tour was being started. *)
Lemma renderSteps_again w w' :
  renderSteps w = Ret tt w' ->
  is_Some (introJs w) ->
  (enabled (props w) = true -> has_steps (props w) = true -> isVisible w' = true) ->
  renderSteps w' = Ret tt w'.
Proof.
  intros Hr [e He] Hup.
  destruct (enabled (props w)) eqn:Hen; destruct (isVisible w) eqn:Hv;
    destruct (val (steps (props w))) as [|s0 ss] eqn:Hst.
  all: try (assert (w' = w) as ->
              by (unfold renderSteps in Hr; rewrite Hen, Hv, Hst in Hr; simpl in Hr; congruence);
            unfold renderSteps; by rewrite Hen, Hv, Hst).
  - destruct (renderSteps_show w e He Hen) as
      (w2 & _ & _ & _ & Hr2 & _ & _ & _ & _ & Hp & _);
      [by rewrite Hst|exact Hv|].
    rewrite Hr in Hr2. injection Hr2 as <-.
    unfold renderSteps. rewrite Hp, Hen, Hst.
    rewrite (Hup eq_refl (has_steps_cons w s0 ss Hst)). reflexivity.
  - destruct (renderSteps_hide w e He Hen Hv) as (w2 & _ & Hr2 & _ & _ & _ & Hv' & _ & _ & _ & Hp & _).
    rewrite Hr in Hr2. injection Hr2 as <-.
    unfold renderSteps. rewrite Hp, Hen, Hv'. reflexivity.
  - destruct (renderSteps_hide w e He Hen Hv) as (w2 & _ & Hr2 & _ & _ & _ & Hv' & _ & _ & _ & Hp & _).
    rewrite Hr in Hr2. injection Hr2 as <-.
    unfold renderSteps. rewrite Hp, Hen, Hv'. reflexivity.
Qed.

(** X3. [renderSteps] run a second time right after itself does nothing:
    it returns with the world as the first run left it.  The one
    exception is a tour that was started and whose flag fell again
    before the first run returned. *)
Theorem renderSteps_idempotent w w' :
  is_Some (introJs w) ->
  renderSteps w = Ret tt w' ->
  (enabled (props w) = true -> has_steps (props w) = true -> isVisible w' = true) ->
  renderSteps w' = Ret tt w'.
Proof. intros He Hr Hup. by apply (renderSteps_again w w'). Qed.

Lemma configureIntroJs_effect w :
  is_Some (introJs w) ->
  exists w' d,
    configureIntroJs w = Ret tt w' /\ log w' = log w ++ d /\
    props w' = props w /\ isConfigured w' = true /\ is_Some (introJs w') /\
    starts d = 0 /\ exits d = 0 /\ configure_runs d = 1 /\
    isVisible w' = isVisible w && negb (exit_relayed d).
Proof.
  intros [e He]. unfold configureIntroJs. cbv zeta.
  set (o := merged_options _ _).
  destruct (call_spec (OpSetOptions o) (eng_setOptions o) w e He) as (w1 & d & _ & R & C).
  unfold bind. rewrite C. unfold write_isConfigured.
  pose proof (rl_made _ _ _ R) as Hm.
  eexists _, ([Call (OpSetOptions o)] ++ d ++ [Return (OpSetOptions o); Write_isConfigured true]).
  split; [reflexivity|].
  split; [simpl; rewrite (rl_log _ _ _ R); simpl; by rewrite <- !app_assoc|].
  split; [exact (rl_props _ _ _ R)|]. split; [reflexivity|].
  split; [exact (rl_introJs _ _ _ R)|].
  split; [rewrite !starts_app, (relay_made_no_start d Hm); reflexivity|].
  split; [unfold exits; rewrite !tally_app; fold (exits d);
          rewrite (relay_made_no_exit_call d Hm); reflexivity|].
  split; [rewrite !configure_runs_app, (relay_made_no_setOptions d Hm); reflexivity|].
  simpl. rewrite (rl_isVisible _ _ _ R), <- (rl_started _ _ _ R). simpl.
  rewrite (started_of_relay_made _ d Hm).
  change (Call (OpSetOptions o) :: d ++ [Return (OpSetOptions o); Write_isConfigured true])
    with ([Call (OpSetOptions o)] ++ d ++ [Return (OpSetOptions o); Write_isConfigured true]).
  rewrite !exit_relayed_app.
  change (exit_relayed [Call (OpSetOptions o)]) with false.
  change (exit_relayed [Return (OpSetOptions o); Write_isConfigured true]) with false.
  by rewrite orb_false_r.
Qed.

Lemma log_same (l d : list Action) : l = l ++ d -> d = [].
Proof.
  intros Hl. apply (app_inv_head l). by rewrite app_nil_r.
Qed.

(** *** What an update and a mount do *)

Lemma componentDidUpdate_effect prevProps w :
  is_Some (introJs w) ->
  let c1 := negb (isConfigured w) || pair_changed prevProps (props w) in
  let c2 := negb (eqb (enabled prevProps) (enabled (props w))) in
  exists w' d,
    componentDidUpdate prevProps w = Ret tt w' /\ log w' = log w ++ d /\
    props w' = props w /\
    configure_runs d = (if c1 then 1 else 0) /\
    (unprompted_exit d = false ->
     starts d =
       (if (c1 || c2) && enabled (props w) && has_steps (props w) && negb (isVisible w)
        then 1 else 0) /\
     exits d = (if (c1 || c2) && negb (enabled (props w)) && isVisible w then 1 else 0) /\
     isVisible w' =
       (if c1 || c2 then enabled (props w) && (has_steps (props w) || isVisible w)
        else isVisible w)).
Proof.
  intros He c1 c2.
  assert (Hdef : componentDidUpdate prevProps w =
                 ((if c1 then configureIntroJs >> renderSteps else ret tt) >>
                  (if c2 then renderSteps else ret tt)) w).
  { unfold componentDidUpdate, c1, c2, pair_changed. by rewrite <- orb_assoc. }
  rewrite Hdef. clear Hdef.
  destruct c1 eqn:Hc1.
  - destruct (configureIntroJs_effect w He)
      as (wa & da & Hra & La & Pa & Ca & Ea & Sa & Xa & Na & Va).
    destruct (renderSteps_effect wa Ea)
      as (wb & db & Hrb & Lb & Pb & Cb & Eb & Sb & Xb & Nb & Vb).
    rewrite Pa, Va in Sb, Xb, Vb.
    destruct c2 eqn:Hc2.
    + destruct (renderSteps_effect wb Eb)
        as (wc & dc & Hrc & Lc & Pc & Cc & Ec & Sc & Xc & Nc & Vc).
      exists wc, (da ++ db ++ dc). unfold bind. rewrite Hra, Hrb.
      split; [exact Hrc|].
      split; [rewrite Lc, Lb, La; by rewrite <- !app_assoc|].
      split; [congruence|].
      split; [rewrite !configure_runs_app, Na, Nb, Nc; reflexivity|].
      intros Hu.
      apply unprompted_exit_app_r in Hu as [Hxa Hu]; [|exact Xa].
      apply unprompted_exit_app_l in Hu as Hub.
      rewrite Hxa in Sb, Xb, Vb. simpl in Sb, Xb, Vb. rewrite andb_true_r in Sb, Xb, Vb.
      specialize (Vb Hub).
      assert (wc = wb) as ->.
      { assert (Hag : renderSteps wb = Ret tt wb).
        { apply (renderSteps_again wa wb Hrb Ea). rewrite Pa. intros Hen Hs.
          rewrite Vb, Hen, Hs. reflexivity. }
        congruence. }
      apply log_same in Lc. subst dc. rewrite app_nil_r.
      rewrite starts_app, Sa, Sb. unfold exits. rewrite tally_app.
      fold (exits da). fold (exits db). rewrite Xa, Xb. simpl.
      split; [reflexivity|]. split; [reflexivity|exact Vb].
    + exists wb, (da ++ db). unfold bind. rewrite Hra, Hrb.
      split; [reflexivity|].
      split; [rewrite Lb, La; by rewrite <- !app_assoc|].
      split; [congruence|].
      split; [rewrite !configure_runs_app, Na, Nb; reflexivity|].
      intros Hu.
      apply unprompted_exit_app_r in Hu as [Hxa Hub]; [|exact Xa].
      rewrite Hxa in Sb, Xb, Vb. simpl in Sb, Xb, Vb. rewrite andb_true_r in Sb, Xb, Vb.
      specialize (Vb Hub).
      rewrite starts_app, Sa, Sb. unfold exits. rewrite tally_app.
      fold (exits da). fold (exits db). rewrite Xa, Xb. simpl.
      split; [reflexivity|]. split; [reflexivity|exact Vb].
  - destruct c2 eqn:Hc2.
    + destruct (renderSteps_effect w He)
        as (wb & db & Hrb & Lb & Pb & Cb & Eb & Sb & Xb & Nb & Vb).
      exists wb, db. unfold bind, ret. split; [exact Hrb|].
      split; [exact Lb|]. split; [exact Pb|]. split; [exact Nb|].
      intros Hu. simpl. split; [exact Sb|]. split; [exact Xb|exact (Vb Hu)].
    + exists w, []. unfold bind, ret. rewrite app_nil_r. by repeat split.
Qed.

(** X4. What a props update does with the engine installed.  It runs
    [renderSteps] exactly if the component was unconfigured or [steps],
    [options] or [enabled] changed, and otherwise changes nothing, not
    even to restart a tour the user has left.  If the engine fires no exit
    of its own accord meanwhile, then: start is called once if the new
    props are enabled with steps and the flag was down, and not
    otherwise; exit is called once if they are disabled and the flag was
    up, and not otherwise; and afterwards the flag is up exactly if the
    props are enabled and there are steps or the flag was up already. *)
Theorem update_effect w p :
  is_Some (introJs w) ->
  let w' := world_of (exec (Update p) w) in
  let d := appended w w' in
  props w' = p /\
  (reevaluates w p = false -> exec (Update p) w = Ret tt (with_props p w)) /\
  (unprompted_exit d = false ->
   starts d =
     (if reevaluates w p && enabled p && has_steps p && negb (isVisible w) then 1 else 0) /\
   exits d = (if reevaluates w p && negb (enabled p) && isVisible w then 1 else 0) /\
   isVisible w' =
     (if reevaluates w p then enabled p && (has_steps p || isVisible w) else isVisible w)).
Proof.
  intros He w' d.
  destruct (componentDidUpdate_effect (props w) (with_props p w) He)
    as (w1 & d1 & Hr & L & P & N & H).
  assert (Hw : w' = w1) by (unfold w'; simpl; by rewrite Hr).
  assert (Hd : d = d1) by (unfold d; rewrite Hw; by apply appended_app).
  split; [by rewrite Hw, P|]. split.
  - intros Hre. unfold reevaluates in Hre.
    apply orb_false_elim in Hre as [Hre1 Hre2].
    apply orb_false_elim in Hre1 as [Hconf Hpair].
    apply orb_false_elim in Hpair as [Hs Ho].
    apply negb_false_iff in Hconf.
    simpl. rewrite (componentDidUpdate_engine_free (props w) (with_props p w) Hconf Hs Ho).
    simpl. by rewrite Hre2.
  - rewrite Hd, Hw. exact H.
Qed.

(** X5. What mounting does with the engine installed.  Disabled, it does
    nothing at all.  Enabled, it configures once, calls start once if
    there are steps and never exit, and leaves [isConfigured] true; the
    flag ends up exactly if there are steps, provided the engine fires no
    exit of its own accord meanwhile. *)
Theorem mount_effect p doc :
  let w := mount false p doc in
  (enabled p = false -> w = constructor false p doc) /\
  isConfigured w = enabled p /\
  configure_runs (log w) = (if enabled p then 1 else 0) /\
  starts (log w) = (if enabled p && has_steps p then 1 else 0) /\
  exits (log w) = 0 /\
  (unprompted_exit (log w) = false -> isVisible w = enabled p && has_steps p).
Proof.
  intros w. unfold w, mount, componentDidMount. simpl.
  destruct (enabled p) eqn:Hen; [|by repeat split].
  destruct (configureIntroJs_effect (constructor false p doc))
    as (wa & da & Hra & La & Pa & Ca & Ea & Sa & Xa & Na & Va); [simpl; eauto|].
  destruct (renderSteps_effect wa Ea)
    as (wb & db & Hrb & Lb & Pb & Cb & Eb & Sb & Xb & Nb & Vb).
  rewrite Pa, Va in Sb, Xb, Vb. simpl in Sb, Xb, Vb, La.
  rewrite Hen in Sb, Xb, Vb. simpl in Sb, Xb, Vb.
  rewrite andb_true_r in Sb.
  unfold bind. rewrite Hra, Hrb. simpl. rewrite Lb, La.
  split; [discriminate|]. split; [congruence|].
  split; [rewrite configure_runs_app, Na, Nb; reflexivity|].
  split; [rewrite starts_app, Sa, Sb; reflexivity|].
  split; [unfold exits in *; rewrite tally_app, Xa, Xb; reflexivity|].
  intros Hu. apply unprompted_exit_app_r in Hu as [_ Hu]; [|exact Xa].
  rewrite (Vb Hu). by rewrite orb_false_r.
Qed.

(** X6. Teardown.  With the engine installed [componentWillUnmount]
    calls the engine's exit once, whatever the flag is, and writes no
    flag itself: the flag is down afterwards exactly if it was down
    before or the engine fired exit.  Without an engine it throws a
    [TypeError] and changes nothing. *)
Theorem componentWillUnmount_effect w :
  (forall e, introJs w = Some e ->
     exists w' d,
       componentWillUnmount w = Ret tt w' /\
       log w' = log w ++ [Call OpExit] ++ d ++ [Return OpExit] /\
       Forall (fun a => relay_made a = true) d /\
       isVisible w' = isVisible w && negb (exit_relayed d) /\
       isConfigured w' = isConfigured w /\ props w' = props w) /\
  (introJs w = None -> componentWillUnmount w = Throw TypeError w).
Proof.
  split; [|apply call_headless].
  intros e He. unfold componentWillUnmount.
  destruct (call_spec OpExit eng_exit w e He) as (w1 & d & _ & R & C).
  pose proof (rl_made _ _ _ R) as Hm.
  exists (with_log (log w1 ++ [Return OpExit]) w1), d.
  split; [exact C|].
  split; [simpl; rewrite (rl_log _ _ _ R); simpl; by rewrite <- !app_assoc|].
  split; [exact Hm|].
  split; [simpl; rewrite (rl_isVisible _ _ _ R), <- (rl_started _ _ _ R);
          by apply started_of_relay_made|].
  split; [exact (rl_isConfigured _ _ _ R)|exact (rl_props _ _ _ R)].
Qed.

(** *** Without an engine *)

(** X7. On a server no engine is installed.  Then, with the flag down,
    every lifecycle method that needs the engine throws a [TypeError]
    before it changes anything: configuration, a visibility evaluation
    that would start a tour, a mount when enabled, an update of an
    unconfigured component and teardown.  Re-binding does not return
    either and changes nothing (which error it raises is not said here:
    it depends on whether the host has a document).  Over a whole life
    the flags stay false and nothing is ever logged or scheduled. *)
Theorem headless_is_inert :
  (forall w,
     introJs w = None -> isVisible w = false ->
     configureIntroJs w = Throw TypeError w /\
     renderSteps w =
       (if enabled (props w) && has_steps (props w) then Throw TypeError w else Ret tt w) /\
     componentDidMount w = (if enabled (props w) then Throw TypeError w else Ret tt w) /\
     (forall prevProps, isConfigured w = false ->
                        componentDidUpdate prevProps w = Throw TypeError w) /\
     componentWillUnmount w = Throw TypeError w /\
     (forall i, world_of (updateStepElement i w) = w /\
                forall w', updateStepElement i w <> Ret tt w')) /\
  (forall p doc ops,
     let w := lifetime true p doc ops in
     introJs w = None /\ isVisible w = false /\ isConfigured w = false /\
     log w = [] /\ timers w = []).
Proof.
  assert (Hconf : forall w, introJs w = None -> configureIntroJs w = Throw TypeError w).
  { intros w He. unfold configureIntroJs, bind. by rewrite call_headless. }
  assert (Hupd : forall w prevProps, introJs w = None -> isConfigured w = false ->
                   componentDidUpdate prevProps w = Throw TypeError w).
  { intros w prevProps He Hc. unfold componentDidUpdate. rewrite Hc. simpl.
    unfold bind. by rewrite Hconf. }
  split.
  - intros w He Hv. split; [by apply Hconf|]. split; [|split; [|split; [|split]]].
    + unfold renderSteps, has_steps. rewrite Hv. simpl.
      rewrite andb_true_r, andb_false_r.
      destruct (enabled (props w) && _); [|reflexivity].
      unfold bind. by rewrite call_headless.
    + unfold componentDidMount. destruct (enabled (props w)); [|reflexivity].
      unfold bind. by rewrite Hconf.
    + intros prevProps Hc. by apply Hupd.
    + by apply call_headless.
    + intros i. unfold updateStepElement. rewrite He. split; [reflexivity|].
      intros w'. discriminate.
  - intros p doc ops.
    assert (Hm : let w := mount true p doc in
                 introJs w = None /\ isVisible w = false /\ isConfigured w = false /\
                 log w = [] /\ timers w = []).
    { unfold mount, componentDidMount. simpl. destruct (enabled p); [|by repeat split].
      unfold bind. rewrite Hconf by reflexivity. by repeat split. }
    unfold lifetime. revert Hm. generalize (mount true p doc) as w.
    induction ops as [|op ops IH]; intros w Hw; [exact Hw|].
    change (execs (op :: ops) w) with (execs ops (world_of (exec op w))).
    apply IH. destruct Hw as (He & Hv & Hc & Hl & Ht).
    destruct op as [q|act| |i|d|]; simpl.
    + rewrite Hupd by assumption. by repeat split.
    + rewrite He. by repeat split.
    + rewrite Ht. by repeat split.
    + unfold updateStepElement. rewrite He. by repeat split.
    + by repeat split.
    + unfold componentWillUnmount. rewrite call_headless by assumption. by repeat split.
Qed.

(** *** More on the element re-binder *)

(** The three ways a re-binding can end. *)
Lemma updateStepElement_cases w i :
  (exists err, updateStepElement i w = Throw err w) \/
  updateStepElement i w = Ret tt w \/
  (exists e el old pos,
     introJs w = Some e /\ _introItems e !! i = Some old /\
     updateStepElement i w =
     Ret tt (with_introJs
               (Some (mkEngine (_currentStep e) (_options e)
                        (<[i := mkItem (Some el) (Some pos) (item_rest old)]> (_introItems e))
                        (hidden e))) w)).
Proof.
  unfold updateStepElement.
  destruct (introJs w) as [e|] eqn:He; [|left; eauto].
  destruct (options_step (_options e) i); [| |left; eauto];
    (destruct (document w _); [|right; left; reflexivity|left; eauto];
     destruct (_introItems e !! i) as [old|] eqn:Hi; [|left; eauto];
     right; right; by eexists e, _, old, _).
Qed.

(** X8. Re-binding touches one intro item and nothing else: the log, the
    flags, the props, the timers and the document are as before; of the
    engine only the item at the given index can differ, in its element
    and position; and when it throws, the world is as it was. *)
Theorem updateStepElement_frame w i :
  let w' := world_of (updateStepElement i w) in
  log w' = log w /\ isVisible w' = isVisible w /\ isConfigured w' = isConfigured w /\
  props w' = props w /\ timers w' = timers w /\ document w' = document w /\
  (forall err w'', updateStepElement i w = Throw err w'' -> w'' = w) /\
  (introJs w = None -> introJs w' = None) /\
  (forall e, introJs w = Some e ->
     exists e', introJs w' = Some e' /\
       _currentStep e' = _currentStep e /\ _options e' = _options e /\
       hidden e' = hidden e /\
       length (_introItems e') = length (_introItems e) /\
       (forall j, j <> i -> _introItems e' !! j = _introItems e !! j) /\
       item_rest <$> _introItems e' !! i = item_rest <$> _introItems e !! i).
Proof.
  intros w'. unfold w'.
  destruct (updateStepElement_cases w i)
    as [[err Hr]|[Hr|(e & el & old & pos & He & Hi & Hr)]]; rewrite Hr; simpl.
  - repeat split; try done; [congruence|].
    intros e0 He0. exists e0. by repeat split.
  - repeat split; try done. intros e0 He0. exists e0. by repeat split.
  - repeat split; try done; [congruence|].
    intros e0 He0. assert (e0 = e) as -> by congruence.
    eexists. split; [reflexivity|]. simpl.
    split; [reflexivity|]. split; [reflexivity|]. split; [reflexivity|].
    split; [apply length_insert|]. split.
    + intros j Hj. by apply list_lookup_insert_ne.
    + rewrite list_lookup_insert_eq by (by eapply lookup_lt_Some). by rewrite Hi.
Qed.

(** X9. Re-binding is idempotent: a second re-binding of the same index,
    the document being the same, returns with the world as the first one
    left it. *)
Theorem updateStepElement_idempotent w i w' :
  updateStepElement i w = Ret tt w' ->
  updateStepElement i w' = Ret tt w'.
Proof.
  unfold updateStepElement. intros Hr.
  destruct (introJs w) as [e|] eqn:He; [|discriminate].
  destruct (options_step (_options e) i) as [s| |] eqn:Hs; [| |discriminate].
  - destruct (document w (element s)) as [el| |] eqn:Hq; [| |discriminate].
    + destruct (_introItems e !! i) as [old|] eqn:Hi; [|discriminate].
      injection Hr as <-. simpl. rewrite Hs, Hq.
      rewrite list_lookup_insert_eq by (by eapply lookup_lt_Some). simpl.
      by rewrite list_insert_insert_eq.
    + injection Hr as <-. by rewrite He, Hs, Hq.
  - destruct (document w None) as [el| |] eqn:Hq; [| |discriminate].
    + destruct (_introItems e !! i) as [old|] eqn:Hi; [|discriminate].
      injection Hr as <-. simpl. rewrite Hs, Hq.
      rewrite list_lookup_insert_eq by (by eapply lookup_lt_Some). simpl.
      by rewrite list_insert_insert_eq.
    + injection Hr as <-. by rewrite He, Hs, Hq.
Qed.

(** X10. Where re-binding fails.  It throws a [TypeError] when the
    engine's options have no [steps], when the index is past the end of
    the configured steps, and when the element is found but the engine
    holds no intro item at the index; it throws the document's error when
    the step's selector is invalid.  In each case the world is
    untouched. *)
Theorem updateStepElement_errors w e i :
  introJs w = Some e ->
  (_options e !! "steps" = None -> updateStepElement i w = Throw TypeError w) /\
  (forall l, _options e !! "steps" = Some (OSteps l) -> length l <= i ->
             updateStepElement i w = Throw TypeError w) /\
  (forall l cfg, _options e !! "steps" = Some (OSteps l) -> l !! i = Some cfg ->
                 document w (element cfg) = QInvalid ->
                 updateStepElement i w = Throw SyntaxError w) /\
  (forall l cfg el, _options e !! "steps" = Some (OSteps l) -> l !! i = Some cfg ->
                    document w (element cfg) = QElem el ->
                    _introItems e !! i = None ->
                    updateStepElement i w = Throw TypeError w).
Proof.
  intros He. unfold updateStepElement, options_step. rewrite He.
  split; [by intros ->|]. split; [|split].
  - intros l -> Hi. by rewrite (lookup_ge_None_2 l i Hi).
  - intros l cfg -> -> Hq. by rewrite Hq.
  - intros l cfg el -> -> Hq Hi. by rewrite Hq, Hi.
Qed.

(** *** More on configuration *)

(** X11. Sanitizing leaves no React element for the engine: after it no
    step has one as its [intro]; steps without one come through
    unchanged, so that sanitizing twice is sanitizing once; and the
    steps stay as many, in the same order, with their elements. *)
Theorem sanitize_leaves_no_element (l : list Step) :
  Forall plain_intro (map sanitize l) /\
  map sanitize (map sanitize l) = map sanitize l /\
  (Forall plain_intro l -> map sanitize l = l) /\
  map element (map sanitize l) = map element l.
Proof.
  assert (Hplain : forall s, plain_intro (sanitize s)).
  { intros s. unfold plain_intro, sanitize. by destruct (intro s) eqn:Hi; simpl; rewrite ?Hi. }
  assert (Hid : forall l, Forall plain_intro l -> map sanitize l = l).
  { induction 1 as [|s l' Hs _ IH]; [reflexivity|].
    simpl. by rewrite IH, (sanitize_other s Hs). }
  split; [|split; [|split]].
  - induction l as [|s l IH]; constructor; auto.
  - apply Hid. induction l as [|s l IH]; constructor; auto.
  - apply Hid.
  - induction l as [|s l IH]; [reflexivity|]. simpl. rewrite IH. f_equal.
    unfold sanitize. by destruct (intro s).
Qed.

(** *** The verdicts the engine gets *)

Lemma strict_false_inv v : strict_false v = true -> v = JBool false.
Proof. by destruct v as [| |[]| |]. Qed.

(** X12. The component never refuses on its own.  A handler returns
    exactly [false] to the engine only when the consumer's callback was
    asked and answered [false]: [onBeforeChange] with the tour visible,
    or [onBeforeExit]. *)
Theorem handlers_refuse_only_for_consumer ev w v w' :
  handler ev w = Ret v w' ->
  strict_false v = true ->
  exists e,
    introJs w = Some e /\
    ((exists el f, ev = EvBeforeChange el /\ isVisible w = true /\
                   onBeforeChange (props w) = Some f /\
                   f (_currentStep e) el = JBool false) \/
     (exists f, ev = EvBeforeExit /\ onBeforeExit (props w) = Some f /\
                f (_currentStep e) = JBool false)).
Proof.
  intros Hr Hv. apply strict_false_inv in Hv. subst v.
  destruct ev as [| |el|el|el|]; simpl in Hr.
  - unfold handle_onExit, bind, write_isVisible, currentStep, emit, ret in Hr. simpl in Hr.
    destruct (introJs w); discriminate.
  - unfold handle_onBeforeExit, bind, currentStep, emit, ret in Hr.
    destruct (onBeforeExit (props w)) as [f|] eqn:Hf; [|discriminate].
    destruct (introJs w) as [e|] eqn:He; [|discriminate].
    simpl in Hr. injection Hr as Hr _. exists e. split; [reflexivity|].
    right. by exists f.
  - unfold handle_onBeforeChange, bind, currentStep, emit, ret in Hr.
    destruct (isVisible w) eqn:Hvis; [|discriminate]. simpl in Hr.
    destruct (onBeforeChange (props w)) as [f|] eqn:Hf; [|discriminate].
    destruct (introJs w) as [e|] eqn:He; [|discriminate]. simpl in Hr.
    exists e. split; [reflexivity|]. left. exists el, f.
    repeat split; try done.
    destruct (strict_false (f (_currentStep e) el));
      [destruct (onPreventChange (props w))|]; simpl in Hr; congruence.
  - unfold handle_onAfterChange, bind, currentStep, emit, ret in Hr.
    destruct (isVisible w); simpl in Hr; [|discriminate].
    destruct (onAfterChange (props w)); [|discriminate].
    destruct (introJs w); discriminate.
  - unfold handle_onChange, bind, currentStep, emit, ret in Hr.
    destruct (isVisible w); simpl in Hr; [|discriminate].
    destruct (onChange (props w)); [|discriminate].
    destruct (introJs w); discriminate.
  - unfold handle_onComplete, bind, emit, ret in Hr.
    destruct (onComplete (props w)); discriminate.
Qed.

(** *** Properties kept over a whole life *)

Lemma respects_emit P a :
  respects P -> around_call a = true -> preserves P (emit a).
Proof. intros Rp Ha w Hw. by apply (rp_entry P Rp). Qed.

Lemma respects_write_isVisible P b : respects P -> preserves P (write_isVisible b).
Proof. intros Rp w Hw. by apply (rp_isVisible P Rp). Qed.

Lemma respects_call P op method :
  respects P -> around_call (Call op) = true -> preserves P (call op method).
Proof.
  intros Rp Hop w Hw. unfold call. destruct (introJs w) as [e|]; [|exact Hw].
  revert w Hw. change (preserves P (emit (Call op) >> run (method e) >> emit (Return op))).
  apply preserves_bind; [by apply respects_emit|intros _].
  apply preserves_bind; [apply (rp_run P Rp)|intros _].
  by apply respects_emit.
Qed.

Lemma configureIntroJs_ret w a w1 :
  configureIntroJs w = Ret a w1 ->
  isConfigured w1 = true /\ 1 <= configure_runs (log w1).
Proof.
  unfold configureIntroJs. cbv zeta. set (o := merged_options _ _).
  destruct (introJs w) as [e|] eqn:He.
  - destruct (call_spec (OpSetOptions o) (eng_setOptions o) w e He) as (w2 & d & _ & R & C).
    unfold bind. rewrite C. unfold write_isConfigured. intros Hr. injection Hr as _ <-.
    split; [reflexivity|]. simpl. rewrite (rl_log _ _ _ R). simpl.
    rewrite !configure_runs_app.
    change (configure_runs [Call (OpSetOptions o)]) with 1. lia.
  - unfold bind. by rewrite call_headless.
Qed.

Lemma respects_configureIntroJs P : respects P -> preserves P configureIntroJs.
Proof.
  intros Rp w Hw.
  destruct (configureIntroJs w) as [a w1|err w1] eqn:Hr.
  - destruct (configureIntroJs_ret w a w1 Hr) as [_ Hn]. revert Hr.
    unfold configureIntroJs. cbv zeta. set (o := merged_options _ _).
    unfold bind.
    pose proof (respects_call P (OpSetOptions o) (eng_setOptions o) Rp eq_refl w Hw) as Hc.
    destruct (call (OpSetOptions o) (eng_setOptions o) w) as [[] w2|err w2];
      [|discriminate].
    unfold write_isConfigured. intros Hr. injection Hr as _ <-. simpl in *.
    apply (rp_isConfigured P Rp); [|exact Hc].
    rewrite configure_runs_app in Hn.
    change (configure_runs [Write_isConfigured true]) with 0 in Hn. lia.
  - revert Hr. unfold configureIntroJs. cbv zeta. set (o := merged_options _ _).
    unfold bind.
    pose proof (respects_call P (OpSetOptions o) (eng_setOptions o) Rp eq_refl w Hw) as Hc.
    destruct (call (OpSetOptions o) (eng_setOptions o) w) as [[] w2|err' w2];
      [discriminate|].
    intros Hr. injection Hr as _ <-. exact Hc.
Qed.

Lemma respects_renderSteps P :
  respects P ->
  preserves (fun w => P w /\ isConfigured w = true) renderSteps.
Proof.
  intros Rp w [Hw Hc]. split; [|by apply (preserves_renderSteps _ stable_isConfigured_true)].
  unfold renderSteps.
  destruct (enabled (props w) && (0 <? length (val (steps (props w))))
            && negb (isVisible w)) eqn:Hcond.
  - assert (Hv : isVisible w = false).
    { apply andb_prop in Hcond as [_ Hcond]. by apply negb_true_iff. }
    unfold call at 1. unfold bind at 1.
    destruct (introJs w) as [e|] eqn:He; [|exact Hw].
    pose proof (rp_start P Rp w Hv Hc Hw) as Hstart.
    unfold bind at 1. unfold emit at 1.
    revert Hstart. generalize (with_log (log w ++ [Call OpStart]) w) as w0.
    generalize (props w) as p. intros p.
    change (preserves P
      ((run (eng_start e) >> emit (Return OpStart)) >>
       write_isVisible true >>
       call (OpGoToStepNumber (initialStep p + 1)) (eng_goToStepNumber (initialStep p + 1)) >>
       match onStart p with
       | Some _ => let* i := currentStep in emit (Consumer (CbStart i))
       | None => ret tt
       end)).
    apply preserves_bind; [|intros _].
    { apply preserves_bind; [apply (rp_run P Rp)|intros _]. by apply respects_emit. }
    apply preserves_bind; [by apply respects_write_isVisible|intros _].
    apply preserves_bind; [by apply respects_call|intros _].
    destruct (onStart p); [|apply preserves_ret].
    apply preserves_bind; [apply preserves_currentStep|intros i].
    by apply respects_emit.
  - destruct (negb (enabled (props w)) && isVisible w); [|exact Hw].
    revert w Hw Hc Hcond. intros w Hw _ _. revert w Hw.
    change (preserves P (write_isVisible false >> call OpExit eng_exit)).
    apply preserves_bind; [by apply respects_write_isVisible|intros _].
    by apply respects_call.
Qed.

(** Configuration and then an evaluation of the visibility. *)
Lemma respects_configure_render P w :
  respects P -> P w ->
  match (configureIntroJs >> renderSteps) w with
  | Ret _ w1 => P w1 /\ isConfigured w1 = true
  | Throw _ w1 => P w1
  end.
Proof.
  intros Rp Hw. unfold bind.
  pose proof (respects_configureIntroJs P Rp w Hw) as Hc.
  destruct (configureIntroJs w) as [a w1|err w1] eqn:Hr; [|exact Hc].
  destruct (configureIntroJs_ret w a w1 Hr) as [Hconf _]. simpl in Hc.
  pose proof (respects_renderSteps P Rp w1 (conj Hc Hconf)) as Hrs.
  destruct (renderSteps w1); simpl in Hrs; tauto.
Qed.

Lemma respects_componentDidMount P : respects P -> preserves P componentDidMount.
Proof.
  intros Rp w Hw. unfold componentDidMount.
  destruct (enabled (props w)); [|exact Hw].
  pose proof (respects_configure_render P w Rp Hw) as H.
  destruct ((configureIntroJs >> renderSteps) w); simpl; tauto.
Qed.

Lemma respects_componentDidUpdate P prevProps :
  respects P -> preserves P (componentDidUpdate prevProps).
Proof.
  intros Rp w Hw. unfold componentDidUpdate. cbv zeta.
  set (c1 := negb (isConfigured w) || _ || _).
  set (c2 := negb (eqb _ _)).
  assert (H1 : match (if c1 then configureIntroJs >> renderSteps else ret tt) w with
               | Ret _ w1 => P w1 /\ isConfigured w1 = true
               | Throw _ w1 => P w1
               end).
  { destruct c1 eqn:Hc1; [by apply respects_configure_render|].
    simpl. split; [exact Hw|]. subst c1.
    apply orb_false_elim in Hc1 as [Hc1 _]. apply orb_false_elim in Hc1 as [Hc1 _].
    by apply negb_false_iff. }
  unfold bind at 1.
  destruct ((if c1 then configureIntroJs >> renderSteps else ret tt) w) as [a w1|err w1];
    [|exact H1].
  destruct c2; [|exact (proj1 H1)].
  exact (proj1 (respects_renderSteps P Rp w1 H1)).
Qed.

Lemma respects_exec P op : respects P -> preserves P (exec op).
Proof.
  intros Rp w Hw. destruct op as [p|act| |i|d|]; simpl.
  - apply respects_componentDidUpdate; [done|]. by apply rp_props.
  - destruct (introJs w); [|exact Hw]. by apply (rp_run P Rp).
  - destruct (timers w) as [|t ts] eqn:Ht; [exact Hw|]. by apply (rp_fire P Rp).
  - by apply (rp_rebind P Rp).
  - by apply rp_document.
  - unfold componentWillUnmount. by apply respects_call.
Qed.

Lemma respects_lifetime P isServer p doc ops :
  respects P -> P (constructor isServer p doc) -> P (lifetime isServer p doc ops).
Proof.
  intros Rp H0. unfold lifetime.
  assert (Hm : P (mount isServer p doc)).
  { unfold mount. by apply respects_componentDidMount. }
  revert Hm. unfold execs. generalize (mount isServer p doc) as w.
  induction ops as [|op ops IH]; intros w Hw; [exact Hw|].
  simpl. apply IH. by apply respects_exec.
Qed.

(** *** Guarded starts *)

Lemma starts_guarded_snoc l a :
  starts_guarded l ->
  (a = Call OpStart -> vis_of false l = false /\ 1 <= configure_runs l) ->
  starts_guarded (l ++ [a]).
Proof.
  intros Hl Ha pre post Heq.
  destruct post as [|b post _] using rev_ind.
  - apply app_inj_tail in Heq as [-> ->]. by apply Ha.
  - rewrite app_comm_cons, app_assoc in Heq.
    apply app_inj_tail in Heq as [Heq _]. exact (Hl pre post Heq).
Qed.

Lemma starts_guarded_relay l d :
  starts_guarded l -> Forall (fun a => relay_made a = true) d -> starts_guarded (l ++ d).
Proof.
  intros Hl Hd. revert l Hl. induction Hd as [|a d Ha _ IH]; intros l Hl.
  - by rewrite app_nil_r.
  - rewrite (cons_middle a l d), app_assoc. apply IH.
    apply starts_guarded_snoc; [exact Hl|]. intros ->. discriminate.
Qed.

Lemma configure_runs_snoc l a :
  configure_runs l <= configure_runs (l ++ [a]).
Proof. rewrite configure_runs_app. lia. Qed.

Lemma guarded_entry w a :
  (forall b, vis_step b a = b) -> a <> Call OpStart ->
  guarded w -> guarded (with_log (log w ++ [a]) w).
Proof.
  intros Hvis Ha (V & C & G). unfold guarded. simpl.
  split; [by rewrite vis_of_app; simpl; rewrite Hvis|].
  split; [intros Hc; specialize (C Hc); pose proof (configure_runs_snoc (log w) a); lia|].
  apply starts_guarded_snoc; [exact G|]. intros ->. done.
Qed.

Lemma respects_guarded : respects guarded.
Proof.
  split.
  - intros r w (V & C & G). destruct (run_relayed r w) as (w' & d & Hr & R).
    rewrite Hr. simpl. unfold guarded.
    rewrite (rl_log _ _ _ R), (rl_isVisible _ _ _ R), (rl_isConfigured _ _ _ R).
    split; [by rewrite vis_of_app, V|].
    split; [intros Hc; specialize (C Hc); rewrite configure_runs_app; lia|].
    apply starts_guarded_relay; [exact G|exact (rl_made _ _ _ R)].
  - intros w a Ha Hw. apply guarded_entry; [| |exact Hw].
    + intros b. by destruct a as [[]| | |[]| | |].
    + intros ->. discriminate.
  - intros w Hv Hc (V & C & G). unfold guarded. simpl.
    split; [by rewrite vis_of_app|].
    split; [intros _; specialize (C Hc); rewrite configure_runs_app; lia|].
    apply starts_guarded_snoc; [exact G|]. intros _. split; [by rewrite <- V|by apply C].
  - intros w b (V & C & G). unfold guarded. simpl.
    split; [by rewrite vis_of_app|].
    split; [intros Hc; specialize (C Hc); rewrite configure_runs_app; lia|].
    apply starts_guarded_snoc; [exact G|]. intros. discriminate.
  - intros w Hn (V & C & G). unfold guarded. simpl.
    split; [by rewrite vis_of_app|].
    split; [intros _; rewrite configure_runs_app; lia|].
    apply starts_guarded_snoc; [exact G|]. intros. discriminate.
  - intros w p Hw. exact Hw.
  - intros w t ts Ht Hw. unfold fire, bind, currentStep, emit. simpl.
    destruct (introJs w) as [e|]; simpl; [|exact Hw].
    apply (guarded_entry (with_timers ts w)); [done|discriminate|exact Hw].
  - intros i w (V & C & G).
    destruct (updateStepElement_cases w i)
      as [[err Hr]|[Hr|(e & el & old & pos & He & Hi & Hr)]]; rewrite Hr;
      unfold guarded; simpl; tauto.
  - intros w d Hw. exact Hw.
Qed.

(** X13. Over a whole life, on a server or in a browser, teardown
    included: the engine's start is only ever called while the flag is
    down and after the engine has been configured.  (The flag, not the
    engine's tour: after a refused exit the tour is still up with the
    flag down, and the next enabling update calls start again.) *)
Theorem start_only_hidden_and_configured isServer p doc ops :
  forall pre post,
    log (lifetime isServer p doc ops) = pre ++ Call OpStart :: post ->
    vis_of false pre = false /\ 1 <= configure_runs pre.
Proof.
  assert (H : guarded (lifetime isServer p doc ops)).
  { apply respects_lifetime; [apply respects_guarded|].
    split; [reflexivity|]. split; [discriminate|].
    intros pre post Heq. by destruct pre. }
  exact (proj2 (proj2 H)).
Qed.

(** *** Timers *)

Lemma tally_snoc f l a : tally f (l ++ [a]) = tally f l + (if f a then 1 else 0).
Proof. rewrite tally_app. simpl. lia. Qed.

Lemma timers_accounted_entry w a :
  is_setTimeout a = false -> is_preventChange a = false ->
  timers_accounted w -> timers_accounted (with_log (log w ++ [a]) w).
Proof.
  intros Hs Hp [He Ht]. split; [exact He|]. simpl.
  unfold timers_set, prevents in *. rewrite !tally_snoc, Hs, Hp. lia.
Qed.

Lemma respects_timers_accounted : respects timers_accounted.
Proof.
  split.
  - intros r w [He Ht]. destruct (run_facts r w) as (w' & d & Hr & L & (ts & T & N) & Np & _).
    destruct (run_relayed r w) as (w2 & d2 & Hr2 & R).
    rewrite Hr in Hr2. injection Hr2 as <-.
    rewrite Hr. simpl. split; [exact (rl_introJs _ _ _ R)|].
    rewrite L, T. unfold timers_set, prevents in *.
    rewrite !tally_app, length_app. lia.
  - intros w a Ha Hw. apply timers_accounted_entry; [| |exact Hw];
      by destruct a as [[]| | |[]| | |].
  - intros w _ _ Hw. by apply timers_accounted_entry.
  - intros w b [He Ht]. split; [exact He|]. simpl.
    unfold timers_set, prevents in *. rewrite !tally_snoc. simpl. lia.
  - intros w _ [He Ht]. split; [exact He|]. simpl.
    unfold timers_set, prevents in *. rewrite !tally_snoc. simpl. lia.
  - intros w p Hw. exact Hw.
  - intros w t ts Htw [[e He] Ht]. rewrite (fire_spec t (with_timers ts w) e He). simpl.
    split; [eauto|]. unfold timers_set, prevents in *.
    change (log (with_log (log w ++ [Consumer (CbPreventChange (_currentStep e))])
                   (with_timers ts w)))
      with (log w ++ [Consumer (CbPreventChange (_currentStep e))]).
    change (timers (with_log (log w ++ [Consumer (CbPreventChange (_currentStep e))])
                      (with_timers ts w))) with ts.
    rewrite !tally_snoc. simpl. rewrite Htw in Ht. simpl in Ht. lia.
  - intros i w [He Ht].
    destruct (updateStepElement_cases w i)
      as [[err Hr]|[Hr|(e & el & old & pos & He' & Hi & Hr)]]; rewrite Hr;
      split; simpl; eauto.
  - intros w d Hw. exact Hw.
Qed.

(** X14. With the engine installed, over a whole life: every timer the
    component has set has either fired, and then called
    [onPreventChange] once, or is still pending; prevent-change is never
    called otherwise. *)
Theorem timers_fire_once p doc ops :
  let w := lifetime false p doc ops in
  timers_set (log w) = prevents (log w) + length (timers w).
Proof.
  assert (H : timers_accounted (lifetime false p doc ops)).
  { apply respects_lifetime; [apply respects_timers_accounted|]. split; simpl; eauto. }
  exact (proj2 H).
Qed.

(** *** The flag and [enabled] *)

Lemma flag_stays_down op w :
  is_update op = false ->
  isVisible w = false ->
  isVisible (world_of (exec op w)) = false.
Proof.
  intros Hop Hv. destruct op as [p|act| |i|d|]; simpl in *; try discriminate.
  - destruct (introJs w); [|exact Hv].
    destruct (run_facts (act e) w) as (w' & d & Hr & _ & _ & _ & H).
    rewrite Hr. simpl. by apply H.
  - destruct (timers w) as [|t ts]; [exact Hv|].
    unfold fire, bind, currentStep, emit. simpl. by destruct (introJs w).
  - destruct (updateStepElement_cases w i)
      as [[err Hr]|[Hr|(e & el & old & pos & He & Hi & Hr)]]; by rewrite Hr.
  - exact Hv.
  - unfold componentWillUnmount.
    destruct (introJs w) as [e|] eqn:He; [|by rewrite call_headless].
    destruct (call_spec OpExit eng_exit w e He) as (w1 & d & _ & R & C).
    rewrite C. simpl. rewrite (rl_isVisible _ _ _ R). simpl. rewrite Hv.
    apply relay_made_keeps_hidden, (rl_made _ _ _ R).
Qed.

(** Whatever the flag was, after [renderSteps] it is down if the props
    are disabled. *)
Lemma renderSteps_flag w :
  is_Some (introJs w) ->
  exists w',
    renderSteps w = Ret tt w' /\ is_Some (introJs w') /\ props w' = props w /\
    (enabled (props w) = false -> isVisible w' = false).
Proof.
  intros He.
  destruct (renderSteps_summary w He) as (w' & d & Hr & St & _ & Hp & _).
  exists w'. split; [exact Hr|]. split; [exact (sp_introJs _ _ _ St)|].
  split; [exact Hp|]. intros Hen.
  destruct (isVisible w) eqn:Hv.
  - destruct He as [e He].
    destruct (renderSteps_hide w e He Hen Hv) as (w2 & d2 & Hr2 & _ & _ & _ & Hv2 & _).
    rewrite Hr in Hr2. by injection Hr2 as ->.
  - revert Hr. unfold renderSteps. rewrite Hen, Hv. simpl.
    intros Hr. by injection Hr as <-.
Qed.

Lemma headless_renderSteps w :
  introJs w = None -> isVisible w = false -> world_of (renderSteps w) = w.
Proof.
  intros He Hv. unfold renderSteps. rewrite Hv, andb_false_r. simpl.
  destruct (enabled (props w) && _ && true); [|reflexivity].
  unfold bind. by rewrite call_headless.
Qed.

Lemma headless_configure_render w :
  introJs w = None -> world_of ((configureIntroJs >> renderSteps) w) = w.
Proof.
  intros He. unfold bind at 1. unfold configureIntroJs, bind.
  by rewrite call_headless.
Qed.

Lemma componentDidUpdate_flag prevProps w :
  flag_backed (with_props prevProps w) ->
  flag_backed (world_of (componentDidUpdate prevProps w)).
Proof.
  intros Hq. unfold flag_backed in Hq. simpl in Hq.
  unfold componentDidUpdate. cbv zeta.
  set (c1 := negb (isConfigured w) || _ || _).
  destruct (introJs w) as [e|] eqn:He.
  - assert (H1 : exists w1,
               (if c1 then configureIntroJs >> renderSteps else ret tt) w = Ret tt w1 /\
               is_Some (introJs w1) /\ props w1 = props w /\
               (c1 = true -> enabled (props w) = false -> isVisible w1 = false) /\
               (c1 = false -> w1 = w)).
    { destruct c1.
      - destruct (configureIntroJs_effect w) as (w1 & d1 & Hr1 & _ & Hp1 & _ & He1 & _);
          [eauto|].
        destruct (renderSteps_flag w1 He1) as (w2 & Hr2 & He2 & Hp2 & Hv2).
        exists w2. unfold bind. rewrite Hr1, Hr2.
        split; [reflexivity|]. split; [exact He2|]. split; [congruence|].
        split; [|discriminate]. intros _ Hen. apply Hv2. congruence.
      - exists w. split; [reflexivity|]. split; [eauto|]. split; [reflexivity|].
        split; [discriminate|reflexivity]. }
    destruct H1 as (w1 & Hr1 & He1 & Hp1 & Hv1 & Hw1).
    unfold bind at 1. rewrite Hr1.
    destruct (negb (eqb (enabled prevProps) (enabled (props w)))) eqn:Hc2.
    + destruct (renderSteps_flag w1 He1) as (w2 & Hr2 & He2 & Hp2 & Hv2).
      rewrite Hr2. simpl. intros Hv. split; [|exact He2].
      destruct (enabled (props w2)) eqn:Hen; [reflexivity|].
      rewrite Hv2 in Hv; [discriminate|congruence].
    + simpl. intros Hv. split; [|exact He1].
      destruct (enabled (props w1)) eqn:Hen; [reflexivity|].
      destruct c1 eqn:Hc1.
      * rewrite Hv1 in Hv; [discriminate|reflexivity|congruence].
      * rewrite (Hw1 eq_refl) in *.
        apply negb_false_iff, eqb_prop in Hc2.
        destruct (Hq Hv) as [Hq' _]. congruence.
  - assert (Hv : isVisible w = false).
    { destruct (isVisible w); [|reflexivity]. destruct Hq as [_ [e' He']]; congruence. }
    assert (H1 : world_of ((if c1 then configureIntroJs >> renderSteps else ret tt) w) = w).
    { destruct c1; [by apply headless_configure_render|reflexivity]. }
    unfold bind at 1.
    destruct ((if c1 then configureIntroJs >> renderSteps else ret tt) w) as [[] w1|err w1];
      simpl in H1; subst w1; simpl.
    + destruct (negb (eqb _ _)).
      * rewrite headless_renderSteps by assumption. intros Hv'. congruence.
      * simpl. intros Hv'. congruence.
    + intros Hv'. congruence.
Qed.

Lemma componentDidMount_flag w :
  flag_backed w -> flag_backed (world_of (componentDidMount w)).
Proof.
  intros Hq. unfold componentDidMount.
  destruct (enabled (props w)) eqn:Hen; [|exact Hq].
  destruct (introJs w) as [e|] eqn:He.
  - destruct (componentDidMount_summary w) as (w' & d & Hr & St & _ & Hp & _); [eauto|].
    revert Hr. unfold componentDidMount. rewrite Hen. intros ->. simpl.
    intros _. split; [congruence|exact (sp_introJs _ _ _ St)].
  - rewrite headless_configure_render by assumption. exact Hq.
Qed.

Lemma exec_flag op w : flag_backed w -> flag_backed (world_of (exec op w)).
Proof.
  intros Hq. destruct (is_update op) eqn:Hop.
  - destruct op as [p| | | | |]; try discriminate. simpl.
    apply componentDidUpdate_flag. exact Hq.
  - intros Hv'.
    assert (Hv : isVisible w = true).
    { destruct (isVisible w) eqn:Hv; [reflexivity|].
      rewrite (flag_stays_down op w Hop Hv) in Hv'. discriminate. }
    destruct (Hq Hv) as [Hen He].
    destruct (is_unmount op) eqn:Hun.
    + destruct op; try discriminate. simpl. unfold componentWillUnmount.
      destruct He as [e He].
      destruct (call_spec OpExit eng_exit w e He) as (w1 & d & _ & R & C).
      rewrite C. simpl. rewrite (rl_props _ _ _ R). simpl.
      split; [exact Hen|exact (rl_introJs _ _ _ R)].
    + destruct (exec_summary op w Hun He) as (d & St & _ & Hp & _).
      rewrite Hp. split; [by destruct op|exact (sp_introJs _ _ _ St)].
Qed.

(** *** Who raises the flag *)

(** X15. Only a mount or an update raises the flag: an engine reaction,
    a timer, a re-binding, a change of the document and teardown all
    leave a flag that is down, down. *)
Theorem only_updates_raise_flag op w :
  is_update op = false ->
  isVisible w = false ->
  isVisible (world_of (exec op w)) = false.
Proof. apply flag_stays_down. Qed.

(** X16. At the end of every operation of a life, on a server or in a
    browser, a flag that is up has enabled props and an installed engine
    behind it: with disabled props, and without an engine, [isVisible] is
    false. *)
Theorem visible_only_while_enabled isServer p doc ops :
  let w := lifetime isServer p doc ops in
  (enabled (props w) = false -> isVisible w = false) /\
  (introJs w = None -> isVisible w = false).
Proof.
  assert (H : flag_backed (lifetime isServer p doc ops)).
  { unfold lifetime.
    assert (Hm : flag_backed (mount isServer p doc)).
    { apply componentDidMount_flag. intros Hv. discriminate. }
    revert Hm. unfold execs. generalize (mount isServer p doc) as w.
    induction ops as [|op ops IH]; intros w Hw; [exact Hw|].
    simpl. apply IH. by apply exec_flag. }
  cbv zeta. split; intros Hn; destruct (isVisible _) eqn:Hv; try reflexivity;
    destruct (H Hv) as [Hen [e He]]; congruence.
Qed.

(** *** Exits and starts *)

Lemma exits_app d1 d2 : exits (d1 ++ d2) = exits d1 + exits d2.
Proof. apply tally_app. Qed.

Lemma covered_configureIntroJs w :
  exits_covered w -> exists w', configureIntroJs w = Ret tt w' /\ exits_covered w'.
Proof.
  intros [He Hn].
  destruct (configureIntroJs_effect w He)
    as (w' & d & Hr & Hl & _ & _ & He' & Hs & Hx & _ & Hv).
  exists w'. split; [exact Hr|]. split; [exact He'|].
  rewrite Hl, exits_app, starts_app, Hs, Hx, Hv.
  destruct (isVisible w); simpl; [destruct (negb _)|]; simpl; lia.
Qed.

Lemma covered_renderSteps w :
  exits_covered w -> exists w', renderSteps w = Ret tt w' /\ exits_covered w'.
Proof.
  intros [He Hn].
  destruct (renderSteps_effect w He)
    as (w' & d & Hr & Hl & _ & _ & He' & Hs & Hx & _ & _).
  exists w'. split; [exact Hr|]. split; [exact He'|].
  rewrite Hl, exits_app, starts_app, Hs, Hx.
  destruct (enabled (props w)) eqn:Hen; simpl.
  - rewrite Nat.add_0_r.
    destruct (has_steps (props w) && negb (isVisible w)) eqn:Hc.
    + apply andb_prop in Hc as [_ Hv]. apply negb_true_iff in Hv. rewrite Hv in Hn.
      destruct (isVisible w'); lia.
    + revert Hr. unfold renderSteps. fold (has_steps (props w)).
      rewrite Hen. simpl. rewrite Hc. intros Hr. injection Hr as <-. lia.
  - destruct (renderSteps_flag w He) as (w2 & Hr2 & _ & _ & Hv2).
    rewrite Hr in Hr2. injection Hr2 as <-. rewrite (Hv2 Hen).
    destruct (isVisible w); simpl in *; lia.
Qed.

Lemma covered_configure_render w :
  exits_covered w ->
  exists w', (configureIntroJs >> renderSteps) w = Ret tt w' /\ exits_covered w'.
Proof.
  intros Hw. destruct (covered_configureIntroJs w Hw) as (w1 & Hr1 & Hw1).
  destruct (covered_renderSteps w1 Hw1) as (w2 & Hr2 & Hw2).
  exists w2. unfold bind. by rewrite Hr1.
Qed.

Lemma covered_componentDidUpdate prevProps w :
  exits_covered w -> exits_covered (world_of (componentDidUpdate prevProps w)).
Proof.
  intros Hw. unfold componentDidUpdate. cbv zeta.
  set (c1 := negb (isConfigured w) || _ || _).
  assert (H1 : exists w1,
             (if c1 then configureIntroJs >> renderSteps else ret tt) w = Ret tt w1 /\
             exits_covered w1).
  { destruct c1; [by apply covered_configure_render|by exists w]. }
  destruct H1 as (w1 & Hr1 & Hw1). unfold bind at 1. rewrite Hr1.
  destruct (negb (eqb _ _)); [|exact Hw1].
  destruct (covered_renderSteps w1 Hw1) as (w2 & Hr2 & Hw2). by rewrite Hr2.
Qed.

Lemma covered_componentDidMount w :
  exits_covered w -> exits_covered (world_of (componentDidMount w)).
Proof.
  intros Hw. unfold componentDidMount. destruct (enabled (props w)); [|exact Hw].
  destruct (covered_configure_render w Hw) as (w' & Hr & Hw'). by rewrite Hr.
Qed.

Lemma covered_exec op w :
  is_unmount op = false ->
  exits_covered w -> exits_covered (world_of (exec op w)).
Proof.
  intros Hop Hw. destruct op as [p|act| |i|d|]; simpl in *; try discriminate.
  - apply covered_componentDidUpdate. exact Hw.
  - destruct Hw as [[e He] Hn]. rewrite He.
    destruct (run_relayed (act e) w) as (w' & d & Hr & R). rewrite Hr. simpl.
    split; [exact (rl_introJs _ _ _ R)|].
    rewrite (rl_log _ _ _ R), exits_app, starts_app, (rl_isVisible _ _ _ R).
    rewrite (relay_made_no_start d), (relay_made_no_exit_call d) by exact (rl_made _ _ _ R).
    destruct (isVisible w) eqn:Hv.
    + destruct (vis_of true d); lia.
    + rewrite relay_made_keeps_hidden by exact (rl_made _ _ _ R). lia.
  - destruct (timers w) as [|t ts]; [exact Hw|].
    destruct Hw as [[e He] Hn]. rewrite (fire_spec t (with_timers ts w) e He). simpl.
    split; [eauto|].
    change (log (with_log (log w ++ [Consumer (CbPreventChange (_currentStep e))])
                   (with_timers ts w)))
      with (log w ++ [Consumer (CbPreventChange (_currentStep e))]).
    change (isVisible (with_log (log w ++ [Consumer (CbPreventChange (_currentStep e))])
                         (with_timers ts w)))
      with (isVisible w).
    rewrite exits_app, starts_app.
    change (exits [Consumer (CbPreventChange (_currentStep e))]) with 0.
    change (starts [Consumer (CbPreventChange (_currentStep e))]) with 0. lia.
  - destruct Hw as [He Hn].
    destruct (updateStepElement_cases w i)
      as [[err Hr]|[Hr|(e & el & old & pos & He' & Hi & Hr)]]; rewrite Hr;
      split; simpl; eauto.
  - exact Hw.
Qed.

(** X17. In a browser, before teardown, the component calls the engine's
    exit only for a tour it has started and still shows: at the end of
    every operation there are at least as many calls of start as calls
    of exit, and one more while the flag is up. *)
Theorem exits_never_exceed_starts p doc ops :
  Forall (fun op => is_unmount op = false) ops ->
  let w := lifetime false p doc ops in
  exits (log w) + (if isVisible w then 1 else 0) <= starts (log w).
Proof.
  intros Hops.
  assert (H : exits_covered (lifetime false p doc ops)).
  { unfold lifetime.
    assert (Hm : exits_covered (mount false p doc)).
    { apply covered_componentDidMount. split; simpl; [eauto|]. unfold exits, starts. simpl. lia. }
    revert Hm. unfold execs. generalize (mount false p doc) as w.
    induction Hops as [|op ops Hop _ IH]; intros w Hw; [exact Hw|].
    simpl. apply IH. by apply covered_exec. }
  exact (proj2 H).
Qed.

(** *** What the engine was last configured with *)

Lemma options_sent_app acc l1 l2 :
  options_sent acc (l1 ++ l2) = options_sent (options_sent acc l1) l2.
Proof. apply fold_left_app. Qed.

Lemma options_sent_quiet acc d : configure_runs d = 0 -> options_sent acc d = acc.
Proof.
  unfold configure_runs. induction d as [|a d IH]; [reflexivity|].
  destruct (is_setOptions a) eqn:Ha.
  - rewrite filter_cons_True by exact Ha. discriminate.
  - rewrite filter_cons_False by (rewrite Ha; discriminate).
    intros Hd. simpl. rewrite <- (IH Hd) at 2.
    by destruct a as [[]| | | | | |].
Qed.

Lemma last_options_quiet l d :
  configure_runs d = 0 -> last_options (l ++ d) = last_options l.
Proof. intros Hd. unfold last_options. by rewrite options_sent_app, options_sent_quiet. Qed.

Lemma configureIntroJs_last_options w :
  is_Some (introJs w) ->
  exists w',
    configureIntroJs w = Ret tt w' /\ is_Some (introJs w') /\ props w' = props w /\
    isConfigured w' = true /\
    last_options (log w') = Some (options_for (props w)).
Proof.
  intros [e He]. unfold configureIntroJs, options_for. cbv zeta.
  set (o := merged_options _ _).
  destruct (call_spec (OpSetOptions o) (eng_setOptions o) w e He) as (w1 & d & _ & R & C).
  unfold bind. rewrite C. unfold write_isConfigured. eexists. split; [reflexivity|].
  simpl. split; [exact (rl_introJs _ _ _ R)|]. split; [exact (rl_props _ _ _ R)|].
  split; [reflexivity|].
  rewrite (rl_log _ _ _ R). simpl. rewrite <- !app_assoc.
  rewrite (app_assoc (log w)).
  rewrite last_options_quiet.
  - unfold last_options. rewrite options_sent_app. reflexivity.
  - rewrite configure_runs_app, (relay_made_no_setOptions d (rl_made _ _ _ R)).
    reflexivity.
Qed.

Lemma renderSteps_last_options w :
  is_Some (introJs w) ->
  exists w',
    renderSteps w = Ret tt w' /\ is_Some (introJs w') /\ props w' = props w /\
    isConfigured w' = isConfigured w /\
    last_options (log w') = last_options (log w).
Proof.
  intros He.
  destruct (renderSteps_summary w He) as (w' & d & Hr & St & Hn & Hp & Hc).
  exists w'. split; [exact Hr|]. split; [exact (sp_introJs _ _ _ St)|].
  split; [exact Hp|]. split; [exact Hc|].
  rewrite (sp_log _ _ _ St). by apply last_options_quiet.
Qed.

Lemma configure_render_in_sync w :
  is_Some (introJs w) ->
  exists w',
    (configureIntroJs >> renderSteps) w = Ret tt w' /\ props w' = props w /\
    isConfigured w' = true /\ in_sync w'.
Proof.
  intros He.
  destruct (configureIntroJs_last_options w He) as (w1 & Hr1 & He1 & Hp1 & Hc1 & Hl1).
  destruct (renderSteps_last_options w1 He1) as (w2 & Hr2 & He2 & Hp2 & Hc2 & Hl2).
  exists w2. unfold bind. rewrite Hr1. split; [exact Hr2|]. split; [congruence|].
  split; [congruence|]. split; [exact He2|].
  rewrite Hc2, Hc1, Hl2, Hl1. congruence.
Qed.

Lemma in_sync_componentDidMount w :
  in_sync w -> in_sync (world_of (componentDidMount w)).
Proof.
  intros Hw. unfold componentDidMount. destruct (enabled (props w)); [|exact Hw].
  destruct (configure_render_in_sync w (proj1 Hw)) as (w' & Hr & _ & _ & Hw').
  by rewrite Hr.
Qed.

Lemma in_sync_componentDidUpdate prevProps w :
  in_sync (with_props prevProps w) ->
  same_content prevProps (props w) ->
  in_sync (world_of (componentDidUpdate prevProps w)).
Proof.
  intros [He Hl] Hsame. simpl in He, Hl.
  unfold componentDidUpdate. cbv zeta.
  set (c1 := negb (isConfigured w) || _ || _).
  assert (H1 : exists w1,
             (if c1 then configureIntroJs >> renderSteps else ret tt) w = Ret tt w1 /\
             props w1 = props w /\ in_sync w1).
  { destruct c1 eqn:Hc1.
    - destruct (configure_render_in_sync w He) as (w1 & Hr1 & Hp1 & _ & Hw1). eauto.
    - exists w. split; [reflexivity|]. split; [reflexivity|]. split; [exact He|].
      subst c1. rewrite <- orb_assoc in Hc1.
      apply orb_false_elim in Hc1 as [Hc Hpair].
      apply negb_false_iff in Hc. rewrite Hc in Hl |- *.
      rewrite Hl. f_equal. unfold options_for.
      destruct (Hsame Hpair) as [-> ->]. reflexivity. }
  destruct H1 as (w1 & Hr1 & Hp1 & Hw1). unfold bind at 1. rewrite Hr1.
  destruct (negb (eqb _ _)); [|exact Hw1].
  destruct (renderSteps_last_options w1 (proj1 Hw1)) as (w2 & Hr2 & He2 & Hp2 & Hc2 & Hl2).
  rewrite Hr2. simpl. split; [exact He2|].
  rewrite Hl2, Hc2, Hp2. exact (proj2 Hw1).
Qed.

Lemma in_sync_exec op w :
  is_update op = false -> in_sync w -> in_sync (world_of (exec op w)).
Proof.
  intros Hop [He Hl].
  assert (H : exists d, log (world_of (exec op w)) = log w ++ d /\ configure_runs d = 0 /\
                        is_Some (introJs (world_of (exec op w))) /\
                        props (world_of (exec op w)) = props w /\
                        isConfigured (world_of (exec op w)) = isConfigured w).
  { destruct (is_unmount op) eqn:Hun.
    - destruct op; try discriminate. simpl. unfold componentWillUnmount.
      destruct He as [e He].
      destruct (call_spec OpExit eng_exit w e He) as (w1 & d & _ & R & C).
      rewrite C. simpl. exists ([Call OpExit] ++ d ++ [Return OpExit]).
      split; [rewrite (rl_log _ _ _ R); simpl; by rewrite <- !app_assoc|].
      split; [rewrite !configure_runs_app,
                (relay_made_no_setOptions d (rl_made _ _ _ R)); reflexivity|].
      split; [exact (rl_introJs _ _ _ R)|].
      split; [exact (rl_props _ _ _ R)|exact (rl_isConfigured _ _ _ R)].
    - destruct (exec_summary op w Hun He) as (d & St & Hn & Hp & Hc).
      exists d. split; [exact (sp_log _ _ _ St)|].
      destruct op; try discriminate; by (repeat split; try exact (sp_introJs _ _ _ St)). }
  destruct H as (d & Hlog & Hn & He' & Hp & Hc).
  split; [exact He'|]. rewrite Hlog, last_options_quiet, Hc, Hp by exact Hn. exact Hl.
Qed.

(** X18. In a browser, if steps and options are never changed in place
    (props with the same [steps] and [options] objects as the props
    before them hold the same steps and options), then at the end of
    every operation of a life: a configured component's engine was last
    configured with the options and the sanitized steps of the current
    props, and the engine of a component that is not configured has not
    been configured at all. *)
Theorem engine_options_in_sync p doc ops :
  unmutated p ops ->
  let w := lifetime false p doc ops in
  last_options (log w) =
  (if isConfigured w then Some (options_for (props w)) else None).
Proof.
  intros Hops.
  assert (H : in_sync (lifetime false p doc ops)).
  { unfold lifetime.
    assert (Hm : in_sync (mount false p doc) /\ props (mount false p doc) = p).
    { split.
      - apply in_sync_componentDidMount. split; simpl; eauto.
      - unfold mount.
        destruct (componentDidMount_summary (constructor false p doc))
          as (w' & d & Hr & _ & _ & Hp & _); [simpl; eauto|].
        by rewrite Hr. }
    revert Hm Hops. unfold execs. generalize (mount false p doc) as w.
    revert p. induction ops as [|op ops IH]; intros p w [Hw Hp] Hops; [exact Hw|].
    simpl. destruct (is_update op) eqn:Hop.
    - destruct op as [q| | | | |]; try discriminate. destruct Hops as [Hsame Hops].
      apply (IH q); [|exact Hops]. split.
      + simpl. apply in_sync_componentDidUpdate; [exact Hw|]. simpl. by rewrite Hp.
      + destruct (exec_runs (Update q) w (proj1 Hw)) as (_ & _ & Hq & _). exact Hq.
    - apply (IH p).
      + split; [by apply in_sync_exec|].
        destruct (exec_runs op w (proj1 Hw)) as (_ & _ & Hq & _).
        cbv zeta in Hq. rewrite Hq. by destruct op.
      + by destruct op. }
  exact (proj2 H).
Qed.

End Properties.

(** ** The component on the sample engine *)

#[local] Existing Instance Sample.carriers.
#[local] Existing Instance Sample.collaborators.

(** Mounted enabled with two steps and [initialStep = 1]: configured
    once, started, sent to step number 2, [onStart] called with the
    engine's current step. *)
Example mount_enabled_log :
  exists o,
    log (mount false Sample.greeting Sample.page) =
    [Call (OpSetOptions o); Return (OpSetOptions o); Write_isConfigured true;
     Call OpStart;
     Relay (EvBeforeChange "#title"); Relay (EvChange "#title");
     Relay (EvAfterChange "#title");
     Return OpStart; Write_isVisible true;
     Call (OpGoToStepNumber 2);
     Relay (EvBeforeChange "#menu"); Relay (EvChange "#menu");
     Relay (EvAfterChange "#menu");
     Return (OpGoToStepNumber 2);
     Consumer (CbStart (JNum 1))].
Proof. eexists. vm_compute. reflexivity. Qed.

(** A refused change: nothing but before-change within the turn, the
    prevent-change callback on the next. *)
Example refused_change_log :
  let w := Sample.showing (Sample.vetoing true 0 Sample.two_steps Sample.defaults) in
  log (execs [EngineActs Sample.next; Tick] w) =
  log w ++ [Relay (EvBeforeChange "#menu");
            Consumer (CbBeforeChange (JNum 1) "#menu"); SetTimeout;
            Consumer (CbPreventChange (JNum 0))].
Proof. vm_compute. reflexivity. Qed.

(** Disabling a running tour: flag first, then exit, then the relay. *)
Example disable_log :
  let w := Sample.showing (Sample.plain true 0 Sample.two_steps Sample.defaults) in
  let w' := execs [Update (Sample.plain false 0 Sample.two_steps Sample.defaults)] w in
  log w' = log w ++ [Write_isVisible false; Call OpExit;
                     Relay EvBeforeExit; Relay EvExit; Write_isVisible false;
                     Consumer (CbExit (JNum 0)); Return OpExit] /\
  isVisible w' = false.
Proof. vm_compute. split; reflexivity. Qed.

(** Re-binding before the engine has built its items throws. *)
Example rebind_before_start :
  updateStepElement 0 (Sample.configured Sample.greeting) =
  Throw TypeError (Sample.configured Sample.greeting).
Proof. vm_compute. reflexivity. Qed.

(** A React element among the steps reaches the engine as markup. *)
Example markup_reaches_engine :
  option_map (fun e => _options e !! "steps")
    (introJs (Sample.configured Sample.greeting)) =
  Some (Some (OSteps [Sample.S0;
                      mkStep (Some (Selector "#menu")) (IntroText "<p>b</p>")
                             (Some "left"%string) None None])).
Proof. vm_compute. reflexivity. Qed.

(** An element that appears after the tour has started is bound on
    request, with position ['auto'] as the step configures none. *)
Example late_element_rebound :
  let w := lifetime false (Sample.plain true 0 Sample.three_steps Sample.defaults)
             Sample.page [Rebind 2; DocumentChanges Sample.later_page; Rebind 2] in
  option_map (fun e => _introItems e !! 2) (introJs w) =
  Some (Some (mkItem (Some "#late"%string) (Some "auto"%string) tt)) /\
  log w = log (mount false (Sample.plain true 0 Sample.three_steps Sample.defaults) Sample.page).
Proof. vm_compute. split; reflexivity. Qed.

(** Enabled all along, steps going from none to some: the update starts
    the tour. *)
Example steps_arrive :
  let w := lifetime false (Sample.plain true 0 Sample.no_steps Sample.defaults) Sample.page
             [Update (Sample.plain true 0 Sample.two_steps Sample.defaults)] in
  starts (log (mount false (Sample.plain true 0 Sample.no_steps Sample.defaults) Sample.page)) = 0 /\
  starts (log w) = 1 /\ isVisible w = true /\ configure_runs (log w) = 2.
Proof. vm_compute. repeat split; reflexivity. Qed.

(** A vetoed exit: the flag is down and the engine still at its step. *)
Example vetoed_exit :
  let stay := mkProps false 0 Sample.two_steps Sample.defaults None Sample.silent
                (Some (fun _ => JBool false)) None None None None None in
  let w := execs [Update stay]
             (Sample.showing (Sample.plain true 0 Sample.two_steps Sample.defaults)) in
  isVisible w = false /\ option_map _currentStep (introJs w) = Some (JNum 0) /\
  relays (log w) = relays (log (Sample.showing stay)) ++ [EvBeforeExit].
Proof. vm_compute. repeat split; reflexivity. Qed.

(** Teardown calls the engine's exit without touching the flag: when the
    consumer vetoes the exit, the flag stays up. *)
Example teardown_leaves_flag :
  let stay := mkProps true 0 Sample.two_steps Sample.defaults None Sample.silent
                (Some (fun _ => JBool false)) None None None None None in
  let w := execs [Unmount] (Sample.showing stay) in
  isVisible w = true /\
  log w = log (Sample.showing stay) ++
          [Call OpExit; Relay EvBeforeExit; Consumer (CbBeforeExit (JNum 0)); Return OpExit].
Proof. vm_compute. split; reflexivity. Qed.

(** Steps changed in place go unnoticed: the update compares the
    objects, so the engine keeps the two steps it was configured with. *)
Example mutation_in_place_goes_unnoticed :
  let p := Sample.plain true 0 Sample.two_steps Sample.defaults in
  let q := Sample.plain true 0 (mkObj 1 [Sample.S0; Sample.S1; Sample.S2]) Sample.defaults in
  let w := lifetime false p Sample.page [Update q] in
  length (val (steps (props w))) = 3 /\
  configure_runs (log w) = 1 /\
  last_options (log w) = Some (options_for p).
Proof. vm_compute. repeat split; reflexivity. Qed.

(** Mounted with a consumer that refuses every change: the jump to the
    initial step 0 is refused, the engine is left at -1, and both
    [onStart] and, on the next turn, [onPreventChange] get -1. *)
Example refused_initial_step_log :
  let p := Sample.vetoing true 0 Sample.two_steps Sample.defaults in
  exists o,
    log (lifetime false p Sample.page [Tick]) =
    [Call (OpSetOptions o); Return (OpSetOptions o); Write_isConfigured true;
     Call OpStart;
     Relay (EvBeforeChange "#title"); Relay (EvChange "#title");
     Relay (EvAfterChange "#title");
     Return OpStart; Write_isVisible true;
     Call (OpGoToStepNumber 1);
     Relay (EvBeforeChange "#title");
     Consumer (CbBeforeChange (JNum 0) "#title"); SetTimeout;
     Return (OpGoToStepNumber 1);
     Consumer (CbStart (JNum (-1)));
     Consumer (CbPreventChange (JNum (-1)))].
Proof. eexists. vm_compute. reflexivity. Qed.

(** A refused exit leaves the engine's tour up with the flag down; the
    next enabling update calls start again, with no exit event between
    the two starts. *)
Example restart_after_refused_exit :
  let stay en := mkProps en 0 Sample.two_steps Sample.defaults None Sample.silent
                   (Some (fun _ => JBool false)) None None None None None in
  let w := lifetime false (stay true) Sample.page [Update (stay false); Update (stay true)] in
  starts (log w) = 2 /\ exit_relayed (log w) = false /\ isVisible w = true.
Proof. vm_compute. repeat split; reflexivity. Qed.

(** ** The theorems at concrete inputs *)

Lemma renderSteps_starts_tour_witness :
  let w := Sample.configured Sample.greeting in
  exists w' e' d1 d2,
    renderSteps w = Ret tt w' /\
    introJs w' = Some e' /\
    Forall (fun a => relay_made a = true) d1 /\
    Forall (fun a => relay_made a = true) d2 /\
    isVisible w' = vis_of true d2 /\
    log w' =
      log w ++ [Call OpStart] ++ d1 ++
      [Return OpStart; Write_isVisible true; Call (OpGoToStepNumber 2)] ++ d2 ++
      [Return (OpGoToStepNumber 2)] ++ [Consumer (CbStart (_currentStep e'))].
Proof.
  intros w.
  assert (He : is_Some (introJs w)) by (vm_compute; eauto).
  destruct He as [e He].
  destruct (renderSteps_starts_tour w e He) as (w' & e' & d1 & d2 & Hr & He' & M1 & M2 & Hv & Hl & _).
  - reflexivity.
  - vm_compute. discriminate.
  - reflexivity.
  - exists w', e', d1, d2. repeat (split; [assumption|]). exact Hl.
Defined.

Lemma isVisible_tracks_returned_start_witness :
  let p := Sample.vetoing false 0 Sample.two_steps Sample.defaults in
  let ops := [Update (Sample.vetoing true 0 Sample.two_steps Sample.defaults);
              EngineActs Sample.next; Tick;
              Update (Sample.vetoing false 0 Sample.two_steps Sample.defaults)] in
  let w := lifetime false p Sample.page (take 4 ops) in
  isVisible w = vis_of false (log w) /\
  (isVisible w = true <-> started_of false (log w) = true) /\
  (forall pre a post,
     log w = pre ++ a :: post -> hands_over a = true ->
     vis_of false (pre ++ [a]) = started_of false (pre ++ [a])).
Proof.
  intros p ops.
  apply (isVisible_tracks_returned_start p Sample.page ops 4).
  reflexivity.
Defined.

Lemma hidden_tour_absorbs_changes_witness :
  let w := Sample.configured (Sample.vetoing true 0 Sample.two_steps Sample.defaults) in
  (handler (EvBeforeChange "#title") w = Ret (JBool true) w /\
   handler (EvAfterChange "#title") w = Ret JUndefined w /\
   handler (EvChange "#title") w = Ret JUndefined w) /\
  exists w',
    handler EvExit w = Ret JUndefined w' /\
    isVisible w' = false /\
    log w' = log w ++ [Write_isVisible false; Consumer (CbExit JUndefined)] /\
    introJs w' = introJs w /\ isConfigured w' = isConfigured w /\
    props w' = props w /\ timers w' = timers w.
Proof.
  intros w.
  destruct (hidden_tour_absorbs_changes w
              (mkEngine JUndefined
                 (merged_options (val Sample.defaults) [Sample.S0; sanitize Sample.S1]) [] tt)
              "#title") as [Hgate Hexit].
  - vm_compute. reflexivity.
  - split; [apply Hgate; reflexivity|exact Hexit].
Defined.

Lemma renderSteps_hides_tour_witness :
  let w := Sample.showing (Sample.plain false 0 Sample.two_steps Sample.defaults) in
  exists e w' d,
    introJs w = Some e /\
    renderSteps w = Ret tt w' /\
    log w' = log w ++ [Write_isVisible false; Call OpExit] ++ d ++ [Return OpExit] /\
    Forall (fun a => relay_made a = true) d /\
    isVisible w' = false /\
    Forall (fun s => snd s = false)
      (sightings (eng_exit e)
         (with_log (log w ++ [Write_isVisible false; Call OpExit]) (with_isVisible false w))).
Proof.
  intros w.
  assert (He : introJs w =
               Some (mkEngine (JNum 0)
                       (merged_options (val Sample.defaults) [Sample.S0; sanitize Sample.S1]
                          ∪ ∅)
                       (map Sample.item_of [Sample.S0; sanitize Sample.S1]) tt)).
  { vm_compute. reflexivity. }
  destruct (renderSteps_hides_tour w _ He) as (w' & d & Hr & _ & Hl & Hm & Hv & _ & Hs).
  - reflexivity.
  - reflexivity.
  - eexists _, w', d. split; [exact He|]. auto.
Defined.

Lemma vetoed_change_defers_onPreventChange_witness :
  let w := Sample.showing (Sample.vetoing true 0 Sample.two_steps Sample.defaults) in
  let w1 := world_of (exec (EngineActs Sample.next) w) in
  let w2 := world_of (exec Tick w1) in
  log w1 = log w ++ [Relay (EvBeforeChange "#menu");
                     Consumer (CbBeforeChange (JNum 1) "#menu"); SetTimeout] /\
  log w2 = log w1 ++ [Consumer (CbPreventChange (JNum 0))] /\
  timers w2 = [].
Proof.
  intros w.
  set (e := mkEngine (JNum 0)
              (merged_options (val Sample.defaults) [Sample.S0; sanitize Sample.S1] ∪ ∅)
              (map Sample.item_of [Sample.S0; sanitize Sample.S1]) tt).
  set (e1 := Sample.set_cur e (JNum 1)).
  set (k := fun v : JsVal =>
              if strict_false v then Done e
              else Fire e1 (@EvChange Sample.carriers "#menu") (fun _ =>
                   Fire e1 (@EvAfterChange Sample.carriers "#menu") (fun _ => Done e1))).
  assert (He : introJs w = Some e) by (vm_compute; reflexivity).
  destruct (vetoed_change_defers_onPreventChange w e Sample.next e1 "#menu" k e
              (fun _ _ => JBool false) Sample.silent He)
    as (_ & Hl1 & _ & _ & _ & _ & _ & Ht3 & [_ Hl3] & _);
    [reflexivity|reflexivity|reflexivity|reflexivity|reflexivity|reflexivity|].
  specialize (Hl3 eq_refl).
  assert (Ht : timers w = []) by (vm_compute; reflexivity).
  rewrite Ht in Hl3, Ht3. split; [exact Hl1|]. split; [exact Hl3|exact Ht3].
Defined.

Lemma empty_tour_never_starts_witness :
  let w := constructor false (Sample.plain true 0 Sample.no_steps Sample.defaults) Sample.page in
  starts (log (Nat.iter 3 (fun w => world_of (renderSteps w)) w)) = starts (log w) /\
  starts (log (lifetime false (Sample.plain true 0 Sample.no_steps Sample.defaults) Sample.page
                 [Update (Sample.plain false 0 Sample.no_steps Sample.stale);
                  Update (Sample.plain true 0 Sample.no_steps Sample.stale)])) = 0.
Proof.
  intros w. destruct empty_tour_never_starts as [Hiter Hlife]. split.
  - apply Hiter. reflexivity.
  - apply Hlife; [reflexivity|]. repeat constructor.
Defined.

Lemma configureIntroJs_spec_witness :
  let w := constructor false (Sample.plain true 0 Sample.two_steps Sample.stale) Sample.page in
  let merged := merged_options (val Sample.stale) [Sample.S0; sanitize Sample.S1] in
  merged !! "steps" = Some (OSteps [Sample.S0; sanitize Sample.S1]) /\
  intro (sanitize Sample.S1) = IntroText "<p>b</p>" /\
  exists w1 w' d,
    run (Sample.setOptions merged (@mkEngine Sample.carriers JUndefined ∅ [] tt))
        (with_log (log w ++ [Call (OpSetOptions merged)]) w) = Ret tt w1 /\
    configureIntroJs w = Ret tt w' /\
    introJs w' = introJs w1 /\
    Forall (fun a => relay_made a = true) d /\
    log w' = log w ++ [Call (OpSetOptions merged)] ++ d ++
             [Return (OpSetOptions merged); Write_isConfigured true] /\
    isConfigured w' = true.
Proof.
  intros w merged.
  destruct (configureIntroJs_spec w (@mkEngine Sample.carriers JUndefined ∅ [] tt) eq_refl)
    as (_ & _ & Hsteps & _ & Hrun).
  split; [exact Hsteps|]. split; [reflexivity|exact Hrun].
Defined.

Lemma updateStepElement_spec_witness :
  let w := lifetime false (Sample.plain true 0 Sample.three_steps Sample.defaults) Sample.page [] in
  (exists e' its,
     updateStepElement 0 w = Ret tt (with_introJs (Some e') w) /\
     _introItems e' = mkItem (Some "#title") (Some "auto"%string) tt :: its) /\
  updateStepElement 2 w = Ret tt w.
Proof.
  intros w.
  assert (He : exists e, introJs w = Some e /\
                 _options e !! "steps" = Some (OSteps [Sample.S0; sanitize Sample.S1; Sample.S2]) /\
                 _introItems e = map Sample.item_of [Sample.S0; sanitize Sample.S1; Sample.S2]).
  { eexists. split; [vm_compute; reflexivity|]. split; reflexivity. }
  destruct He as (e & He & Ho & Hi). split.
  - destruct (updateStepElement_spec w e _ Sample.S0 0 He Ho eq_refl) as [Hfound _].
    destruct (Hfound "#title" (Sample.item_of Sample.S0)) as (pos & Hr & Hauto & _);
      [reflexivity|by rewrite Hi|].
    rewrite (Hauto eq_refl) in Hr. eexists _, _. split; [exact Hr|].
    simpl. rewrite Hi. reflexivity.
  - destruct (updateStepElement_spec w e _ Sample.S2 2 He Ho eq_refl) as [_ Hnull].
    apply Hnull. reflexivity.
Defined.

Lemma isConfigured_monotone_witness :
  let w := Sample.showing (Sample.plain true 0 Sample.two_steps Sample.defaults) in
  isConfigured (execs [Update (Sample.plain true 0 Sample.three_steps Sample.stale);
                       EngineActs Sample.next; Tick; Rebind 5; Unmount] w) = true /\
  configure_runs (log (world_of
     (exec (Update (Sample.plain false 3 Sample.two_steps Sample.defaults)) w))) =
  configure_runs (log w) + 0.
Proof.
  intros w. destruct isConfigured_monotone as (_ & _ & _ & Hseq & Hruns). split.
  - apply Hseq. reflexivity.
  - apply (Hruns w (Sample.plain false 3 Sample.two_steps Sample.defaults)).
    + vm_compute. eauto.
    + reflexivity.
Defined.

(** ** The further properties at concrete inputs *)

Lemma hidden_reaction_reaches_no_change_callback_witness :
  let w := Sample.configured (Sample.vetoing true 0 Sample.two_steps Sample.defaults) in
  let e := mkEngine JUndefined
             (merged_options (val Sample.defaults) [Sample.S0; sanitize Sample.S1]) [] tt in
  exists w' d,
    run (Sample.start e) w = Ret tt w' /\ log w' = log w ++ d /\
    Forall (fun a => change_made a = false) d /\
    timers w' = timers w /\ isVisible w' = false.
Proof.
  intros w e. apply (hidden_reaction_reaches_no_change_callback (Sample.start e) w).
  reflexivity.
Defined.

Lemma renderSteps_idempotent_witness :
  let w := Sample.configured Sample.greeting in
  let w' := world_of (renderSteps w) in
  renderSteps w' = Ret tt w'.
Proof.
  intros w w'. apply (renderSteps_idempotent w w').
  - vm_compute. eauto.
  - vm_compute. reflexivity.
  - intros _ _. vm_compute. reflexivity.
Defined.

Lemma update_effect_witness :
  let w := Sample.showing (Sample.plain true 0 Sample.two_steps Sample.defaults) in
  let p := Sample.plain false 0 Sample.two_steps Sample.defaults in
  let w' := world_of (exec (Update p) w) in
  starts (appended w w') = 0 /\ exits (appended w w') = 1 /\ isVisible w' = false.
Proof.
  intros w p w'.
  destruct (update_effect w p) as (_ & _ & H); [vm_compute; eauto|].
  destruct H as (Hs & He & Hv); [vm_compute; reflexivity|].
  split; [|split].
  - etrans; [exact Hs|]. vm_compute. reflexivity.
  - etrans; [exact He|]. vm_compute. reflexivity.
  - etrans; [exact Hv|]. vm_compute. reflexivity.
Defined.

Lemma mount_effect_witness :
  let w := mount false Sample.greeting Sample.page in
  isConfigured w = true /\ configure_runs (log w) = 1 /\ starts (log w) = 1 /\
  exits (log w) = 0 /\ isVisible w = true.
Proof.
  intros w.
  destruct (mount_effect Sample.greeting Sample.page) as (_ & Hc & Hn & Hs & He & Hv).
  split; [exact Hc|]. split; [exact Hn|]. split; [exact Hs|]. split; [exact He|].
  apply Hv. vm_compute. reflexivity.
Defined.

Lemma componentWillUnmount_effect_witness :
  let w := Sample.showing (Sample.plain true 0 Sample.two_steps Sample.defaults) in
  (exists w' d,
     componentWillUnmount w = Ret tt w' /\
     log w' = log w ++ [Call OpExit] ++ d ++ [Return OpExit] /\
     Forall (fun a => relay_made a = true) d /\
     isVisible w' = isVisible w && negb (exit_relayed d) /\
     isConfigured w' = isConfigured w /\ props w' = props w) /\
  componentWillUnmount (constructor true Sample.greeting Sample.page) =
  Throw TypeError (constructor true Sample.greeting Sample.page).
Proof.
  intros w. split.
  - destruct (componentWillUnmount_effect w) as [H _].
    eapply H. vm_compute. reflexivity.
  - destruct (componentWillUnmount_effect (constructor true Sample.greeting Sample.page))
      as [_ H].
    apply H. reflexivity.
Defined.

Lemma headless_is_inert_witness :
  let w := constructor true Sample.greeting Sample.page in
  configureIntroJs w = Throw TypeError w /\
  renderSteps w = Throw TypeError w /\
  componentDidMount w = Throw TypeError w /\
  componentDidUpdate Sample.greeting w = Throw TypeError w /\
  world_of (updateStepElement 0 w) = w /\
  log (lifetime true Sample.greeting Sample.page
         [Update (Sample.plain true 0 Sample.three_steps Sample.stale); Rebind 0; Unmount]) = [].
Proof.
  intros w. destruct headless_is_inert as [H1 H2].
  destruct (H1 w eq_refl eq_refl) as (Hc & Hr & Hm & Hu & _ & Hb).
  split; [exact Hc|]. split; [exact Hr|]. split; [exact Hm|].
  split; [by apply Hu|]. split; [apply (Hb 0)|].
  apply (H2 Sample.greeting Sample.page).
Defined.

Lemma updateStepElement_frame_witness :
  let w := lifetime false (Sample.plain true 0 Sample.three_steps Sample.defaults)
             Sample.page [DocumentChanges Sample.later_page] in
  let w' := world_of (updateStepElement 2 w) in
  log w' = log w /\ isVisible w' = isVisible w /\
  exists e e',
    introJs w = Some e /\ introJs w' = Some e' /\
    _options e' = _options e /\
    _introItems e' !! 0 = _introItems e !! 0 /\
    _introItems e' !! 1 = _introItems e !! 1.
Proof.
  intros w w'.
  destruct (updateStepElement_frame w 2) as (Hl & Hv & _ & _ & _ & _ & _ & _ & He).
  split; [exact Hl|]. split; [exact Hv|].
  assert (Hi : is_Some (introJs w)) by (vm_compute; eauto).
  destruct Hi as [e Hi].
  destruct (He e Hi) as (e' & He' & _ & Ho & _ & _ & Hj & _).
  exists e, e'. split; [exact Hi|]. split; [exact He'|]. split; [exact Ho|].
  split; apply Hj; lia.
Defined.

Lemma updateStepElement_idempotent_witness :
  let w := lifetime false (Sample.plain true 0 Sample.three_steps Sample.defaults)
             Sample.page [DocumentChanges Sample.later_page] in
  let w' := world_of (updateStepElement 2 w) in
  updateStepElement 2 w' = Ret tt w'.
Proof.
  intros w w'. apply (updateStepElement_idempotent w 2 w').
  vm_compute. reflexivity.
Defined.

Lemma updateStepElement_errors_witness :
  let w := Sample.configured Sample.greeting in
  updateStepElement 5 w = Throw TypeError w /\
  updateStepElement 0 w = Throw TypeError w /\
  updateStepElement 0 (constructor false Sample.greeting Sample.page) =
  Throw TypeError (constructor false Sample.greeting Sample.page).
Proof.
  intros w.
  set (e := mkEngine JUndefined
              (merged_options (val Sample.defaults) [Sample.S0; sanitize Sample.S1] ∪ ∅) [] tt).
  assert (He : introJs w = Some e) by (vm_compute; reflexivity).
  assert (Ho : _options e !! "steps" = Some (OSteps [Sample.S0; sanitize Sample.S1]))
    by (vm_compute; reflexivity).
  split; [|split].
  - destruct (updateStepElement_errors w e 5 He) as (_ & H & _).
    apply (H _ Ho). simpl. lia.
  - destruct (updateStepElement_errors w e 0 He) as (_ & _ & _ & H).
    apply (H _ Sample.S0 "#title" Ho); reflexivity.
  - assert (He0 : introJs (constructor false Sample.greeting Sample.page) =
                  Some (@mkEngine Sample.carriers JUndefined ∅ [] tt))
      by (vm_compute; reflexivity).
    destruct (updateStepElement_errors _ _ 0 He0) as (H & _).
    apply H. reflexivity.
Defined.

Lemma sanitize_leaves_no_element_witness :
  map sanitize [Sample.S0; Sample.S2] = [Sample.S0; Sample.S2] /\
  map sanitize (map sanitize [Sample.S0; Sample.S1]) = map sanitize [Sample.S0; Sample.S1].
Proof.
  split.
  - apply (sanitize_leaves_no_element [Sample.S0; Sample.S2]).
    repeat constructor.
  - apply (sanitize_leaves_no_element [Sample.S0; Sample.S1]).
Defined.

Lemma handlers_refuse_only_for_consumer_witness :
  let w := Sample.showing (Sample.vetoing true 0 Sample.two_steps Sample.defaults) in
  let ev := @EvBeforeChange Sample.carriers "#menu" in
  exists e,
    introJs w = Some e /\
    ((exists el f, ev = EvBeforeChange el /\ isVisible w = true /\
                   onBeforeChange (props w) = Some f /\
                   f (_currentStep e) el = JBool false) \/
     (exists f, ev = EvBeforeExit /\ onBeforeExit (props w) = Some f /\
                f (_currentStep e) = JBool false)).
Proof.
  intros w ev.
  apply (handlers_refuse_only_for_consumer ev w (JBool false) (world_of (handler ev w))).
  - vm_compute. reflexivity.
  - reflexivity.
Defined.

Lemma start_only_hidden_and_configured_witness :
  let o := merged_options (val Sample.defaults) [Sample.S0; sanitize Sample.S1] in
  let pre := [Call (OpSetOptions o); Return (OpSetOptions o); Write_isConfigured true] in
  vis_of false pre = false /\ 1 <= configure_runs pre.
Proof.
  intros o pre.
  apply (start_only_hidden_and_configured false Sample.greeting Sample.page [] pre
           [Relay (@EvBeforeChange Sample.carriers "#title");
            Relay (@EvChange Sample.carriers "#title");
            Relay (@EvAfterChange Sample.carriers "#title");
            Return OpStart; Write_isVisible true;
            Call (OpGoToStepNumber 2);
            Relay (@EvBeforeChange Sample.carriers "#menu");
            Relay (@EvChange Sample.carriers "#menu");
            Relay (@EvAfterChange Sample.carriers "#menu");
            Return (OpGoToStepNumber 2);
            Consumer (CbStart (JNum 1))]).
  vm_compute. reflexivity.
Defined.

Lemma only_updates_raise_flag_witness :
  let w := Sample.configured Sample.greeting in
  isVisible (world_of (exec (EngineActs Sample.start) w)) = false /\
  isVisible (world_of (exec (Rebind 0) w)) = false /\
  isVisible (world_of (exec Unmount w)) = false.
Proof.
  intros w. split; [|split]; apply only_updates_raise_flag; reflexivity.
Defined.

Lemma visible_only_while_enabled_witness :
  isVisible (lifetime false (Sample.plain true 0 Sample.two_steps Sample.defaults) Sample.page
               [Update (Sample.plain false 0 Sample.two_steps Sample.defaults)]) = false /\
  isVisible (lifetime true Sample.greeting Sample.page [Update Sample.greeting]) = false.
Proof.
  split.
  - apply (proj1 (visible_only_while_enabled false
                    (Sample.plain true 0 Sample.two_steps Sample.defaults) Sample.page
                    [Update (Sample.plain false 0 Sample.two_steps Sample.defaults)])).
    vm_compute. reflexivity.
  - apply (proj2 (visible_only_while_enabled true Sample.greeting Sample.page
                    [Update Sample.greeting])).
    reflexivity.
Defined.

Lemma exits_never_exceed_starts_witness :
  let w := lifetime false (Sample.plain true 0 Sample.two_steps Sample.defaults) Sample.page
             [Update (Sample.plain false 0 Sample.two_steps Sample.defaults);
              EngineActs Sample.leave;
              Update (Sample.plain true 0 Sample.two_steps Sample.defaults)] in
  exits (log w) + (if isVisible w then 1 else 0) <= starts (log w).
Proof.
  apply exits_never_exceed_starts. repeat constructor.
Defined.

Lemma engine_options_in_sync_witness :
  let p := Sample.plain true 0 Sample.two_steps Sample.defaults in
  let q := Sample.plain false 0 Sample.two_steps Sample.defaults in
  let r := Sample.plain true 0 Sample.three_steps Sample.stale in
  let w := lifetime false p Sample.page [Update q; EngineActs Sample.next; Update r] in
  last_options (log w) =
  (if isConfigured w then Some (options_for (props w)) else None).
Proof.
  intros p q r. apply engine_options_in_sync. simpl. split.
  - intros _. split; reflexivity.
  - split; [|exact I]. intros H. discriminate H.
Defined.

(** ** Where the specification as worded fails *)

(** C2 as stated fails while the engine's start runs: start has been
    called, nothing has exited, and the flag is still false. *)
Lemma isVisible_false_while_start_runs :
  ~ visible_iff_issued
      (log (lifetime false (Sample.plain true 0 Sample.two_steps Sample.defaults)
              Sample.page [])).
Proof.
  intros Hclaim.
  set (o := merged_options (val Sample.defaults) [Sample.S0; sanitize Sample.S1]).
  specialize (Hclaim
    [Call (OpSetOptions o); Return (OpSetOptions o); Write_isConfigured true;
     Call OpStart; Relay (EvBeforeChange "#title")]
    [Relay (EvChange "#title"); Relay (EvAfterChange "#title");
     Return OpStart; Write_isVisible true;
     Call (OpGoToStepNumber 1);
     Relay (EvBeforeChange "#title"); Relay (EvChange "#title");
     Relay (EvAfterChange "#title");
     Return (OpGoToStepNumber 1)]).
  assert (Hlog : vis_of false
                   [Call (OpSetOptions o); Return (OpSetOptions o); Write_isConfigured true;
                    Call OpStart; Relay (EvBeforeChange "#title")] = true).
  { apply Hclaim; [vm_compute|]; reflexivity. }
  discriminate Hlog.
Qed.

(** C5 as stated fails where the refused engine does not go back to the
    step it had.  [renderSteps] has started the tour, which is at step 0,
    has raised the flag and calls [goToStepNumber] for the initial step;
    the consumer refuses; the engine is left at -1, and that is what
    [onPreventChange] gets when the timer fires. *)
Lemma onPreventChange_not_at_prior_step :
  let p := Sample.vetoing true 0 Sample.two_steps Sample.defaults in
  let w := world_of ((call OpStart eng_start >> write_isVisible true) (Sample.configured p)) in
  ~ prevented_at_prior_step w (eng_goToStepNumber (initialStep p + 1)).
Proof.
  intros p w Hclaim.
  set (e := mkEngine (JNum 0)
              (merged_options (val Sample.defaults) [Sample.S0; sanitize Sample.S1] ∪ ∅)
              (map Sample.item_of [Sample.S0; sanitize Sample.S1]) tt).
  assert (He : introJs w = Some e) by (vm_compute; reflexivity).
  specialize (Hclaim e (fun _ _ => JBool false) Sample.silent "#title" (JNum 0) He
                eq_refl eq_refl eq_refl eq_refl).
  cbv zeta in Hclaim.
  assert (Hgot : appended
                   (world_of (run (eng_goToStepNumber (initialStep p + 1) e) w))
                   (world_of (exec Tick
                      (world_of (run (eng_goToStepNumber (initialStep p + 1) e) w)))) =
                 [Consumer (CbPreventChange (JNum (-1)))])
    by (vm_compute; reflexivity).
  rewrite Hgot in Hclaim.
  assert (Hwrong : [Consumer (CbPreventChange (JNum (-1)))] =
                   [Consumer (CbPreventChange (_currentStep e))]).
  { apply Hclaim; [vm_compute|]; reflexivity. }
  discriminate Hwrong.
Qed.

(** C6 as stated fails both ways: props that go from one pair to another
    and back are configured three times for two distinct pairs, and a
    component mounted disabled and never updated is not configured at
    all. *)
Lemma configure_not_once_per_distinct_pair :
  let A := Sample.plain true 0 Sample.two_steps Sample.defaults in
  let B := Sample.plain true 0 Sample.three_steps Sample.defaults in
  let off := Sample.plain false 0 Sample.two_steps Sample.defaults in
  ~ once_per_distinct_pair A Sample.page [Update B; Update A] /\
  ~ once_per_distinct_pair off Sample.page [].
Proof.
  split; intros Hclaim; vm_compute in Hclaim; discriminate Hclaim.
Qed.
